(** * Graph scheduling and variable propagation of the agent loop

    A shallow embedding of [agentLoop/contextManager.py]
    ([ExecutionContextManager]) and [agentLoop/flow.py] ([AgentLoop4]),
    with the properties of the scheduling and extraction engine proved
    about it.

    Conventions of the embedding.
    - Worker outputs are loosely typed Python documents: they are values
      of [pyval].  A Python [dict] keeps insertion order and the code
      relies on it ("first key", "first non-empty value"), so a dict is an
      association list with the update-in-place discipline of Python.
    - The plan interface is typed (ids and variable names are strings,
      [reads] and [writes] are lists of strings); a key that a plan node
      may lack is an [option].
    - A Python exception is the [Raise] outcome of a computation.
    - [print] calls, the instants of the time stamps, the values of the
      cost and token counters and the session snapshot written by
      [_auto_save] are left out: no property below reads them.  Where
      such a line can itself raise, the raise is kept: a [.keys()] call
      on something that is not a dict in the argument of a [print], the
      sum of the token counters, the lookup of a [start_time] that was
      never written, the [.lower()] of every key of the variable store
      in the list of similar keys that [get_inputs] prints for a read key
      it did not find.
    - The variable store [graph['globals_schema']] is a Python dict: its
      entries under string keys are the variables; a key that is not a
      string can only come from the [writes_to] of a clarification
      output, and such entries are kept apart. *)

From Stdlib Require Import String Ascii List ZArith Bool Lia DecimalString.
Import ListNotations.
Open Scope string_scope.
Set Warnings "-register-all".

(** ** Python values *)

Inductive pyval : Type :=
| PNone
| PBool (b : bool)
| PInt (z : Z)
| PFloat (m e : Z)              (* the finite float m * 2^e *)
| PStr (s : string)
| PList (l : list pyval)
| PDict (d : list (string * pyval)).

Inductive exn : Type :=
| KeyError (k : string)
| AttributeError (what : string)
| IndexError
| ValueError (what : string)
| OtherError (what : string).

Inductive outcome (A : Type) : Type :=
| Ok (a : A)
| Raise (e : exn).
Arguments Ok {A} a.
Arguments Raise {A} e.

(** Truth value of a Python object ([if value:]). *)
Definition truthy (v : pyval) : bool :=
  match v with
  | PNone => false
  | PBool b => b
  | PInt z => negb (z =? 0)%Z
  | PFloat m _ => negb (m =? 0)%Z
  | PStr s => negb (s =? "")
  | PList l => match l with [] => false | _ => true end
  | PDict d => match d with [] => false | _ => true end
  end.

(** [isinstance(value, (str, int, float, bool, list, dict))] *)
Definition is_standard (v : pyval) : bool :=
  match v with PNone => false | _ => true end.

(** [str(value)] on the one value that is not of a standard type. *)
Definition py_str_nonstandard (v : pyval) : pyval :=
  match v with PNone => PStr "None" | _ => v end.

(** The idiom repeated all over [mark_done]:
    [value if isinstance(value, (...)) else str(value)]. *)
Definition actual_value (v : pyval) : pyval :=
  if is_standard v then v else py_str_nonstandard v.

Definition is_str (s : string) (v : pyval) : bool :=
  match v with PStr t => t =? s | _ => false end.

(** ** Ordered dictionaries *)

Module Dict.
Section Ops.
Context {V : Type}.
Definition t := list (string * V).

Fixpoint get (k : string) (d : t) : option V :=
  match d with
  | [] => None
  | (k', v) :: d' => if k' =? k then Some v else get k d'
  end.

Definition mem (k : string) (d : t) : bool :=
  match get k d with Some _ => true | None => false end.

(** [d[k] = v]: an existing key keeps its position, a new key goes last. *)
Fixpoint set (k : string) (v : V) (d : t) : t :=
  match d with
  | [] => [(k, v)]
  | (k', v') :: d' =>
      if k' =? k then (k', v) :: d' else (k', v') :: set k v d'
  end.

Definition keys (d : t) : list string := map fst d.
End Ops.
Arguments t : clear implicits.
End Dict.

Definition dict := Dict.t pyval.

(** [d.get(k)] with the default [None], on a value that is a dict. *)
Definition dget (k : string) (d : dict) : pyval :=
  match Dict.get k d with Some v => v | None => PNone end.

(** ** The plan, as the planner hands it over *)

(** A node of the plan is a dict: the keys the engine reads, each of
    which it may lack, and the other entries it carries. *)
Record plan_node := {
  pn_id : option string;
  pn_agent : option string;
  pn_description : option string;
  pn_agent_prompt : option string;
  pn_reads : option (list string);
  pn_writes : option (list string);
  pn_other : list (string * pyval)
}.

Record plan_edge := {
  source : option string;
  target : option string
}.

Record plan := {
  plan_nodes : list plan_node;          (* plan_graph.get("nodes", []) *)
  plan_edges : list plan_edge           (* plan_graph.get("edges", []) *)
}.

(** ** The graph store *)

(** The attribute dict of a node.  A field the dict may lack is an option;
    [output] and [error] are only ever written, Python's [None] and an
    absent key are not told apart for them.  Of [start_time] the code
    tests the presence and the truth value: [Some true] is a time stamp,
    [Some false] is [None], the instant itself is not kept. *)
Record node_data := {
  status : option string;
  agent : option string;
  description : option string;
  agent_prompt : option string;
  reads : option (list string);
  writes : option (list string);
  output : pyval;
  error : option string;
  iterations : option (list pyval);
  call_self_used : option bool;
  final_iteration_output : option pyval;
  start_time : option bool
}.

Definition no_attrs : node_data :=
  {| status := None; agent := None; description := None;
     agent_prompt := None; reads := None; writes := None;
     output := PNone; error := None; iterations := None;
     call_self_used := None; final_iteration_output := None;
     start_time := None |}.

Definition set_status (s : string) (nd : node_data) : node_data :=
  {| status := Some s; agent := agent nd; description := description nd;
     agent_prompt := agent_prompt nd; reads := reads nd; writes := writes nd;
     output := output nd; error := error nd; iterations := iterations nd;
     call_self_used := call_self_used nd;
     final_iteration_output := final_iteration_output nd;
     start_time := start_time nd |}.

Definition set_output (o : pyval) (nd : node_data) : node_data :=
  {| status := status nd; agent := agent nd; description := description nd;
     agent_prompt := agent_prompt nd; reads := reads nd; writes := writes nd;
     output := o; error := error nd; iterations := iterations nd;
     call_self_used := call_self_used nd;
     final_iteration_output := final_iteration_output nd;
     start_time := start_time nd |}.

Definition set_error (e : option string) (nd : node_data) : node_data :=
  {| status := status nd; agent := agent nd; description := description nd;
     agent_prompt := agent_prompt nd; reads := reads nd; writes := writes nd;
     output := output nd; error := e; iterations := iterations nd;
     call_self_used := call_self_used nd;
     final_iteration_output := final_iteration_output nd;
     start_time := start_time nd |}.

Definition set_iteration_record (final : pyval) (nd : node_data) : node_data :=
  {| status := status nd; agent := agent nd; description := description nd;
     agent_prompt := agent_prompt nd; reads := reads nd; writes := writes nd;
     output := output nd; error := error nd; iterations := Some [];
     call_self_used := Some false;
     final_iteration_output := Some final;
     start_time := start_time nd |}.

Definition set_start_time (nd : node_data) : node_data :=
  {| status := status nd; agent := agent nd; description := description nd;
     agent_prompt := agent_prompt nd; reads := reads nd; writes := writes nd;
     output := output nd; error := error nd; iterations := iterations nd;
     call_self_used := call_self_used nd;
     final_iteration_output := final_iteration_output nd;
     start_time := Some true |}.

Definition or_else {A} (new old : option A) : option A :=
  match new with Some _ => new | None => old end.

(** [attrs.update(new)] on attribute dicts: the keys of [new] win. *)
Definition update_attrs (old new : node_data) : node_data :=
  {| status := or_else (status new) (status old);
     agent := or_else (agent new) (agent old);
     description := or_else (description new) (description old);
     agent_prompt := or_else (agent_prompt new) (agent_prompt old);
     reads := or_else (reads new) (reads old);
     writes := or_else (writes new) (writes old);
     output := output new;
     error := error new;
     iterations := or_else (iterations new) (iterations old);
     call_self_used := or_else (call_self_used new) (call_self_used old);
     final_iteration_output :=
       or_else (final_iteration_output new) (final_iteration_output old);
     start_time := or_else (start_time new) (start_time old) |}.

(** The entries of [graph['globals_schema']] whose key is not a string.
    A key is any hashable object: [mark_done] stores the answer of the
    user under [writes_to], which the output may give as [None], a bool
    or a number.  They are kept as the assignments made, oldest first
    (Python keeps one entry for keys that are equal, with the value
    assigned last); the engine never looks one up, it only meets them
    when it goes through all the keys. *)
Definition other_keys := list (pyval * pyval).

(** [nx.DiGraph] as the code uses it: the node table in insertion order,
    the predecessor table, and the one graph attribute that is mutated
    during a run, [graph['globals_schema']]: its entries under string
    keys in insertion order, and its entries under other keys. *)
Record DiGraph := {
  nodes : Dict.t node_data;
  pred : Dict.t (list string);
  globals_schema : dict;
  globals_schema_other : other_keys
}.

Definition with_nodes (ns : Dict.t node_data) (g : DiGraph) : DiGraph :=
  {| nodes := ns; pred := pred g; globals_schema := globals_schema g;
     globals_schema_other := globals_schema_other g |}.

Definition with_globals (gs : dict) (g : DiGraph) : DiGraph :=
  {| nodes := nodes g; pred := pred g; globals_schema := gs;
     globals_schema_other := globals_schema_other g |}.

Definition with_other (os : other_keys) (g : DiGraph) : DiGraph :=
  {| nodes := nodes g; pred := pred g; globals_schema := globals_schema g;
     globals_schema_other := os |}.

(** The whole of [graph['globals_schema']], as it is handed to a
    collaborator. *)
Definition whole_store (g : DiGraph) : dict * other_keys :=
  (globals_schema g, globals_schema_other g).

Definition has_node (g : DiGraph) (n : string) : bool := Dict.mem n (nodes g).

(** [G.add_node(n, **attrs)] *)
Definition add_node (n : string) (attrs : node_data) (g : DiGraph) : DiGraph :=
  match Dict.get n (nodes g) with
  | None =>
      {| nodes := Dict.set n attrs (nodes g);
         pred := Dict.set n [] (pred g);
         globals_schema := globals_schema g;
         globals_schema_other := globals_schema_other g |}
  | Some old => with_nodes (Dict.set n (update_attrs old attrs) (nodes g)) g
  end.

(** [G.predecessors(n)] *)
Definition predecessors (g : DiGraph) (n : string) : list string :=
  match Dict.get n (pred g) with Some ps => ps | None => [] end.

Definition mem_str (s : string) (l : list string) : bool :=
  existsb (String.eqb s) l.

(** [G.add_edge(u, v)]: endpoints that are not nodes yet are added with no
    attribute at all. *)
Definition ensure_node (n : string) (g : DiGraph) : DiGraph :=
  if has_node g n then g else add_node n no_attrs g.

Definition add_edge (u v : string) (g : DiGraph) : DiGraph :=
  let g2 := ensure_node v (ensure_node u g) in
  let ps := predecessors g2 v in
  if mem_str u ps then g2
  else {| nodes := nodes g2;
          pred := Dict.set v (ps ++ [u])%list (pred g2);
          globals_schema := globals_schema g2;
          globals_schema_other := globals_schema_other g2 |}.

(** [G.nodes[n]].  networkx keeps every edge endpoint in the node table, so
    on a graph built by [add_node] and [add_edge] the lookups of the code
    never miss (lemma [init_endpoints_are_nodes]); [no_attrs] stands for
    that miss. *)
Definition node_attrs (g : DiGraph) (n : string) : node_data :=
  match Dict.get n (nodes g) with Some nd => nd | None => no_attrs end.

(** [node_data.get('status', 'pending')] *)
Definition get_status (nd : node_data) : string :=
  match status nd with Some s => s | None => "pending" end.

Definition node_status (g : DiGraph) (n : string) : string :=
  get_status (node_attrs g n).

Definition ROOT : string := "ROOT".

Definition root_attrs : node_data :=
  {| status := Some "completed"; agent := Some "System";
     description := Some "Initial Query"; agent_prompt := None;
     reads := None; writes := None; output := PNone; error := None;
     iterations := None; call_self_used := None;
     final_iteration_output := None; start_time := Some false |}.

Definition plan_attrs (pn : plan_node) : node_data :=
  {| status := Some "pending"; agent := pn_agent pn;
     description := pn_description pn; agent_prompt := pn_agent_prompt pn;
     reads := pn_reads pn; writes := pn_writes pn;
     output := PNone; error := None; iterations := None;
     call_self_used := None; final_iteration_output := None;
     start_time := Some false |}.

Definition empty_graph : DiGraph :=
  {| nodes := []; pred := []; globals_schema := []; globals_schema_other := [] |}.

(** The names a plan node must not carry.  [__init__] calls
    [add_node(node["id"], **node, status='pending', output=None, error=None,
    cost=0.0, start_time=None, end_time=None, execution_time=0.0)]: a key
    of the node that is also one of these seven keywords, or the name of
    one of the two parameters of [add_node(self, node_for_adding, **attr)],
    is given twice, and the call raises [TypeError]. *)
Definition reserved_keys : list string :=
  ["status"; "output"; "error"; "cost"; "start_time"; "end_time"; "execution_time";
   "self"; "node_for_adding"].

Definition carries_reserved_key (pn : plan_node) : bool :=
  existsb (fun k => mem_str k reserved_keys) (Dict.keys (pn_other pn)).

(** The two construction loops of [__init__].  The other entries of a
    plan node become attributes of the graph node that the engine never
    reads; they are not kept. *)
Fixpoint add_plan_nodes (pns : list plan_node) (g : DiGraph) : outcome DiGraph :=
  match pns with
  | [] => Ok g
  | pn :: rest =>
      match pn_id pn with
      | None => Raise (KeyError "id")
      | Some i =>
          if carries_reserved_key pn
          then Raise (OtherError "TypeError: got multiple values for keyword argument")
          else add_plan_nodes rest (add_node i (plan_attrs pn) g)
      end
  end.

Fixpoint add_plan_edges (es : list plan_edge) (g : DiGraph) : outcome DiGraph :=
  match es with
  | [] => Ok g
  | e :: rest =>
      match source e, target e with
      | None, _ => Raise (KeyError "source")
      | Some _, None => Raise (KeyError "target")
      | Some u, Some v => add_plan_edges rest (add_edge u v g)
      end
  end.

(** [ExecutionContextManager.__init__] *)
Definition init (p : plan) : outcome DiGraph :=
  match add_plan_nodes (plan_nodes p) (add_node ROOT root_attrs empty_graph) with
  | Raise e => Raise e
  | Ok g => add_plan_edges (plan_edges p) g
  end.

(** [get_ready_steps] *)
Definition all_deps_complete (g : DiGraph) (n : string) : bool :=
  forallb (fun p => node_status g p =? "completed") (predecessors g n).

Definition get_ready_steps (g : DiGraph) : list string :=
  filter
    (fun node_id =>
       if node_id =? ROOT then false
       else if mem_str (node_status g node_id) ["completed"; "failed"; "running"]
            then false
            else all_deps_complete g node_id)
    (Dict.keys (nodes g)).

(** ** Strings, as the code tests them *)

(** [t in s] on strings *)
Fixpoint contains (t s : string) : bool :=
  if String.prefix t s then true
  else match s with
       | EmptyString => false
       | String _ s' => contains t s'
       end.

Definition lower_ascii (c : ascii) : ascii :=
  let n := nat_of_ascii c in
  if andb (65 <=? n)%nat (n <=? 90)%nat then ascii_of_nat (n + 32) else c.

(** [s.lower()].  The test made with it looks for the letters of
    "formatted", which no character outside ASCII lowers to, so lowering
    the ASCII letters of the UTF-8 text decides the same test. *)
Fixpoint lower (s : string) : string :=
  match s with
  | EmptyString => EmptyString
  | String c s' => String (lower_ascii c) (lower s')
  end.

(** [s.endswith(c)] for a one-character [c] *)
Fixpoint ends_with_char (c : ascii) (s : string) : bool :=
  match s with
  | EmptyString => false
  | String a EmptyString => Ascii.eqb a c
  | String _ s' => ends_with_char c s'
  end.

(** [str(i)] for a non-negative integer *)
Definition str_of_nat (n : nat) : string := NilZero.string_of_uint (Nat.to_uint n).

(** [int(s)] on the decimal texts [Prompt.ask] can answer with *)
Definition int_of_str (s : string) : option Z :=
  match s with
  | EmptyString => None
  | _ => option_map Z.of_int (NilZero.int_of_string s)
  end.

(** [l[i]] with Python's negative indices *)
Definition py_index {A} (l : list A) (i : Z) : option A :=
  let n := Z.of_nat (length l) in
  let j := if (i <? 0)%Z then (i + n)%Z else i in
  if orb (j <? 0)%Z (n <=? j)%Z then None else nth_error l (Z.to_nat j).

(** ** Computations on the context: state, world and exceptions *)

(** A method of the context manager reads and mutates the graph, may call
    an external collaborator (which changes the world [W]) and may raise.
    The state reached when an exception is raised is kept. *)
Definition M (W A : Type) : Type := DiGraph -> W -> outcome A * DiGraph * W.

Definition ret {W A} (a : A) : M W A := fun g w => (Ok a, g, w).
Definition raise {W A} (e : exn) : M W A := fun g w => (Raise e, g, w).
Definition bind {W A B} (c : M W A) (k : A -> M W B) : M W B :=
  fun g w =>
    match c g w with
    | (Ok a, g', w') => k a g' w'
    | (Raise e, g', w') => (Raise e, g', w')
    end.
(** [try: c  except Exception: h] *)
Definition try_except {W A} (c : M W A) (h : exn -> M W A) : M W A :=
  fun g w =>
    match c g w with
    | (Ok a, g', w') => (Ok a, g', w')
    | (Raise e, g', w') => h e g' w'
    end.
Definition get_graph {W} : M W DiGraph := fun g w => (Ok g, g, w).
Definition modify_graph {W} (f : DiGraph -> DiGraph) : M W unit :=
  fun g w => (Ok tt, f g, w).
(** a call to a collaborator *)
Definition call {W A} (f : W -> outcome A * W) : M W A :=
  fun g w => let '(r, w') := f w in (r, g, w').
Definition lift_outcome {W A} (r : outcome A) : M W A := fun g w => (r, g, w).

Declare Scope ctx_scope.
Delimit Scope ctx_scope with ctx.
Notation "x <- c ;; k" := (bind c (fun x => k))
  (at level 61, c at next level, right associativity) : ctx_scope.
Notation "c ;;; k" := (bind c (fun _ => k))
  (at level 61, right associativity) : ctx_scope.
Open Scope ctx_scope.

(** [self.plan_graph.nodes[step_id]] *)
Definition get_step_data {W} (step_id : string) : M W node_data :=
  g <- get_graph ;;
  match Dict.get step_id (nodes g) with
  | Some nd => ret nd
  | None => raise (KeyError step_id)
  end.

(** [self.plan_graph.nodes[step_id][...] = ...] *)
Definition update_step_data {W} (step_id : string) (f : node_data -> node_data)
  : M W unit :=
  nd <- get_step_data step_id ;;
  modify_graph (fun g => with_nodes (Dict.set step_id (f nd) (nodes g)) g).

Definition mark_running {W} (step_id : string) : M W unit :=
  update_step_data step_id (fun nd => set_start_time (set_status "running" nd)).

(** [mark_failed]; the status and the error are written before
    [node_data['start_time']] is looked up for the execution time. *)
Definition mark_failed {W} (step_id : string) (err : option string) : M W unit :=
  update_step_data step_id
    (fun nd => set_error (match err with
                          | Some "" => None | _ => err end)
                 (set_status "failed" nd)) ;;;
  node_data <- get_step_data step_id ;;
  match start_time node_data with
  | None => raise (KeyError "start_time")
  | Some _ => ret tt
  end.

Definition set_step_output {W} (step_id : string) (output_dict : pyval) : M W unit :=
  modify_graph (fun g =>
    match Dict.get step_id (nodes g) with
    | Some nd => with_nodes (Dict.set step_id (set_output output_dict nd) (nodes g)) g
    | None => g
    end).

(** [get_inputs].  For a read key the store lacks, the code lists the
    similar keys of the store for a message, with [key.lower()] on every
    key of the store: that raises [AttributeError] as soon as the store
    holds a key that is not a string. *)
Fixpoint collect_inputs (gs : dict) (others : other_keys) (rs : list string)
         (inputs : dict) : outcome dict :=
  match rs with
  | [] => Ok inputs
  | read_key :: rest =>
      match Dict.get read_key gs with
      | Some value => collect_inputs gs others rest (Dict.set read_key value inputs)
      | None =>
          match others with
          | [] => collect_inputs gs others rest inputs
          | _ :: _ => Raise (AttributeError "lower")
          end
      end
  end.

Definition get_inputs (g : DiGraph) (rs : list string) : outcome dict :=
  collect_inputs (globals_schema g) (globals_schema_other g) rs [].

(** [nodes[n]['status']]: the key must be there *)
Definition status_item (g : DiGraph) (n : string) : outcome string :=
  match status (node_attrs g n) with
  | Some s => Ok s
  | None => Raise (KeyError "status")
  end.

(** [all(nodes[n]['status'] in ['completed', 'failed'] for n in nodes)] *)
Fixpoint all_done_from (g : DiGraph) (ns : list string) : outcome bool :=
  match ns with
  | [] => Ok true
  | n :: rest =>
      match status_item g n with
      | Raise e => Raise e
      | Ok s => if mem_str s ["completed"; "failed"] then all_done_from g rest
                else Ok false
      end
  end.

Definition all_done (g : DiGraph) : outcome bool :=
  all_done_from g (Dict.keys (nodes g)).

(** [any(nodes[n]['status'] == 'failed' for n in nodes)] *)
Fixpoint has_failures_from (g : DiGraph) (ns : list string) : outcome bool :=
  match ns with
  | [] => Ok false
  | n :: rest =>
      match status_item g n with
      | Raise e => Raise e
      | Ok s => if s =? "failed" then Ok true else has_failures_from g rest
      end
  end.

Definition has_failures (g : DiGraph) : outcome bool :=
  has_failures_from g (Dict.keys (nodes g)).

(** ** Output extraction ([mark_done], the loop over [writes]) *)

(** The branch of [mark_done] that binds a write key. *)
Inductive strategy : Type :=
| ExecDirectParsed      (* strategy 1, content-list wrapper parsed *)
| ExecDirect            (* strategy 1, direct key of the execution result *)
| ExecDeepSearch        (* strategy 2 *)
| OutputDirect          (* strategy 3, direct key of the output *)
| OutputExecField       (* strategy 3, key of output["execution_result"] *)
| OutputDeepSearch      (* strategy 3, deep search of the output *)
| FormatterPattern      (* strategy 4, one of the derived names *)
| FormatterContains     (* strategy 4, a key containing "formatted" *)
| FormatterTerms        (* strategy 4, a key containing the step id or the key *)
| FallbackExecFirstKey  (* strategy 5, first key of the execution result *)
| FallbackOutput        (* strategy 5, first truthy value of the output *)
| LastResortEmpty.      (* strategy 5, the empty list *)

(** [deep_search] and [deep_search_output], the same function twice in the
    source.  [None] is both "not found" and a value it can return. *)
Fixpoint deep_search (target_key : string) (data : pyval) : pyval :=
  match data with
  | PDict d =>
      (fix items (d : list (string * pyval)) : pyval :=
         match d with
         | [] => PNone
         | (key, value) :: d' =>
             if key =? target_key then value
             else match deep_search target_key value with
                  | PNone => items d'
                  | result => result
                  end
         end) d
  | PList l =>
      (fix each (l : list pyval) : pyval :=
         match l with
         | [] => PNone
         | item :: l' =>
             match deep_search target_key item with
             | PNone => each l'
             | result => result
             end
         end) l
  | _ => PNone
  end.

(** [for pattern in formatter_patterns: if pattern in output and output[pattern]] *)
Fixpoint first_pattern (output : dict) (patterns : list string) : option pyval :=
  match patterns with
  | [] => None
  | pattern :: rest =>
      match Dict.get pattern output with
      | Some v => if truthy v then Some v else first_pattern output rest
      | None => first_pattern output rest
      end
  end.

(** [for key, value in output.items(): if test(key) and value: ...; break] *)
Fixpoint first_item (test : string -> bool) (items : dict) : option pyval :=
  match items with
  | [] => None
  | (key, value) :: rest =>
      if andb (test key) (truthy value) then Some value
      else first_item test rest
  end.

(** The list built at lines 487-501; [write_key.replace('_T', '_T')] is
    [write_key] itself. *)
Definition formatter_patterns (step_id write_key : string) : list string :=
  [ "formatted_" ++ write_key;
    "formatted_report_" ++ write_key;
    "formatted_html_" ++ write_key;
    "formatted_output_" ++ write_key;
    "formatted_" ++ write_key;
    "formatted_report_" ++ step_id;
    "formatted_html_" ++ step_id;
    "formatted_output_" ++ step_id;
    "formatted_" ++ step_id;
    "formatted_report";
    "formatted_html";
    "formatted_output";
    "formatted" ].

Section Extraction.
(** [json.loads] on a text that starts with an opening and ends with a
    closing bracket: when it parses, the result is a JSON array; [None]
    is [JSONDecodeError]. *)
Variable json_loads : string -> option (list pyval).

(** The content-list wrapper test and parse shared by [mark_done] (lines
    372-384) and [_merge_execution_results] (lines 210-228).
    The result carries the parsed array, or else the bare text when it
    is not bracketed.  [Raise]: an exception the [except] clause does
    not catch (an [AttributeError]; Python reports [UnboundLocalError]
    in its place when the function-local [import json] has not run yet:
    either way an exception leaves the block). *)
Definition parse_content_text (content : list pyval)
  : outcome (option pyval * option pyval) :=
  (* first component: the parsed array; second: the bare text *)
  match content with
  | [] => Ok (None, None)
  | first :: _ =>
      match first with
      | PDict fd =>
          match (match Dict.get "text" fd with Some t => t | None => PStr "" end) with
          | PStr text_content =>
              if andb (String.prefix "[" text_content)
                      (ends_with_char "]" text_content)
              then match json_loads text_content with
                   | Some parsed_data => Ok (Some (PList parsed_data), None)
                   | None => Ok (None, None)       (* JSONDecodeError, caught *)
                   end
              else Ok (None, Some (PStr text_content))
          | _ => Raise (AttributeError "startswith")
          end
      | _ => Raise (AttributeError "get")
      end
  end.

(** [isinstance(value, dict) and 'content' in value and
     isinstance(value['content'], list)] *)
Definition content_list (value : pyval) : option (list pyval) :=
  match value with
  | PDict vd => match Dict.get "content" vd with
                | Some (PList c) => Some c
                | _ => None
                end
  | _ => None
  end.

(** Strategies 1 and 2 (lines 353-425), entered when
    [execution_result and execution_result.get("status") == "success"]. *)
Definition extract_from_execution (execution_result : dict) (write_key : string)
  : outcome (option (strategy * pyval)) :=
  match (match Dict.get "result" execution_result with
         | Some r => r | None => PDict [] end) with
  | PDict rd =>                                   (* result_data.keys() *)
      let result_data := match rd with [] => execution_result | _ => rd end in
      let deep :=
        match deep_search write_key (PDict result_data) with
        | PNone => Ok None
        | found_value => Ok (Some (ExecDeepSearch, actual_value found_value))
        end in
      match Dict.get write_key result_data with
      | Some value =>
          match content_list value with
          | Some content =>
              match parse_content_text content with
              | Raise e => Raise e
              | Ok (Some parsed_data, _) => Ok (Some (ExecDirectParsed, parsed_data))
              | Ok (None, _) => Ok (Some (ExecDirect, actual_value value))
              end
          | None => Ok (Some (ExecDirect, actual_value value))
          end
      | None => deep
      end
  | _ => Raise (AttributeError "keys")
  end.

(** Strategy 3 (lines 427-479), entered when
    [output and isinstance(output, dict)]. *)
Definition extract_from_output (output : dict) (write_key : string)
  : option (strategy * pyval) :=
  match Dict.get write_key output with
  | Some value => Some (OutputDirect, actual_value value)
  | None =>
      match Dict.get "execution_result" output with
      | Some (PDict exec_result) =>
          match Dict.get write_key exec_result with
          | Some value => Some (OutputExecField, actual_value value)
          | None => None
          end
      | _ =>
          match deep_search write_key (PDict output) with
          | PNone => None
          | found_value => Some (OutputDeepSearch, actual_value found_value)
          end
      end
  end.

(** Strategy 4 (lines 481-544), entered when
    [agent_type == "FormatterAgent" and output]. *)
Definition extract_formatter (step_id : string) (output : pyval) (write_key : string)
  : outcome (option (strategy * pyval)) :=
  match output with
  | PDict od =>
      match first_pattern od (formatter_patterns step_id write_key) with
      | Some v => Ok (Some (FormatterPattern, v))
      | None =>
          match first_item (fun key => contains "formatted" (lower key)) od with
          | Some v => Ok (Some (FormatterContains, v))
          | None =>
              let search_terms := [step_id; write_key; write_key] in
              match first_item
                      (fun key => existsb (fun term => contains term key) search_terms)
                      od with
              | Some v => Ok (Some (FormatterTerms, v))
              | None => Ok None
              end
          end
      end
  | _ => Raise (AttributeError "keys")             (* list(output.keys()) *)
  end.

(** Strategy 5 (lines 546-587). *)
Definition extract_fallback (output : pyval) (execution_result : option dict)
  : outcome (strategy * pyval) :=
  (* the two [.keys()] calls of the diagnostic prints *)
  let exec_keys_ok :=
    match execution_result with
    | Some ((_ :: _) as er) =>
        match Dict.get "result" er with
        | Some (PDict _) | None => true
        | Some _ => false
        end
    | _ => true
    end in
  let output_keys_ok :=
    if truthy output then match output with PDict _ => true | _ => false end
    else true in
  if negb exec_keys_ok then Raise (AttributeError "keys")
  else if negb output_keys_ok then Raise (AttributeError "keys")
  else
    let from_exec :=
      match execution_result with
      | Some er =>
          match dget "result" er with
          | PDict ((first_key, fallback_value) :: _) =>
              if first_key =? "" then None
              else Some (FallbackExecFirstKey, actual_value fallback_value)
          | _ => None
          end
      | None => None
      end in
    match from_exec with
    | Some r => Ok r
    | None =>
        match output with
        | PDict od =>
            match first_item (fun _ => true) od with
            | Some value => Ok (FallbackOutput, actual_value value)
            | None => Ok (LastResortEmpty, PList [])
            end
        | _ => Ok (LastResortEmpty, PList [])
        end
    end.

(** The guards in front of the strategies. *)
Definition try_execution (execution_result : option dict) (write_key : string)
  : outcome (option (strategy * pyval)) :=
  match execution_result with
  | Some ((_ :: _) as er) =>
      if is_str "success" (dget "status" er)
      then extract_from_execution er write_key
      else Ok None
  | _ => Ok None
  end.

Definition try_output (output : pyval) (write_key : string)
  : option (strategy * pyval) :=
  match output with
  | PDict ((_ :: _) as od) => extract_from_output od write_key
  | _ => None
  end.

Definition try_formatter (agent_type step_id : string) (output : pyval)
           (write_key : string) : outcome (option (strategy * pyval)) :=
  if andb (agent_type =? "FormatterAgent") (truthy output)
  then extract_formatter step_id output write_key
  else Ok None.

(** One round of the loop [for write_key in writes]: the branch taken and
    the value assigned to [globals_schema[write_key]].  Each strategy
    runs only while [extracted] is still false. *)
Definition extract_key (agent_type step_id : string) (output : pyval)
           (execution_result : option dict) (write_key : string)
  : outcome (strategy * pyval) :=
  match try_execution execution_result write_key with
  | Raise e => Raise e
  | Ok (Some r) => Ok r
  | Ok None =>
      match try_output output write_key with
      | Some r => Ok r
      | None =>
          match try_formatter agent_type step_id output write_key with
          | Raise e => Raise e
          | Ok (Some r) => Ok r
          | Ok None => extract_fallback output execution_result
          end
      end
  end.

(** The loop over [writes]: keys bound before an exception stay bound. *)
Fixpoint extract_writes (agent_type step_id : string) (output : pyval)
         (execution_result : option dict) (ws : list string) (gs : dict)
  : outcome unit * dict :=
  match ws with
  | [] => (Ok tt, gs)
  | write_key :: rest =>
      match extract_key agent_type step_id output execution_result write_key with
      | Raise e => (Raise e, gs)
      | Ok (_, value) =>
          extract_writes agent_type step_id output execution_result rest
            (Dict.set write_key value gs)
      end
  end.
End Extraction.

(** ** External collaborators *)

(** The input handed to the worker, built by [build_agent_input]. *)
Record agent_input := {
  ai_step_id : string;
  ai_agent_prompt : pyval;
  ai_reads : list string;
  ai_writes : list string;
  ai_inputs : dict;
  ai_all_globals_schema : option (dict * other_keys);   (* FormatterAgent only *)
  ai_previous_output : option pyval;
  ai_iteration_context : option pyval
}.

(** The two dicts [AgentRunner.run_agent] returns. *)
Inductive run_result : Type :=
| AgentSuccess (output : pyval)           (* {"success": True, "output": ...} *)
| AgentFailure (error : string).          (* {"success": False, "error": ...} *)

(** What the engine calls and does not implement.  [W] is the state of the
    outside world (the model behind the worker, the terminal, the code
    code executor); every call may change it and may raise. *)
Record collaborators (W : Type) := {
  (** [AgentRunner.run_agent(agent_type, agent_input)] *)
  run_agent : string -> agent_input -> W -> outcome run_result * W;
  (** [action.executor.run_user_code] on one code variant, together with
      the [strip] and the variable-injection prologue that
      [_auto_execute_code] puts in front of it: variant key, code, the
      variable store, the agent output, the reads of the node. *)
  run_user_code : string -> string -> dict * other_keys -> dict -> list string ->
                  W -> outcome pyval * W;
  (** [rich.prompt.Prompt.ask] after the panel with the message has been
      shown: the message, the admissible choices when there are options. *)
  Prompt_ask : pyval -> option (list string) -> W -> outcome string * W;
  json_loads : string -> option (list pyval)
}.
Arguments run_agent {W} c _ _ _.
Arguments run_user_code {W} c _ _ _ _ _ _.
Arguments Prompt_ask {W} c _ _ _.
Arguments json_loads {W} c _.

(** ** [mark_done]: interaction, code execution, extraction, completion *)

(** [x or 0] *)
Definition or_zero (v : pyval) : pyval := if truthy v then v else PInt 0.

Definition is_number (v : pyval) : bool :=
  match v with PBool _ | PInt _ | PFloat _ _ => true | _ => false end.

(** [x + y] does not raise [TypeError]: two numbers, two strings or two
    lists. *)
Definition can_add (x y : pyval) : bool :=
  match x, y with
  | PStr _, PStr _ => true
  | PList _, PList _ => true
  | _, _ => andb (is_number x) (is_number y)
  end.

(** The [input_tokens] and [output_tokens] locals after lines 309-312, the
    driver passing none of the optional arguments. *)
Definition token_counters (output : pyval) : pyval * pyval :=
  match output with
  | PDict ((_ :: _) as od) =>
      (match Dict.get "input_tokens" od with Some v => v | None => PInt 0 end,
       match Dict.get "output_tokens" od with Some v => v | None => PInt 0 end)
  | _ => (PNone, PNone)
  end.

(** The counters of the output can be summed. *)
Definition counters_add (output : pyval) : bool :=
  can_add (or_zero (fst (token_counters output))) (or_zero (snd (token_counters output))).

Definition _has_executable_code (output : pyval) : bool :=
  match output with
  | PDict od =>
      orb (Dict.mem "code_variants" od)
        (orb (existsb (fun k => String.prefix "CODE_" k) (Dict.keys od))
             (existsb (fun key => Dict.mem key od)
                ["tool_calls"; "schedule_tool"; "browser_commands"; "python_code"]))
  | _ => false
  end.

(** [_extract_executable_code]; the [strip] is the collaborator's. *)
Definition _extract_executable_code (output : dict) : outcome (Dict.t string) :=
  match Dict.get "code_variants" output with
  | None => Ok []
  | Some (PDict variants) =>
      Ok (fold_left
            (fun code_to_execute kv =>
               match snd kv with
               | PStr code => Dict.set (fst kv) code code_to_execute
               | _ => code_to_execute
               end)
            variants [])
  | Some _ => Raise (AttributeError "items")
  end.

Definition _is_clarification_request (agent_type : string) (output : pyval) : bool :=
  andb (agent_type =? "ClarificationAgent")
       (match output with
        | PDict od => Dict.mem "clarificationMessage" od
        | _ => false
        end).

(** [_merge_execution_results], on an output that is a dict. *)
Definition merged_value (json : string -> option (list pyval)) (value : pyval)
  : outcome pyval :=
  match content_list value with
  | Some content =>
      match parse_content_text json content with
      | Raise e => Raise e
      | Ok (Some parsed_data, _) => Ok parsed_data
      | Ok (None, Some text_content) => Ok text_content
      | Ok (None, None) => Ok value
      end
  | None => Ok (actual_value value)
  end.

Fixpoint merge_items (json : string -> option (list pyval))
         (items : dict) (enhanced_output : dict) : outcome dict :=
  match items with
  | [] => Ok enhanced_output
  | (key, value) :: rest =>
      match merged_value json value with
      | Raise e => Raise e
      | Ok v => merge_items json rest (Dict.set key v enhanced_output)
      end
  end.

Definition _merge_execution_results (json : string -> option (list pyval))
           (original_output : dict) (execution_result : dict) : outcome dict :=
  let e0 := Dict.set "execution_result" (dget "result" execution_result) original_output in
  let e1 := Dict.set "execution_status" (dget "status" execution_result) e0 in
  let e2 := Dict.set "execution_error" (dget "error" execution_result) e1 in
  let e3 := Dict.set "execution_time" (dget "execution_time" execution_result) e2 in
  let e4 := Dict.set "executed_variant" (dget "executed_variant" execution_result) e3 in
  if andb (truthy (PDict execution_result))
          (is_str "success" (dget "status" execution_result))
  then
    match (match Dict.get "result" execution_result with
           | Some r => r | None => PDict [] end) with
    | PDict result_data =>
        let e5 := fold_left (fun acc kv => Dict.set (fst kv) (actual_value (snd kv)) acc)
                            result_data e4 in
        merge_items json result_data e5
    | result_data => Ok (Dict.set "execution_result" result_data e4)
    end
  else Ok e4.

Section ContextManager.
Context {W : Type}.
Variable C : collaborators W.

(** [options[int(choice) - 1]] *)
Definition selected_option (options : list pyval) (choice : string) : M W pyval :=
  match int_of_str choice with
  | None => raise (ValueError "int")
  | Some c =>
      match py_index options (c - 1)%Z with
      | Some o => ret o
      | None => raise IndexError
      end
  end.

Definition choices_for (n : nat) : list string := map str_of_nat (seq 1 n).

Definition _handle_user_interaction_rich (clarification_output : dict) : M W pyval :=
  let message := match Dict.get "clarificationMessage" clarification_output with
                 | Some m => m | None => PStr "" end in
  let options := match Dict.get "options" clarification_output with
                 | Some o => o | None => PList [] end in
  if truthy options then
    match options with
    | PList l =>
        choice <- call (Prompt_ask C message (Some (choices_for (length l)))) ;;
        selected_option l choice
    | PStr s =>
        let l := map (fun c => PStr (String c EmptyString)) (list_ascii_of_string s) in
        choice <- call (Prompt_ask C message (Some (choices_for (length l)))) ;;
        selected_option l choice
    | PDict d =>
        choice <- call (Prompt_ask C message (Some (choices_for (length d)))) ;;
        match int_of_str choice with
        | None => raise (ValueError "int")
        | Some _ => raise (KeyError choice)
        end
    | _ => raise (OtherError "TypeError: object is not iterable")
    end
  else
    response <- call (Prompt_ask C message None) ;;
    ret (PStr response).

(** The body of the [try] at lines 316-324.  [writes_to] is whatever the
    output holds under that name: a string names a variable; [None], a
    bool or a number is a key of the store as well, one that no read or
    write key can address; a list or a dict is not hashable and the
    assignment raises. *)
Definition capture_user_input (output : dict) : M W pyval :=
  user_response <- _handle_user_interaction_rich output ;;
  (match (match Dict.get "writes_to" output with
          | Some k => k | None => PStr "user_response" end) with
   | PStr writes_to =>
       modify_graph (fun g => with_globals
                                (Dict.set writes_to user_response (globals_schema g)) g)
   | PList _ | PDict _ => raise (OtherError "TypeError: unhashable type")
   | writes_to =>
       modify_graph (fun g => with_other
                                (globals_schema_other g ++ [(writes_to, user_response)])%list
                                g)
   end) ;;;
  ret (PDict (Dict.set "interaction_completed" (PBool true)
                (Dict.set "user_response" user_response output))).

(** The loop of [_auto_execute_code] over the code variants. *)
Fixpoint run_variants (variants : Dict.t string) (output : dict) (rs : list string)
  : M W dict :=
  match variants with
  | [] => ret [("status", PStr "error"); ("error", PStr "All code variants failed")]
  | (code_key, code) :: rest =>
      g <- get_graph ;;
      attempt <- try_except
                   (r <- call (run_user_code C code_key code (whole_store g) output rs) ;;
                    match r with
                    | PDict result =>
                        if is_str "success" (dget "status" result)
                        then ret (Some (Dict.set "executed_variant" (PStr code_key) result))
                        else ret None
                    | _ => raise (AttributeError "get")
                    end)
                   (fun _ => ret None) ;;
      match attempt with
      | Some result => ret result
      | None => run_variants rest output rs
      end
  end.

Definition _auto_execute_code (step_id : string) (output : dict) : M W dict :=
  code_to_execute <- lift_outcome (_extract_executable_code output) ;;
  match code_to_execute with
  | [] => ret [("status", PStr "error"); ("error", PStr "No executable code found")]
  | _ =>
      node_data <- get_step_data step_id ;;
      run_variants code_to_execute output
        (match reads node_data with Some rs => rs | None => [] end)
  end.

(** USER INTERACTION CHECK (lines 314-327): the output the rest of
    [mark_done] goes on with. *)
Definition interaction_phase (agent_type : string) (output : pyval) : M W pyval :=
  if _is_clarification_request agent_type output
  then match output with
       | PDict od => try_except (capture_user_input od) (fun _ => ret output)
       | _ => ret output
       end
  else ret output.

(** CODE EXECUTION CHECK (lines 329-336): the output, merged when the code
    ran and the merge went through, and the execution result. *)
Definition execution_phase (step_id : string) (output : pyval)
  : M W (pyval * option dict) :=
  match output with
  | PDict od =>
      if _has_executable_code output
      then try_except
             (execution_result <- _auto_execute_code step_id od ;;
              match _merge_execution_results (json_loads C) od execution_result with
              | Ok merged => ret (PDict merged, Some execution_result)
              | Raise _ => ret (output, Some execution_result)
              end)
             (fun _ => ret (output, None))
      else ret (output, None)
  | _ => ret (output, None)
  end.

(** Extraction into [globals_schema] and "Store results" (lines 345-605). *)
Definition complete_step (agent_type step_id : string) (ws : list string)
           (output : pyval) (execution_result : option dict) : M W unit :=
  g <- get_graph ;;
  let extraction := extract_writes (json_loads C) agent_type step_id output
                                   execution_result ws (globals_schema g) in
  modify_graph (with_globals (snd extraction)) ;;;
  lift_outcome (fst extraction) ;;;
  update_step_data step_id (fun nd => set_output output (set_status "completed" nd)).

(** [node_data['total_tokens'] = (input_tokens or 0) + (output_tokens or 0)],
    the one line of the bookkeeping after the status is written that can
    raise; the sum itself is not kept. *)
Definition total_tokens (counters : pyval * pyval) : M W unit :=
  if can_add (or_zero (fst counters)) (or_zero (snd counters)) then ret tt
  else raise (OtherError "TypeError: unsupported operand type(s) for +").

(** The FormatterAgent report saved between the two (lines 338-343) only
    writes files, inside a [try] that swallows every exception. *)
Definition mark_done (step_id : string) (output : pyval) : M W unit :=
  node_data <- get_step_data step_id ;;
  let agent_type := match agent node_data with Some a => a | None => "" end in
  let ws := match writes node_data with Some l => l | None => [] end in
  let counters := token_counters output in
  output <- interaction_phase agent_type output ;;
  executed <- execution_phase step_id output ;;
  complete_step agent_type step_id ws (fst executed) (snd executed) ;;;
  total_tokens counters.
End ContextManager.

(** ** [flow.py]: the step executor and the driver loop *)

(** The dict [_execute_step] returns, and the ones the driver is prepared
    to receive. *)
Record step_result := {
  success : bool;
  result_output : pyval;
  result_error : option string
}.

(** [str(exception)] *)
Definition str_of_exn (e : exn) : string :=
  match e with
  | KeyError k => "'" ++ k ++ "'"
  | AttributeError what => "object has no attribute '" ++ what ++ "'"
  | IndexError => "list index out of range"
  | ValueError what => what
  | OtherError what => what
  end.

Section Flow.
Context {W : Type}.
Variable C : collaborators W.

(** The value of the [max_iterations] local of [_execute_step] and of
    [_execute_dag]. *)
Definition max_iterations_default : nat := 20.

Definition build_agent_input (step_id agent_type : string) (step_data : node_data)
           (inputs : dict) (instruction previous_output iteration_context : pyval)
  : M W agent_input :=
  agent_prompt <-
    (if truthy instruction then ret instruction
     else match description step_data with
          | None => raise (KeyError "description")
          | Some d => ret (PStr (match agent_prompt step_data with
                                 | Some p => p | None => d end))
          end) ;;
  g <- get_graph ;;
  ret {| ai_step_id := step_id;
         ai_agent_prompt := agent_prompt;
         ai_reads := match reads step_data with Some l => l | None => [] end;
         ai_writes := match writes step_data with Some l => l | None => [] end;
         ai_inputs := inputs;
         ai_all_globals_schema :=
           if agent_type =? "FormatterAgent" then Some (whole_store g) else None;
         ai_previous_output :=
           if truthy previous_output then Some previous_output else None;
         ai_iteration_context :=
           if truthy iteration_context then Some iteration_context else None |}.

(** The [while current_iteration <= max_iterations] loop.  [remaining] is
    [max_iterations + 1 - current_iteration], the number of rounds the
    loop test still lets through; the safety check at the end of the
    body, [current_iteration > max_iterations], is [remaining = 0] after
    the increment. *)
Fixpoint iterations_loop (remaining : nat) (step_id agent_type : string)
         (step_data : node_data) (inputs : dict)
         (current_output current_instruction current_iteration_context : pyval)
  : M W pyval :=
  match remaining with
  | O => ret current_output
  | S remaining' =>
      agent_input <- build_agent_input step_id agent_type step_data inputs
                       current_instruction current_output current_iteration_context ;;
      result <- call (run_agent C agent_type agent_input) ;;
      match result with
      | AgentFailure _ => ret current_output                         (* break *)
      | AgentSuccess out =>
          set_step_output step_id out ;;;
          match out with
          | PDict ((_ :: _) as od) =>
              let call_self := match Dict.get "call_self" od with
                               | Some v => v | None => PBool false end in
              if negb (truthy call_self) then ret out                (* break *)
              else
                iterations_loop remaining' step_id agent_type step_data inputs out
                  (match Dict.get "next_instruction" od with
                   | Some v => v | None => current_instruction end)
                  (match Dict.get "iteration_context" od with
                   | Some v => v | None => current_iteration_context end)
          | _ =>
              iterations_loop remaining' step_id agent_type step_data inputs out
                current_instruction current_iteration_context
          end
      end
  end.

Definition _execute_step_bounded (max_iterations : nat) (step_id : string)
  : M W step_result :=
  step_data <- get_step_data step_id ;;
  match agent step_data with
  | None => raise (KeyError "agent")
  | Some agent_type =>
      g <- get_graph ;;
      inputs <- lift_outcome (get_inputs g (match reads step_data with
                                            | Some l => l | None => [] end)) ;;
      current_output <- iterations_loop max_iterations step_id agent_type step_data
                          inputs PNone PNone PNone ;;
      update_step_data step_id (set_iteration_record current_output) ;;;
      ret {| success := true; result_output := current_output;
             result_error := None |}
  end.

Definition _execute_step : string -> M W step_result :=
  _execute_step_bounded max_iterations_default.

(** [asyncio.gather] with [return_exceptions=True]: the steps of a round
    run one after the other here.  A step touches no node but its own and
    does not write the variable store, so the order only decides in
    which order the collaborators are called. *)
Fixpoint gather (execute : string -> M W step_result) (ready_steps : list string)
  : M W (list (string * outcome step_result)) :=
  match ready_steps with
  | [] => ret []
  | step_id :: rest =>
      r <- try_except (x <- execute step_id ;; ret (Ok x)) (fun e => ret (Raise e)) ;;
      rs <- gather execute rest ;;
      ret ((step_id, r) :: rs)
  end.

Fixpoint mark_all_running (ready_steps : list string) : M W unit :=
  match ready_steps with
  | [] => ret tt
  | step_id :: rest => mark_running step_id ;;; mark_all_running rest
  end.

(** [for step_id, result in zip(ready_steps, results)] *)
Fixpoint process_results (results : list (string * outcome step_result)) : M W unit :=
  match results with
  | [] => ret tt
  | (step_id, result) :: rest =>
      (match result with
       | Raise e => mark_failed step_id (Some (str_of_exn e))
       | Ok r =>
           if success r then mark_done C step_id (result_output r)
           else match result_error r with
                | Some err => mark_failed step_id (Some err)
                | None => raise (KeyError "error")
                end
       end) ;;;
      process_results rest
  end.

(** One pass through the body of the [while] of [_execute_dag]; [true]
    when the loop goes on. *)
Definition dag_round (execute : string -> M W step_result) : M W bool :=
  g <- get_graph ;;
  match get_ready_steps g with
  | [] =>
      failures <- lift_outcome (has_failures g) ;;
      ret (negb failures)                       (* break / sleep and continue *)
  | ready_steps =>
      mark_all_running ready_steps ;;;
      results <- gather execute ready_steps ;;
      process_results results ;;;
      ret true
  end.

(** [while not context.all_done() and iteration < max_iterations];
    [remaining] is [max_iterations - iteration]. *)
Fixpoint dag_loop (execute : string -> M W step_result) (remaining : nat) : M W unit :=
  match remaining with
  | O => ret tt
  | S remaining' =>
      g <- get_graph ;;
      done <- lift_outcome (all_done g) ;;
      if done then ret tt
      else
        go_on <- dag_round execute ;;
        if go_on then dag_loop execute remaining' else ret tt
  end.

(** [_execute_dag]; the result tells whether "All tasks completed!" is
    printed. *)
Definition _execute_dag : M W bool :=
  dag_loop _execute_step max_iterations_default ;;;
  g <- get_graph ;;
  lift_outcome (all_done g).
End Flow.

(** ** The statements of the specification, and runs to try them on *)

(** A node is ready: it is a plan node (not the synthetic root), it is
    neither completed, failed nor running, and each of its predecessors is
    completed. *)
Definition ready_spec (g : DiGraph) (n : string) : Prop :=
  In n (Dict.keys (nodes g)) /\ n <> ROOT /\
  node_status g n <> "completed" /\ node_status g n <> "failed" /\
  node_status g n <> "running" /\
  forall p, In p (predecessors g n) -> node_status g p = "completed".

Definition plan_ids (p : plan) : list string :=
  flat_map (fun pn => match pn_id pn with Some i => [i] | None => [] end)
           (plan_nodes p).

Definition edge (u v : string) : plan_edge := {| source := Some u; target := Some v |}.

(** A path along the edges of the plan. *)
Inductive plan_path (p : plan) : string -> string -> Prop :=
| path_edge u v : In (edge u v) (plan_edges p) -> plan_path p u v
| path_step u v w : In (edge u v) (plan_edges p) -> plan_path p v w -> plan_path p u w.

Definition has_cycle (p : plan) : Prop := exists n, plan_path p n n.

(** An edge names an id that is neither a plan node nor the root. *)
Definition has_unknown_endpoint (p : plan) : Prop :=
  exists u v, In (edge u v) (plan_edges p) /\
              (~ In u (ROOT :: plan_ids p) \/ ~ In v (ROOT :: plan_ids p)).

Definition malformed (p : plan) : Prop := has_cycle p \/ has_unknown_endpoint p.

(** Every node of the plan has an id, every edge a source and a target. *)
Definition keyed (p : plan) : Prop :=
  (forall pn, In pn (plan_nodes p) -> pn_id pn <> None) /\
  (forall e, In e (plan_edges p) -> source e <> None /\ target e <> None).

(** No node of the plan carries a name that [__init__] or [add_node]
    gives to the call itself. *)
Definition no_reserved_key (p : plan) : Prop :=
  forall pn, In pn (plan_nodes p) -> carries_reserved_key pn = false.

(** The collaborators with a record of the worker's answers: the world
    carries the list of what [run_agent] returned, oldest first. *)
Definition logged {W} (C : collaborators W) : collaborators (W * list (outcome run_result)) :=
  {| run_agent := fun agent_type agent_input wl =>
       let '(r, w') := run_agent C agent_type agent_input (fst wl) in
       (r, (w', (snd wl ++ [r])%list));
     run_user_code := fun k c gs out rs wl =>
       let '(r, w') := run_user_code C k c gs out rs (fst wl) in (r, (w', snd wl));
     Prompt_ask := fun m cs wl =>
       let '(r, w') := Prompt_ask C m cs (fst wl) in (r, (w', snd wl));
     json_loads := json_loads C |}.

(** The worker asks for another round whatever it is given: its output is
    a dict with a true [call_self]. *)
Definition requests_continuation (r : outcome run_result) : Prop :=
  exists od, r = Ok (AgentSuccess (PDict od)) /\
             truthy (dget "call_self" od) = true.

Definition always_continues {W} (C : collaborators W) : Prop :=
  forall agent_type agent_input w,
    requests_continuation (fst (run_agent C agent_type agent_input w)).

(** The output of the last answer in a record of answers. *)
Definition last_output (calls : list (outcome run_result)) : pyval :=
  match last calls (Raise IndexError) with
  | Ok (AgentSuccess out) => out
  | _ => PNone
  end.

(** What the last-resort block binds, in words: the value under the first
    key of the result mapping of the execution result, else the first
    truthy top-level value of the output, else the empty list. *)
Definition first_key_of_result (execution_result : option dict) : option pyval :=
  match execution_result with
  | Some er =>
      match Dict.get "result" er with
      | Some (PDict ((k, v) :: _)) => if k =? "" then None else Some (actual_value v)
      | _ => None
      end
  | None => None
  end.

Definition first_truthy_of_output (output : pyval) : option pyval :=
  match output with
  | PDict od => find truthy (map snd od)
  | _ => None
  end.

Definition fallback_spec (output : pyval) (execution_result : option dict)
  : strategy * pyval :=
  match first_key_of_result execution_result with
  | Some v => (FallbackExecFirstKey, v)
  | None =>
      match first_truthy_of_output output with
      | Some v => (FallbackOutput, v)
      | None => (LastResortEmpty, PList [])
      end
  end.

(** The execution result is [None] or carries a mapping (or nothing) under
    [result], as [run_user_code] and [_auto_execute_code] build it. *)
Definition result_is_mapping (execution_result : option dict) : Prop :=
  match execution_result with
  | Some er => match Dict.get "result" er with
               | Some (PDict _) | None => True
               | Some _ => False
               end
  | None => True
  end.

(** The store already holds, for each key the loop over the write keys
    gets to, the value [key] binds it to. *)
Fixpoint settled_by (key : string -> outcome (strategy * pyval))
         (ws : list string) (gs : dict) : Prop :=
  match ws with
  | [] => True
  | k :: rest =>
      match key k with
      | Raise _ => True
      | Ok (_, v) => Dict.get k gs = Some v /\ settled_by key rest gs
      end
  end.

(** The graph a computation leaves behind. *)
Definition graph_of {W A} (x : outcome A * DiGraph * W) : DiGraph := snd (fst x).

(** From [g] to [g'] the edges and the node table are the same and only
    the nodes of [S] may have another status. *)
Definition only_changes (S : list string) (g g' : DiGraph) : Prop :=
  pred g' = pred g /\
  Dict.keys (nodes g') = Dict.keys (nodes g) /\
  forall n, ~ In n S -> status (node_attrs g' n) = status (node_attrs g n).

Definition touches {W A} (S : list string) (c : M W A) : Prop :=
  forall g w, only_changes S g (graph_of (c g w)).

(** Every edge joins two nodes of the node table. *)
Definition closed (g : DiGraph) : Prop :=
  forall u v, In u (predecessors g v) -> has_node g u = true /\ has_node g v = true.

(** Every node but the root is pending (the status of a fresh plan). *)
Definition all_pending (g : DiGraph) : Prop :=
  forall d, d <> ROOT -> node_status g d = "pending".

(** The nodes that are not among [ids] carry no attribute. *)
Definition bare_outside (ids : list string) (g : DiGraph) : Prop :=
  forall n, has_node g n = true -> ~ In n ids -> Dict.get n (nodes g) = Some no_attrs.

(** Steps were started in dependency order: a node other than the root
    that is no longer pending has all its predecessors completed. *)
Definition in_order (g : DiGraph) : Prop :=
  forall d, d <> ROOT -> node_status g d <> "pending" ->
  forall p, In p (predecessors g d) -> node_status g p = "completed".

(** What every round keeps, relative to the graph [g0] the run was in
    when the node had failed. *)
Definition kept_since (g0 g : DiGraph) : Prop :=
  in_order g /\ pred g = pred g0 /\ Dict.keys (nodes g) = Dict.keys (nodes g0) /\
  forall n, node_status g0 n = "failed" -> node_status g n = "failed".

(** [v] is [data] itself, an item of a list inside [data] or a value of a
    dict inside [data]. *)
Inductive inside (v : pyval) : pyval -> Prop :=
| inside_here : inside v v
| inside_item x l : In x l -> inside v x -> inside v (PList l)
| inside_value k x d : In (k, x) d -> inside v x -> inside v (PDict d).

(** Some dict inside [data] binds [k] to [v]. *)
Definition key_value (k : string) (v data : pyval) : Prop :=
  exists d, inside (PDict d) data /\ In (k, v) d.

(** A computation leaves the graph in relation [R] with the graph it
    started from, whatever its outcome. *)
Definition keeps {W A} (R : DiGraph -> DiGraph -> Prop) (c : M W A) : Prop :=
  forall g w, R g (graph_of (c g w)).


(** The same nodes in the same order and the same edges. *)
Definition same_structure (g g' : DiGraph) : Prop :=
  pred g' = pred g /\ Dict.keys (nodes g') = Dict.keys (nodes g).

(** What a node was given by the plan. *)
Definition plan_part (nd : node_data) :=
  (agent nd, description nd, agent_prompt nd, reads nd, writes nd).

(** From [g] to [g'] nothing changed but what [_execute_step] records in
    the node of [step]: the store, the edges, the node table, every other
    node, and the status, the error, the start time and the plan part of
    the node of [step] are the same. *)
Definition step_frame (step : string) (g g' : DiGraph) : Prop :=
  whole_store g' = whole_store g /\
  same_structure g g' /\
  (forall n, n <> step -> Dict.get n (nodes g') = Dict.get n (nodes g)) /\
  status (node_attrs g' step) = status (node_attrs g step) /\
  error (node_attrs g' step) = error (node_attrs g step) /\
  start_time (node_attrs g' step) = start_time (node_attrs g step) /\
  plan_part (node_attrs g' step) = plan_part (node_attrs g step).

(** From [g] to [g'] the plan is the same: the same nodes and edges, and
    every node has the plan part it had. *)
Definition same_plan (g g' : DiGraph) : Prop :=
  same_structure g g' /\
  forall n, plan_part (node_attrs g' n) = plan_part (node_attrs g n).

(** Nodes that wait for one another: each node of [S] is pending, and is
    the root (which is never scheduled) or has a predecessor in [S]. *)
Definition blocked_set (S : string -> Prop) (g : DiGraph) : Prop :=
  forall n, S n ->
    node_status g n = "pending" /\
    (n = ROOT \/ exists u, In u (predecessors g n) /\ S u).

(** [n] lies on a cycle of the plan's edges. *)
Definition on_cycle (p : plan) (n : string) : Prop := plan_path p n n.

(** The code executor never reports a success: each call raises, or
    returns something that is not a dict with status "success". *)
Definition never_succeeds {W} (C : collaborators W) : Prop :=
  forall code_key code gs output rs w,
    match fst (run_user_code C code_key code gs output rs w) with
    | Ok (PDict result) => is_str "success" (dget "status" result) = false
    | _ => True
    end.

(** The execution result, if any, does not report a success. *)
Definition unsuccessful (execution_result : option dict) : Prop :=
  match execution_result with
  | Some er => is_str "success" (dget "status" er) = false
  | None => True
  end.

(** From [g] to [g'] no node outside [S] was rewritten. *)
Definition nodes_kept_outside (S : list string) (g g' : DiGraph) : Prop :=
  forall n, ~ In n S -> Dict.get n (nodes g') = Dict.get n (nodes g).

(** The variable a successful user interaction is stored under: the
    [writes_to] of a clarification request, [user_response] by default.
    A [writes_to] that is not a string names no variable. *)
Definition interaction_key (agent_type : string) (output : pyval) : option string :=
  if _is_clarification_request agent_type output then
    match output with
    | PDict od =>
        match Dict.get "writes_to" od with
        | Some (PStr k) => Some k
        | Some _ => None
        | None => Some "user_response"
        end
    | _ => None
    end
  else None.

(** The five fields [_merge_execution_results] adds to the output. *)
Definition execution_fields : list string :=
  ["execution_result"; "execution_status"; "execution_error"; "execution_time";
   "executed_variant"].

(** The variables of the result mapping of an execution result. *)
Definition result_variables (execution_result : dict) : list string :=
  match Dict.get "result" execution_result with
  | Some (PDict rd) => Dict.keys rd
  | _ => []
  end.

(** The keys of [d'] are the keys of [d], in their order, followed by
    added ones. *)
Definition extends {V} (d d' : Dict.t V) : Prop :=
  exists added, Dict.keys d' = (Dict.keys d ++ added)%list.

(** The node table is the same. *)
Definition same_nodes (g g' : DiGraph) : Prop := nodes g' = nodes g.

(** The two error records of [_auto_execute_code]. *)
Definition no_code_found : dict :=
  [("status", PStr "error"); ("error", PStr "No executable code found")].

Definition all_variants_failed : dict :=
  [("status", PStr "error"); ("error", PStr "All code variants failed")].

(** [result] is a successful execution result tagged with one of the
    [variants]. *)
Definition success_of (variants : Dict.t string) (result : dict) : Prop :=
  is_str "success" (dget "status" result) = true /\
  exists code_key code,
    In (code_key, code) variants /\
    Dict.get "executed_variant" result = Some (PStr code_key).

(** An output that cannot ask for another round: anything but a
    non-empty dict. *)
Definition silent (out : pyval) : Prop :=
  match out with PDict (_ :: _) => False | _ => True end.

(** The worker answers every call with a success and such an output. *)
Definition always_silent {W} (C : collaborators W) : Prop :=
  forall agent_type agent_input w,
    exists out, fst (run_agent C agent_type agent_input w) = Ok (AgentSuccess out) /\
                silent out.

(** The output [mark_done] goes on with after a user interaction that
    returned [user_response]. *)
Definition answered (output : dict) (user_response : pyval) : dict :=
  Dict.set "interaction_completed" (PBool true)
    (Dict.set "user_response" user_response output).

(** A chain of dependencies in the plan: each step of [c] has an edge
    from the step before it. *)
Fixpoint chained (p : plan) (c : list string) : Prop :=
  match c with
  | a :: (b :: _) as rest => In (edge a b) (plan_edges p) /\ chained p rest
  | _ => True
  end.

(** [rank] layers the plan: every step other than the root has a rank
    between 1 and [depth], and every edge that does not start at the
    root goes to a higher rank. *)
Definition layered (p : plan) (g : DiGraph) (rank : string -> nat) (depth : nat) : Prop :=
  (forall n, has_node g n = true -> n <> ROOT -> 1 <= rank n <= depth) /\
  (forall u v, In (edge u v) (plan_edges p) -> u = ROOT \/ rank u < rank v).

(** What a run from a fresh graph [g0] keeps: the structure, the root
    completed, and no status but pending, completed and failed between
    rounds. *)
Definition between_rounds (g0 g : DiGraph) : Prop :=
  pred g = pred g0 /\ Dict.keys (nodes g) = Dict.keys (nodes g0) /\
  node_status g ROOT = "completed" /\
  forall n, In (node_status g n) ["pending"; "completed"; "failed"].

(** Some step has failed, or every step up to rank [i] is completed. *)
Definition done_up_to (g0 : DiGraph) (rank : string -> nat) (i : nat) (g : DiGraph)
  : Prop :=
  (exists n, node_status g n = "failed") \/
  (forall n, has_node g0 n = true -> n <> ROOT -> rank n <= i ->
             node_status g n = "completed").

(** A computation over a world with a record that leaves the record
    as it is. *)
Definition quiet {W L A} (c : M (W * L) A) : Prop :=
  forall g wl, snd (snd (c g wl)) = snd wl.

(** A step that is neither completed nor failed, and the steps of the
    node table that are so. *)
Definition open_step (g : DiGraph) (n : string) : bool :=
  negb (mem_str (node_status g n) ["completed"; "failed"]).

Definition open_steps (g : DiGraph) : list string :=
  filter (open_step g) (Dict.keys (nodes g)).

Module Examples.
Definition step (i a : string) (rs ws : list string) : plan_node :=
  {| pn_id := Some i; pn_agent := Some a; pn_description := Some ("run " ++ i);
     pn_agent_prompt := None; pn_reads := Some rs; pn_writes := Some ws;
     pn_other := [] |}.

(** Collaborators that are all out of order. *)
Definition unavailable : collaborators unit :=
  {| run_agent := fun _ _ w => (Raise (OtherError "no worker"), w);
     run_user_code := fun _ _ _ _ _ w => (Raise (OtherError "no executor"), w);
     Prompt_ask := fun _ _ w => (Raise (OtherError "no terminal"), w);
     json_loads := fun _ => None |}.

(** A worker that fails at every call. *)
Definition failing_worker : collaborators unit :=
  {| run_agent := fun _ _ w => (Ok (AgentFailure "boom"), w);
     run_user_code := fun _ _ _ _ _ w => (Raise (OtherError "no executor"), w);
     Prompt_ask := fun _ _ w => (Raise (OtherError "no terminal"), w);
     json_loads := fun _ => None |}.

(** A worker that always asks for another round and numbers its
    outputs; the world is the number of calls so far. *)
Definition eager_worker : collaborators nat :=
  {| run_agent := fun _ _ n =>
       (Ok (AgentSuccess (PDict [("call_self", PBool true);
                                 ("round", PInt (Z.of_nat (S n)))])), S n);
     run_user_code := fun _ _ _ _ _ w => (Raise (OtherError "no executor"), w);
     Prompt_ask := fun _ _ w => (Raise (OtherError "no terminal"), w);
     json_loads := fun _ => None |}.

(** A code executor whose run returns the given result mapping. *)
Definition executor_returning (result : dict) : collaborators unit :=
  {| run_agent := fun _ _ w => (Raise (OtherError "no worker"), w);
     run_user_code := fun _ _ _ _ _ w =>
       (Ok (PDict [("status", PStr "success"); ("result", PDict result)]), w);
     Prompt_ask := fun _ _ w => (Raise (OtherError "no terminal"), w);
     json_loads := fun _ => None |}.

Definition built (p : plan) : DiGraph :=
  match init p with Ok g => g | Raise _ => empty_graph end.

(** A -> B *)
Definition chain_plan : plan :=
  {| plan_nodes := [step "A" "CoderAgent" [] ["x"]; step "B" "CoderAgent" ["x"] ["y"]];
     plan_edges := [edge "A" "B"] |}.

(** A -> B -> A *)
Definition cyclic_plan : plan :=
  {| plan_nodes := [step "A" "CoderAgent" [] ["x"]; step "B" "CoderAgent" ["x"] ["y"]];
     plan_edges := [edge "A" "B"; edge "B" "A"] |}.

(** A -> X where no node X is declared *)
Definition dangling_plan : plan :=
  {| plan_nodes := [step "A" "CoderAgent" [] ["x"]];
     plan_edges := [edge "A" "X"] |}.

(** Scenario B: node C writes z. *)
Definition scenario_B_plan : plan :=
  {| plan_nodes := [step "C" "CoderAgent" [] ["z"]]; plan_edges := [] |}.

Definition scenario_B_result : dict :=
  [("status", PStr "success"); ("result", PDict [("z", PInt 42)])].

Definition scenario_B_output : pyval :=
  PDict [("execution_result", PDict scenario_B_result)].

(** A single step that fails, and a step asking the user. *)
Definition single_plan : plan :=
  {| plan_nodes := [step "E" "CoderAgent" [] ["x"]]; plan_edges := [] |}.

Definition question_plan : plan :=
  {| plan_nodes := [step "Q" "ClarificationAgent" [] ["answer"]]; plan_edges := [] |}.

Definition question_fields : dict :=
  [("clarificationMessage", PStr "Which file?"); ("cost", PFloat 1 (-10))].

Definition question_output : pyval := PDict question_fields.

(** An output with code to run, for a node that writes k. *)
Definition coded_plan : plan :=
  {| plan_nodes := [step "T1" "CoderAgent" [] ["k"]]; plan_edges := [] |}.

Definition coded_output : pyval :=
  PDict [("code_variants", PDict [("CODE_1", PStr "a = ''; b = 5")])].


(** A worker whose output is always the empty dict. *)
Definition empty_worker : collaborators unit :=
  {| run_agent := fun _ _ w => (Ok (AgentSuccess (PDict [])), w);
     run_user_code := fun _ _ _ _ _ w => (Raise (OtherError "no executor"), w);
     Prompt_ask := fun _ _ w => (Raise (OtherError "no terminal"), w);
     json_loads := fun _ => None |}.

(** A terminal at which the user types "data.csv". *)
Definition typing_user : collaborators unit :=
  {| run_agent := fun _ _ w => (Raise (OtherError "no worker"), w);
     run_user_code := fun _ _ _ _ _ w => (Raise (OtherError "no executor"), w);
     Prompt_ask := fun _ _ w => (Ok "data.csv", w);
     json_loads := fun _ => None |}.

(** A question whose answer goes to the variable the node writes, and one
    whose answer goes to a variable of its own. *)
Definition question_same_key : dict :=
  [("clarificationMessage", PStr "Which file?"); ("writes_to", PStr "answer")].

Definition question_own_key : dict :=
  [("clarificationMessage", PStr "Which file?"); ("writes_to", PStr "file_name")].

(** A chain of 21 steps behind the root. *)
Definition numbered (n : nat) : list string :=
  map (fun i => ("s" ++ str_of_nat i)%string) (seq 1 n).

Fixpoint chain_edges (ids : list string) : list plan_edge :=
  match ids with
  | a :: (b :: _) as rest => edge a b :: chain_edges rest
  | _ => []
  end.

Definition long_chain : plan :=
  {| plan_nodes := map (fun i => step i "CoderAgent" [] []) (numbered 21);
     plan_edges := chain_edges (ROOT :: numbered 21) |}.



(** A plan whose only node restates its status. *)
Definition restated_status_plan : plan :=
  {| plan_nodes :=
       [{| pn_id := Some "A"; pn_agent := Some "CoderAgent"; pn_description := None;
           pn_agent_prompt := None; pn_reads := None; pn_writes := None;
           pn_other := [("status", PStr "pending")] |}];
     plan_edges := [] |}.


(** A worker with one plain answer. *)
Definition plain_worker : collaborators unit :=
  {| run_agent := fun _ _ w => (Ok (AgentSuccess (PDict [("x", PInt 1)])), w);
     run_user_code := fun _ _ _ _ _ w => (Raise (OtherError "no executor"), w);
     Prompt_ask := fun _ _ w => (Raise (OtherError "no terminal"), w);
     json_loads := fun _ => None |}.
End Examples.

(** * Properties *)

(** ** Dictionaries *)

Section DictFacts.
Context {V : Type}.
Implicit Types (d : Dict.t V) (k : string) (v : V).

Lemma get_set_same d k v : Dict.get k (Dict.set k v d) = Some v.
Proof.
  induction d as [|[k' v'] d IH]; simpl.
  - now rewrite String.eqb_refl.
  - destruct (k' =? k) eqn:E; simpl; rewrite E; auto.
Qed.

Lemma get_set_other d k k' v : k' <> k -> Dict.get k' (Dict.set k v d) = Dict.get k' d.
Proof.
  intros Hne. induction d as [|[k0 v0] d IH]; simpl.
  - destruct (k =? k') eqn:E; auto. apply String.eqb_eq in E. congruence.
  - destruct (k0 =? k) eqn:E; simpl.
    + apply String.eqb_eq in E. subst k0.
      destruct (k =? k') eqn:E'; auto. apply String.eqb_eq in E'. congruence.
    + destruct (k0 =? k'); auto.
Qed.

Lemma set_known d k v : Dict.get k d = Some v -> Dict.set k v d = d.
Proof.
  induction d as [|[k' v'] d IH]; simpl; [discriminate|].
  destruct (k' =? k) eqn:E; intros H.
  - now inversion H.
  - now rewrite IH.
Qed.

Lemma keys_set_known d k v :
  Dict.mem k d = true -> Dict.keys (Dict.set k v d) = Dict.keys d.
Proof.
  unfold Dict.mem, Dict.keys.
  induction d as [|[k' v'] d IH]; simpl; [discriminate|].
  destruct (k' =? k) eqn:E; simpl; intros H; auto.
  now rewrite IH.
Qed.

Lemma keys_set_new d k v :
  Dict.mem k d = false -> Dict.keys (Dict.set k v d) = (Dict.keys d ++ [k])%list.
Proof.
  unfold Dict.mem, Dict.keys.
  induction d as [|[k' v'] d IH]; simpl; auto.
  destruct (k' =? k) eqn:E; simpl; intros H; [discriminate|].
  now rewrite IH.
Qed.

Lemma mem_keys d k : Dict.mem k d = true <-> In k (Dict.keys d).
Proof.
  unfold Dict.mem, Dict.keys. induction d as [|[k' v'] d IH]; simpl.
  - split; [discriminate | tauto].
  - destruct (k' =? k) eqn:E.
    + apply String.eqb_eq in E. intuition.
    + apply String.eqb_neq in E. rewrite IH. intuition congruence.
Qed.

End DictFacts.

Lemma mem_str_In s l : mem_str s l = true <-> In s l.
Proof.
  unfold mem_str. rewrite existsb_exists. split.
  - intros (x & Hx & E). apply String.eqb_eq in E. now subst.
  - intros H. exists s. split; auto. apply String.eqb_refl.
Qed.

Lemma mem_str_not_In s l : mem_str s l = false <-> ~ In s l.
Proof.
  rewrite <- mem_str_In. destruct (mem_str s l); intuition congruence.
Qed.

(** ** C1: the ready set *)

Lemma all_deps_complete_iff g n :
  all_deps_complete g n = true <->
  forall p, In p (predecessors g n) -> node_status g p = "completed".
Proof.
  unfold all_deps_complete. rewrite forallb_forall.
  split; intros H p Hp; specialize (H p Hp).
  - now apply String.eqb_eq.
  - now apply String.eqb_eq.
Qed.

Lemma ready_iff g n : In n (get_ready_steps g) <-> ready_spec g n.
Proof.
  unfold get_ready_steps, ready_spec. rewrite filter_In.
  destruct (n =? ROOT) eqn:Eroot.
  - apply String.eqb_eq in Eroot. intuition congruence.
  - apply String.eqb_neq in Eroot.
    destruct (mem_str (node_status g n) ["completed"; "failed"; "running"]) eqn:Est.
    + apply mem_str_In in Est. simpl in Est. intuition congruence.
    + apply mem_str_not_In in Est. simpl in Est.
      rewrite all_deps_complete_iff. intuition.
Qed.

(** C1.  For every status snapshot [g], [get_ready_steps] returns exactly
    the nodes other than the synthetic root whose status is neither
    completed, failed nor running and whose predecessors are all
    completed: it returns no other node and misses none; in particular a
    node of that kind with no predecessor at all is returned. *)
Theorem get_ready_steps_exact (g : DiGraph) (n : string) :
  (In n (get_ready_steps g) <-> ready_spec g n) /\
  (In n (Dict.keys (nodes g)) /\ n <> ROOT /\
   ~ In (node_status g n) ["completed"; "failed"; "running"] /\
   predecessors g n = [] <->
   In n (get_ready_steps g) /\ predecessors g n = []).
Proof.
  split; [apply ready_iff|].
  rewrite ready_iff. unfold ready_spec. simpl.
  split.
  - intros (Hin & Hroot & Hst & Hp). rewrite Hp. simpl. intuition.
  - intros ((Hin & Hroot & H1 & H2 & H3 & _) & Hp). intuition.
Qed.

(** ** C10: the inputs of a step *)

Lemma collect_inputs_get gs others rs inputs r k :
  collect_inputs gs others rs inputs = Ok r ->
  Dict.get k r =
  match Dict.get k gs with
  | Some v => if mem_str k rs then Some v else Dict.get k inputs
  | None => Dict.get k inputs
  end.
Proof.
  revert inputs. induction rs as [|x rs IH]; intros inputs H; simpl in H.
  - inversion H. subst. simpl. now destruct (Dict.get k gs).
  - cbn [mem_str existsb]. fold (mem_str k rs).
    destruct (Dict.get x gs) as [value|] eqn:Ex.
    + rewrite (IH _ H). destruct (String.eqb_spec k x) as [->|Hne].
      * rewrite Ex, get_set_same. now destruct (mem_str x rs).
      * rewrite get_set_other by assumption. reflexivity.
    + destruct others as [|o others]; [|discriminate H].
      rewrite (IH _ H). destruct (String.eqb_spec k x) as [->|Hne]; [|reflexivity].
      now rewrite Ex.
Qed.

Lemma collect_inputs_returns gs others rs inputs :
  (forall k, In k rs -> Dict.mem k gs = true) \/ others = [] ->
  exists r, collect_inputs gs others rs inputs = Ok r.
Proof.
  intros H. revert inputs. induction rs as [|x rs IH]; intros inputs; simpl; [eauto|].
  assert (Hrest : (forall k, In k rs -> Dict.mem k gs = true) \/ others = []).
  { destruct H as [H|H]; [left; intros k Hk; apply H; now right | now right]. }
  destruct (Dict.get x gs) as [value|] eqn:Ex; [now apply IH|].
  destruct H as [H| ->]; [|now apply IH].
  specialize (H x (or_introl eq_refl)). unfold Dict.mem in H. rewrite Ex in H.
  discriminate H.
Qed.





(** ** C9: extraction is a function of the output, and idempotent *)

Section ExtractionFacts.
Variable json : string -> option (list pyval).
Variables (agent_type step_id : string) (output : pyval)
          (execution_result : option dict).

Local Abbreviation key := (extract_key json agent_type step_id output execution_result).
Local Abbreviation run := (extract_writes json agent_type step_id output execution_result).
Local Abbreviation settled := (settled_by key).

Lemma outcome_independent ws gs1 gs2 : fst (run ws gs1) = fst (run ws gs2).
Proof.
  revert gs1 gs2. induction ws as [|k ws IH]; intros gs1 gs2; simpl; auto.
  destruct (key k) as [[st v]|e]; simpl; auto.
Qed.

Lemma settled_fixed ws gs : settled ws gs -> snd (run ws gs) = gs.
Proof.
  induction ws as [|k ws IH]; simpl; auto.
  destruct (key k) as [[st v]|e]; simpl; auto.
  intros [Hk Hrest]. rewrite (set_known _ _ _ Hk). auto.
Qed.

Lemma binding_kept ws gs k st v :
  key k = Ok (st, v) -> Dict.get k gs = Some v ->
  Dict.get k (snd (run ws gs)) = Some v.
Proof.
  intros Hk. revert gs. induction ws as [|k' ws IH]; intros gs Hg; simpl; auto.
  destruct (key k') as [[st' v']|e] eqn:Ek'; simpl; auto.
  apply IH. destruct (String.eqb_spec k k') as [->|Hne].
  - rewrite Hk in Ek'. inversion Ek'. subst. apply get_set_same.
  - now rewrite get_set_other.
Qed.

Lemma run_settles ws gs : settled ws (snd (run ws gs)).
Proof.
  revert gs. induction ws as [|k ws IH]; intros gs; simpl; auto.
  destruct (key k) as [[st v]|e] eqn:Ek; simpl; auto.
  split.
  - eapply binding_kept; eauto. apply get_set_same.
  - apply IH.
Qed.

Lemma bound_after_run ws gs k :
  In k ws -> fst (run ws gs) = Ok tt ->
  exists st v, key k = Ok (st, v) /\ Dict.get k (snd (run ws gs)) = Some v.
Proof.
  revert gs. induction ws as [|k' ws IH]; intros gs Hin Hok; simpl in *; [tauto|].
  destruct (key k') as [[st' v']|e] eqn:Ek'; simpl in *;
    [|discriminate].
  destruct (String.eqb_spec k k') as [->|Hne].
  - exists st', v'. split; auto. eapply binding_kept; eauto. apply get_set_same.
  - destruct Hin as [->|Hin]; [congruence|]. now apply IH.
Qed.
End ExtractionFacts.

(** C9.  Extraction is deterministic and idempotent.  The value bound to a
    write key is [extract_key] of the output, the execution result and the
    key alone: the outcome of the loop over the write keys and the value
    each key ends up with do not depend on the store the loop starts from;
    and running the loop again on the store it produced gives that very
    store back, with the same outcome. *)
Theorem extraction_deterministic_idempotent
        (json : string -> option (list pyval)) (agent_type step_id : string)
        (output : pyval) (execution_result : option dict)
        (ws : list string) (gs : dict) :
  let run := extract_writes json agent_type step_id output execution_result ws in
  run (snd (run gs)) = run gs /\
  (forall gs', fst (run gs') = fst (run gs)) /\
  (forall k, In k ws -> fst (run gs) = Ok tt ->
     exists st v,
       extract_key json agent_type step_id output execution_result k = Ok (st, v) /\
       forall gs', Dict.get k (snd (run gs')) = Some v).
Proof.
  intros run. split; [|split].
  - apply injective_projections.
    + apply outcome_independent.
    + apply settled_fixed, run_settles.
  - intros gs'. apply outcome_independent.
  - intros k Hin Hok.
    destruct (bound_after_run json agent_type step_id output execution_result
                ws gs k Hin Hok) as (st & v & Hk & Hg).
    exists st, v. split; auto. intros gs'.
    assert (Hok' : fst (run gs') = Ok tt).
    { unfold run. now rewrite (outcome_independent _ _ _ _ _ ws gs' gs). }
    destruct (bound_after_run json agent_type step_id output execution_result
                ws gs' k Hin Hok') as (st' & v' & Hk' & Hg').
    rewrite Hk in Hk'. inversion Hk'. subst. exact Hg'.
Qed.

(** ** C5: scenario B *)

(** C5, as stated, fails.  Node C writes z and the worker output is the
    dict with the one field [execution_result] holding
    [{status: "success", result: {z: 42}}].  That output carries no code
    to execute, so [mark_done] has no execution result and strategy 1 is
    skipped; strategy 3 finds the field [execution_result], does not find
    z in it and gives up the deep search; the last-resort block binds z
    to the first truthy value of the output, the whole wrapper, not 42. *)
Lemma scenario_B_literal_output_binds_wrapper :
  extract_key (fun _ => None) "CoderAgent" "C" Examples.scenario_B_output None "z"
    = Ok (FallbackOutput, PDict Examples.scenario_B_result) /\
  (let '(r, g', _) := mark_done Examples.unavailable "C" Examples.scenario_B_output
                        (Examples.built Examples.scenario_B_plan) tt in
   r = Ok tt /\
   Dict.get "z" (globals_schema g') = Some (PDict Examples.scenario_B_result)) /\
  PDict Examples.scenario_B_result <> PInt 42.
Proof.
  split; [reflexivity|]. split; [vm_compute; auto|]. discriminate.
Qed.

(** C5, amended.  When the step ran code and the execution result has
    status "success" and a result mapping with z = 42, extraction binds
    z = 42 in the variable store by strategy 1, the direct match in the
    execution result, whatever the output is, and no later strategy is
    consulted. *)
Theorem scenario_B_execution_result
        (json : string -> option (list pyval)) (agent_type step_id : string)
        (output : pyval) (er rd : dict) (gs : dict) :
  Dict.get "status" er = Some (PStr "success") ->
  Dict.get "result" er = Some (PDict rd) ->
  Dict.get "z" rd = Some (PInt 42) ->
  extract_key json agent_type step_id output (Some er) "z" = Ok (ExecDirect, PInt 42) /\
  extract_writes json agent_type step_id output (Some er) ["z"] gs
    = (Ok tt, Dict.set "z" (PInt 42) gs) /\
  Dict.get "z" (Dict.set "z" (PInt 42) gs) = Some (PInt 42).
Proof.
  intros Hst Hres Hz.
  assert (Hk : extract_key json agent_type step_id output (Some er) "z"
               = Ok (ExecDirect, PInt 42)).
  { unfold extract_key, try_execution.
    destruct er as [|kv er']; [discriminate|].
    unfold dget. rewrite Hst. simpl is_str. cbv iota.
    unfold extract_from_execution. rewrite Hres.
    destruct rd as [|kv' rd']; [discriminate|].
    rewrite Hz. reflexivity. }
  split; [exact Hk|]. split.
  - simpl. now rewrite Hk.
  - apply get_set_same.
Qed.

Lemma scenario_B_execution_result_witness :
  extract_key (fun _ => None) "CoderAgent" "C" Examples.coded_output
    (Some Examples.scenario_B_result) "z" = Ok (ExecDirect, PInt 42) /\
  extract_writes (fun _ => None) "CoderAgent" "C" Examples.coded_output
    (Some Examples.scenario_B_result) ["z"] []
    = (Ok tt, Dict.set "z" (PInt 42) []) /\
  Dict.get "z" (Dict.set "z" (PInt 42) []) = Some (PInt 42).
Proof.
  apply (scenario_B_execution_result (fun _ => None) "CoderAgent" "C"
           Examples.coded_output Examples.scenario_B_result [("z", PInt 42)] []);
    reflexivity.
Defined.

(** ** What a computation does to the statuses *)

Lemma only_changes_refl S g : only_changes S g g.
Proof. repeat split; auto. Qed.

Lemma only_changes_trans S g1 g2 g3 :
  only_changes S g1 g2 -> only_changes S g2 g3 -> only_changes S g1 g3.
Proof.
  intros (P1 & K1 & S1) (P2 & K2 & S2).
  split; [congruence|]. split; [congruence|].
  intros n Hn. rewrite S2, S1; auto.
Qed.

Lemma only_changes_more S S' g g' :
  incl S S' -> only_changes S g g' -> only_changes S' g g'.
Proof.
  intros Hincl (P & K & St). split; [exact P|]. split; [exact K|].
  intros n Hn. apply St. intros Hin. apply Hn, Hincl, Hin.
Qed.

Lemma only_changes_globals S g gs : only_changes S g (with_globals gs g).
Proof. repeat split; auto. Qed.

Section Touches.
Context {W : Type}.

Lemma touches_ret {A} S (a : A) : touches (W:=W) S (ret a).
Proof. intros g w. apply only_changes_refl. Qed.

Lemma touches_raise {A} S e : touches (W:=W) (A:=A) S (raise e).
Proof. intros g w. apply only_changes_refl. Qed.

Lemma touches_lift {A} S (r : outcome A) : touches (W:=W) S (lift_outcome r).
Proof. intros g w. apply only_changes_refl. Qed.

Lemma touches_get_graph S : touches (W:=W) S get_graph.
Proof. intros g w. apply only_changes_refl. Qed.

Lemma touches_call {A} S (f : W -> outcome A * W) : touches S (call f).
Proof. intros g w. unfold call, graph_of. destruct (f w). apply only_changes_refl. Qed.

Lemma touches_globals S (f : dict -> dict) :
  touches (W:=W) S (modify_graph (fun g => with_globals (f (globals_schema g)) g)).
Proof. intros g w. apply only_changes_globals. Qed.

Lemma touches_bind {A B} S (c : M W A) (k : A -> M W B) :
  touches S c -> (forall a, touches S (k a)) -> touches S (bind c k).
Proof.
  intros Hc Hk g w. specialize (Hc g w). unfold bind, graph_of in *.
  destruct (c g w) as [[[a|e] g1] w1]; simpl in *; auto.
  eapply only_changes_trans; [exact Hc|]. apply (Hk a g1 w1).
Qed.

Lemma touches_try {A} S (c : M W A) (h : exn -> M W A) :
  touches S c -> (forall e, touches S (h e)) -> touches S (try_except c h).
Proof.
  intros Hc Hh g w. specialize (Hc g w). unfold try_except, graph_of in *.
  destruct (c g w) as [[[a|e] g1] w1]; simpl in *; auto.
  eapply only_changes_trans; [exact Hc|]. apply (Hh e g1 w1).
Qed.

Lemma touches_more {A} S S' (c : M W A) : incl S S' -> touches S c -> touches S' c.
Proof. intros Hi Hc g w. eapply only_changes_more; eauto. Qed.

Lemma touches_get_step_data S step : touches (W:=W) S (get_step_data step).
Proof.
  unfold get_step_data. apply touches_bind; [apply touches_get_graph|].
  intros g. destruct (Dict.get step (nodes g)); [apply touches_ret | apply touches_raise].
Qed.

Lemma set_node_only_changes g step nd f :
  Dict.get step (nodes g) = Some nd ->
  only_changes [step] g (with_nodes (Dict.set step (f nd) (nodes g)) g) /\
  (status (f nd) = status nd ->
   only_changes [] g (with_nodes (Dict.set step (f nd) (nodes g)) g)).
Proof.
  intros Hget.
  assert (Hk : Dict.keys (Dict.set step (f nd) (nodes g)) = Dict.keys (nodes g)).
  { apply keys_set_known. unfold Dict.mem. now rewrite Hget. }
  split; [|intros Hst]; (split; [reflexivity|]); (split; [exact Hk|]);
    intros n Hn; unfold node_attrs; simpl.
  - rewrite get_set_other; auto. intros ->. apply Hn. now left.
  - destruct (String.eqb_spec n step) as [->|Hne].
    + now rewrite get_set_same, Hget.
    + now rewrite get_set_other.
Qed.

Lemma touches_update_step_data step f : touches (W:=W) [step] (update_step_data step f).
Proof.
  intros g w. unfold update_step_data, get_step_data, bind, get_graph, graph_of.
  destruct (Dict.get step (nodes g)) as [nd|] eqn:E; simpl.
  - now apply set_node_only_changes.
  - apply only_changes_refl.
Qed.

Lemma touches_update_neutral S step f :
  (forall nd, status (f nd) = status nd) ->
  touches (W:=W) S (update_step_data step f).
Proof.
  intros Hf g w. apply only_changes_more with (S := []); [intros x []|].
  unfold update_step_data, get_step_data, bind, get_graph, graph_of.
  destruct (Dict.get step (nodes g)) as [nd|] eqn:E; simpl.
  - apply set_node_only_changes; auto.
  - apply only_changes_refl.
Qed.

Lemma touches_set_step_output S step out : touches (W:=W) S (set_step_output step out).
Proof.
  intros g w. apply only_changes_more with (S := []); [intros x []|].
  unfold set_step_output, modify_graph, graph_of. simpl.
  destruct (Dict.get step (nodes g)) as [nd|] eqn:E.
  - apply (set_node_only_changes g step nd (set_output out)); auto.
  - apply only_changes_refl.
Qed.
End Touches.

Ltac touch :=
  repeat first
    [ apply touches_ret | apply touches_raise | apply touches_lift
    | apply touches_get_graph | apply touches_call | apply touches_get_step_data
    | apply touches_set_step_output | apply touches_globals
    | apply touches_bind | apply touches_try
    | match goal with
      | |- forall _, _ => intro
      | |- touches _ (match ?x with _ => _ end) => destruct x
      | |- touches _ (if ?x then _ else _) => destruct x
      end ].

Section TouchesEngine.
Context {W : Type}.
Variable C : collaborators W.

Lemma touches_put_globals S gs : touches (W:=W) S (modify_graph (with_globals gs)).
Proof. intros g w. apply only_changes_globals. Qed.

Lemma touches_selected_option S l choice : touches (W:=W) S (selected_option l choice).
Proof. unfold selected_option. touch. Qed.

Lemma touches_handle_user_interaction S od :
  touches S (_handle_user_interaction_rich C od).
Proof.
  unfold _handle_user_interaction_rich.
  destruct (truthy _); [|touch].
  destruct (match Dict.get "options" od with Some o => o | None => PList [] end);
    touch; apply touches_selected_option.
Qed.

Lemma touches_capture_user_input S od : touches S (capture_user_input C od).
Proof.
  unfold capture_user_input.
  apply touches_bind; [apply touches_handle_user_interaction|]. intros u.
  apply touches_bind; [|touch].
  destruct (match Dict.get "writes_to" od with
            | Some k => k | None => PStr "user_response" end); touch.
Qed.

Lemma touches_interaction_phase S agent_type output :
  touches S (interaction_phase C agent_type output).
Proof.
  unfold interaction_phase. destruct (_is_clarification_request _ _); [|touch].
  destruct output; try apply touches_ret.
  apply touches_try; [apply touches_capture_user_input | intros e; apply touches_ret].
Qed.

Lemma touches_run_variants S variants od rs : touches S (run_variants C variants od rs).
Proof.
  induction variants as [|[code_key code] rest IH]; simpl; [touch|].
  apply touches_bind; [touch|]. intros g.
  apply touches_bind; [touch|]. intros [r|]; [touch | exact IH].
Qed.

Lemma touches_auto_execute_code S step od : touches S (_auto_execute_code C step od).
Proof.
  unfold _auto_execute_code. apply touches_bind; [touch|]. intros [|kv rest]; [touch|].
  apply touches_bind; [touch|]. intros nd. apply touches_run_variants.
Qed.

Lemma touches_execution_phase S step output : touches S (execution_phase C step output).
Proof.
  unfold execution_phase. destruct output; try apply touches_ret.
  destruct (_has_executable_code _); [|apply touches_ret].
  apply touches_try; [|intros e; apply touches_ret].
  apply touches_bind; [apply touches_auto_execute_code|]. intros er.
  destruct (_merge_execution_results _ _ _); apply touches_ret.
Qed.

Lemma touches_complete_step agent_type step ws output er :
  touches [step] (complete_step C agent_type step ws output er).
Proof.
  unfold complete_step. apply touches_bind; [touch|]. intros g.
  apply touches_bind; [apply touches_put_globals|]. intros _.
  apply touches_bind; [touch|]. intros _. apply touches_update_step_data.
Qed.

Lemma touches_mark_done step output : touches [step] (mark_done C step output).
Proof.
  unfold mark_done. apply touches_bind; [touch|]. intros nd.
  apply touches_bind; [apply touches_interaction_phase|]. intros o.
  apply touches_bind; [apply touches_execution_phase|]. intros ex.
  apply touches_bind; [apply touches_complete_step|]. intros _.
  unfold total_tokens. destruct (can_add _ _); [apply touches_ret | apply touches_raise].
Qed.

Lemma touches_mark_failed step err : touches (W:=W) [step] (mark_failed step err).
Proof.
  unfold mark_failed. apply touches_bind; [apply touches_update_step_data|]. intros _.
  apply touches_bind; [apply touches_get_step_data|]. intros nd.
  destruct (start_time nd); [apply touches_ret | apply touches_raise].
Qed.

Lemma touches_mark_running step : touches (W:=W) [step] (mark_running step).
Proof. apply touches_update_step_data. Qed.

Lemma touches_build_agent_input S step agent_type nd inputs i p c :
  touches (W:=W) S (build_agent_input step agent_type nd inputs i p c).
Proof. unfold build_agent_input. touch. Qed.

Lemma touches_iterations_loop S remaining step agent_type nd inputs out i c :
  touches S (iterations_loop C remaining step agent_type nd inputs out i c).
Proof.
  revert out i c. induction remaining as [|remaining IH]; intros out i c; simpl; [touch|].
  apply touches_bind; [apply touches_build_agent_input|]. intros ai.
  apply touches_bind; [touch|]. intros [out'|err]; [|touch].
  apply touches_bind; [touch|]. intros _.
  destruct out' as [| | | | | |[|kv od]]; try apply IH.
  destruct (negb _); [touch | apply IH].
Qed.

Lemma touches_execute_step S max step : touches S (_execute_step_bounded C max step).
Proof.
  unfold _execute_step_bounded. apply touches_bind; [touch|]. intros nd.
  destruct (agent nd); [|touch].
  apply touches_bind; [touch|]. intros g.
  apply touches_bind; [touch|]. intros inputs.
  apply touches_bind; [apply touches_iterations_loop|]. intros out.
  apply touches_bind; [|touch]. now apply touches_update_neutral.
Qed.

Lemma touches_gather S execute ready :
  (forall step, touches S (execute step)) -> touches (W:=W) S (gather execute ready).
Proof.
  intros He. induction ready as [|step rest IH]; simpl; [touch|].
  apply touches_bind; [|intros r; apply touches_bind; [exact IH | touch]].
  apply touches_try; [|touch]. apply touches_bind; [apply He | touch].
Qed.

Lemma touches_mark_all_running ready : touches (W:=W) ready (mark_all_running ready).
Proof.
  induction ready as [|step rest IH]; simpl; [touch|].
  apply touches_bind.
  - eapply touches_more; [|apply touches_mark_running]. intros x [->|[]]. now left.
  - intros _. eapply touches_more; [|exact IH]. intros x Hx. now right.
Qed.

Lemma touches_process_results results :
  touches (map fst results) (process_results C results).
Proof.
  induction results as [|[step r] rest IH]; simpl; [touch|].
  apply touches_bind.
  - eapply touches_more with (S := [step]); [intros x [->|[]]; now left|].
    destruct r as [r|e]; [|apply touches_mark_failed].
    destruct (success r); [apply touches_mark_done|].
    destruct (result_error r); [apply touches_mark_failed | touch].
  - intros _. eapply touches_more; [|exact IH]. intros x Hx. now right.
Qed.

Lemma gather_steps execute ready g w rs g' w' :
  gather (W:=W) execute ready g w = (Ok rs, g', w') -> map fst rs = ready.
Proof.
  revert g w rs g' w'. induction ready as [|step rest IH]; intros g w rs g' w' H;
    simpl in H.
  - inversion H. reflexivity.
  - unfold bind, try_except, ret in H.
    destruct (execute step g w) as [[[x|e] g1] w1];
      destruct (gather execute rest g1 w1) as [[[rs'|e'] g2] w2] eqn:Eg;
      inversion H; subst; simpl; f_equal; eapply IH; eauto.
Qed.

(** A round of the driver changes the status of no node but the ready
    ones, whatever the collaborators do and also when it raises. *)
Lemma dag_round_only_changes max g w :
  only_changes (get_ready_steps g) g
    (graph_of (dag_round C (_execute_step_bounded C max) g w)).
Proof.
  unfold dag_round, bind, get_graph, graph_of. cbn [fst snd].
  destruct (get_ready_steps g) as [|s ready] eqn:Er.
  - unfold lift_outcome, ret. destruct (has_failures g); apply only_changes_refl.
  - pose proof (touches_mark_all_running (s :: ready) g w) as H1.
    unfold graph_of in H1.
    destruct (mark_all_running (s :: ready) g w) as [[[[]|e] g1] w1];
      cbn [fst snd] in *; [|exact H1].
    pose proof (touches_gather (s :: ready) _ (s :: ready)
                  (fun step => touches_execute_step (s :: ready) max step) g1 w1) as H2.
    unfold graph_of in H2.
    destruct (gather (_execute_step_bounded C max) (s :: ready) g1 w1)
      as [[[rs|e] g2] w2] eqn:Eg; cbn [fst snd] in *;
      [|eapply only_changes_trans; eauto].
    pose proof (touches_process_results rs g2 w2) as H3.
    rewrite (gather_steps _ _ _ _ _ _ _ Eg) in H3. unfold graph_of in H3.
    destruct (process_results C rs g2 w2) as [[[[]|e] g3] w3]; cbn [fst snd] in *.
    + unfold ret. cbn [fst snd].
      eapply only_changes_trans; [|exact H3]. eapply only_changes_trans; eauto.
    + eapply only_changes_trans; [|exact H3]. eapply only_changes_trans; eauto.
Qed.
End TouchesEngine.

(** ** C4: a failed node and its dependents *)

Lemma status_node_status g g' n :
  status (node_attrs g' n) = status (node_attrs g n) -> node_status g' n = node_status g n.
Proof. unfold node_status, get_status. now intros ->. Qed.

Lemma completed_not_ready g n : node_status g n = "completed" -> ~ In n (get_ready_steps g).
Proof. rewrite ready_iff. unfold ready_spec. tauto. Qed.

Lemma failed_not_ready g n : node_status g n = "failed" -> ~ In n (get_ready_steps g).
Proof. rewrite ready_iff. unfold ready_spec. tauto. Qed.

Lemma round_keeps_failed g g' n :
  only_changes (get_ready_steps g) g g' ->
  node_status g n = "failed" -> node_status g' n = "failed".
Proof.
  intros (_ & _ & St) Hf. rewrite <- Hf. apply status_node_status, St.
  now apply failed_not_ready.
Qed.

Lemma round_keeps_completed g g' n :
  only_changes (get_ready_steps g) g g' ->
  node_status g n = "completed" -> node_status g' n = "completed".
Proof.
  intros (_ & _ & St) Hf. rewrite <- Hf. apply status_node_status, St.
  now apply completed_not_ready.
Qed.

Lemma round_keeps_order g g' :
  only_changes (get_ready_steps g) g g' -> in_order g -> in_order g'.
Proof.
  intros Hoc Hord d Hroot Hst p Hp.
  pose proof Hoc as (Hpred & _ & St).
  unfold predecessors in Hp. rewrite Hpred in Hp. fold (predecessors g d) in Hp.
  apply (round_keeps_completed g g' p Hoc).
  destruct (in_dec string_dec d (get_ready_steps g)) as [Hin|Hout].
  - apply ready_iff in Hin. destruct Hin as (_ & _ & _ & _ & _ & Hall).
    now apply Hall.
  - apply Hord with (d := d); auto.
    rewrite <- (status_node_status g g' d (St d Hout)). exact Hst.
Qed.

Lemma all_done_from_terminal g ns :
  all_done_from g ns = Ok true ->
  forall n, In n ns -> In (node_status g n) ["completed"; "failed"].
Proof.
  induction ns as [|m ns IH]; [intros _ n []|].
  cbn [all_done_from]. unfold status_item.
  destruct (status (node_attrs g m)) as [s|] eqn:Es; [|intros H; discriminate H].
  destruct (mem_str s ["completed"; "failed"]) eqn:Em; [|intros H; discriminate H].
  intros H n [<-|Hin].
  - unfold node_status, get_status. rewrite Es. now apply mem_str_In.
  - now apply IH.
Qed.

Lemma round_kept g0 g g' :
  only_changes (get_ready_steps g) g g' -> kept_since g0 g -> kept_since g0 g'.
Proof.
  intros Hoc (Hord & Hp & Hk & Hf). pose proof Hoc as (Hp' & Hk' & _).
  split; [eapply round_keeps_order; eauto|].
  split; [congruence|]. split; [congruence|].
  intros n Hn. eapply round_keeps_failed; eauto.
Qed.

Lemma dag_loop_kept {W} (C : collaborators W) max g0 remaining g w :
  kept_since g0 g ->
  kept_since g0 (graph_of (dag_loop C (_execute_step_bounded C max) remaining g w)).
Proof.
  revert g w. induction remaining as [|remaining IH]; intros g w Hk; simpl; [exact Hk|].
  unfold bind, get_graph, lift_outcome, graph_of. cbn [fst snd].
  destruct (all_done g) as [[|]|e]; cbn [fst snd]; try exact Hk.
  pose proof (dag_round_only_changes C max g w) as Hr. unfold graph_of in Hr.
  destruct (dag_round C (_execute_step_bounded C max) g w) as [[[[|]|e] g1] w1];
    cbn [fst snd] in *.
  - apply IH. eapply round_kept; eauto.
  - eapply round_kept; eauto.
  - eapply round_kept; eauto.
Qed.

Lemma blocked_by_failed g0 g p d :
  kept_since g0 g ->
  node_status g0 p = "failed" -> In p (predecessors g0 d) ->
  In d (Dict.keys (nodes g0)) -> d <> ROOT ->
  ~ In d (get_ready_steps g) /\ node_status g d = "pending" /\ all_done g <> Ok true.
Proof.
  intros (Hord & Hp & Hk & Hf) Hfail Hin Hd Hroot.
  assert (Hin' : In p (predecessors g d)).
  { unfold predecessors. rewrite Hp. exact Hin. }
  assert (Hpf : node_status g p = "failed") by auto.
  assert (Hpend : node_status g d = "pending").
  { destruct (string_dec (node_status g d) "pending") as [E|E]; auto.
    specialize (Hord d Hroot E p Hin'). congruence. }
  split; [|split; [exact Hpend|]].
  - rewrite ready_iff. intros (_ & _ & _ & _ & _ & Hall).
    specialize (Hall p Hin'). congruence.
  - intros Hdone. unfold all_done in Hdone.
    apply all_done_from_terminal with (n := d) in Hdone; [|congruence].
    rewrite Hpend in Hdone. simpl in Hdone. intuition discriminate.
Qed.

(** C4, as stated, fails in its last part.  A run whose only step E
    fails (the worker raises) ends with E failed and with [all_done]
    true: the driver leaves its loop through [all_done] and prints "All
    tasks completed!". *)
Lemma failed_leaf_run_is_all_done :
  let '(r, g', _) := _execute_dag Examples.unavailable
                       (Examples.built Examples.single_plan) tt in
  r = Ok true /\ node_status g' "E" = "failed" /\ all_done g' = Ok true.
Proof. vm_compute. auto. Qed.

(** C4, amended.  In a run of the driver, from a graph whose steps were
    started in dependency order (any graph the driver reaches from a fresh
    plan): a node that is failed stays failed after any number of rounds;
    a dependent of a failed node is in no later ready set and stays
    pending; and as long as a failed node has such a dependent,
    [all_done] is never true, so the run ends without "All tasks
    completed!".  (A failed node with no dependent does not keep
    [all_done] from becoming true.) *)
Theorem failed_node_blocks_dependents
        {W : Type} (C : collaborators W) (remaining : nat)
        (g : DiGraph) (w : W) (p d : string) :
  in_order g ->
  node_status g p = "failed" ->
  In p (predecessors g d) -> In d (Dict.keys (nodes g)) -> d <> ROOT ->
  let g' := graph_of (dag_loop C (_execute_step C) remaining g w) in
  (forall n, node_status g n = "failed" -> node_status g' n = "failed") /\
  ~ In d (get_ready_steps g') /\
  node_status g' d = "pending" /\
  all_done g' <> Ok true /\
  fst (fst (_execute_dag C g w)) <> Ok true.
Proof.
  intros Hord Hfail Hin Hd Hroot g'.
  assert (H0 : kept_since g g) by (repeat split; auto).
  pose proof (dag_loop_kept C max_iterations_default g remaining g w H0) as Hk.
  fold (_execute_step C) in Hk. fold g' in Hk.
  destruct (blocked_by_failed g g' p d Hk Hfail Hin Hd Hroot) as (H1 & H2 & H3).
  split; [apply Hk|]. split; [exact H1|]. split; [exact H2|]. split; [exact H3|].
  pose proof (dag_loop_kept C max_iterations_default g max_iterations_default g w H0) as Hk'.
  fold (_execute_step C) in Hk'.
  destruct (blocked_by_failed g _ p d Hk' Hfail Hin Hd Hroot) as (_ & _ & H3').
  unfold _execute_dag, bind, get_graph, lift_outcome, graph_of in *.
  destruct (dag_loop C (_execute_step C) max_iterations_default g w)
    as [[[[]|e] g1] w1]; cbn [fst snd] in *; [exact H3' | discriminate].
Qed.

(** ** C7: what construction does with the edges *)

Lemma get_add_node_other n a g m :
  m <> n -> Dict.get m (nodes (add_node n a g)) = Dict.get m (nodes g).
Proof.
  intros Hne. unfold add_node.
  destruct (Dict.get n (nodes g)); simpl; now apply get_set_other.
Qed.

Lemma get_add_node_same n a g :
  Dict.get n (nodes (add_node n a g)) =
  Some (match Dict.get n (nodes g) with
        | Some old => update_attrs old a
        | None => a
        end).
Proof. unfold add_node. destruct (Dict.get n (nodes g)); simpl; apply get_set_same. Qed.

Lemma has_node_add_node n a g m :
  has_node (add_node n a g) m = true <-> m = n \/ has_node g m = true.
Proof.
  unfold has_node, Dict.mem. destruct (String.eqb_spec m n) as [->|Hne].
  - rewrite get_add_node_same. intuition.
  - rewrite get_add_node_other by assumption. intuition congruence.
Qed.

Lemma predecessors_add_node n a g m :
  closed g -> predecessors (add_node n a g) m = predecessors g m.
Proof.
  intros Hc. unfold add_node. destruct (Dict.get n (nodes g)) eqn:E; [reflexivity|].
  unfold predecessors. simpl. destruct (String.eqb_spec m n) as [->|Hne].
  - rewrite get_set_same.
    destruct (Dict.get n (pred g)) as [[|u ps]|] eqn:Ep; auto.
    exfalso. destruct (Hc u n) as [_ H].
    + unfold predecessors. rewrite Ep. now left.
    + unfold has_node, Dict.mem in H. rewrite E in H. discriminate.
  - now rewrite get_set_other.
Qed.

Lemma closed_add_node n a g : closed g -> closed (add_node n a g).
Proof.
  intros Hc u v Hin. rewrite predecessors_add_node in Hin by assumption.
  destruct (Hc u v Hin). rewrite !has_node_add_node. auto.
Qed.

Lemma has_node_ensure n g m :
  has_node (ensure_node n g) m = true <-> m = n \/ has_node g m = true.
Proof.
  unfold ensure_node. destruct (has_node g n) eqn:E.
  - intuition (subst; auto).
  - apply has_node_add_node.
Qed.

Lemma predecessors_ensure n g m :
  closed g -> predecessors (ensure_node n g) m = predecessors g m.
Proof.
  intros Hc. unfold ensure_node. destruct (has_node g n); auto.
  now apply predecessors_add_node.
Qed.

Lemma closed_ensure n g : closed g -> closed (ensure_node n g).
Proof.
  intros Hc. unfold ensure_node. destruct (has_node g n); auto.
  now apply closed_add_node.
Qed.

Lemma get_ensure_old n g m :
  has_node g m = true -> Dict.get m (nodes (ensure_node n g)) = Dict.get m (nodes g).
Proof.
  intros Hm. unfold ensure_node. destruct (has_node g n) eqn:E; auto.
  apply get_add_node_other. intros ->. congruence.
Qed.

Lemma get_ensure_new n g m :
  has_node g m = false -> has_node (ensure_node n g) m = true ->
  Dict.get m (nodes (ensure_node n g)) = Some no_attrs.
Proof.
  intros Hm Hm'. apply has_node_ensure in Hm'. destruct Hm' as [->|Hm']; [|congruence].
  unfold ensure_node. rewrite Hm. rewrite get_add_node_same.
  unfold has_node, Dict.mem in Hm. now destruct (Dict.get n (nodes g)).
Qed.

Lemma nodes_add_edge u v g : nodes (add_edge u v g) = nodes (ensure_node v (ensure_node u g)).
Proof. unfold add_edge. cbv zeta. now destruct (mem_str _ _). Qed.

Lemma has_node_add_edge u v g m :
  has_node (add_edge u v g) m = true <-> m = u \/ m = v \/ has_node g m = true.
Proof.
  unfold has_node at 1. rewrite nodes_add_edge.
  fold (has_node (ensure_node v (ensure_node u g)) m).
  rewrite !has_node_ensure. tauto.
Qed.

Lemma predecessors_add_edge u v g x m :
  closed g ->
  In x (predecessors (add_edge u v g) m) <->
  (x = u /\ m = v) \/ In x (predecessors g m).
Proof.
  intros Hc.
  assert (Hp : forall y, predecessors (ensure_node v (ensure_node u g)) y = predecessors g y).
  { intros y. rewrite !predecessors_ensure; auto using closed_ensure. }
  unfold add_edge. cbv zeta.
  destruct (mem_str u (predecessors (ensure_node v (ensure_node u g)) v)) eqn:Em.
  - rewrite Hp. apply mem_str_In in Em. rewrite Hp in Em.
    intuition (subst; auto).
  - unfold predecessors at 1. simpl.
    destruct (String.eqb_spec m v) as [->|Hne].
    + rewrite get_set_same, in_app_iff, Hp. simpl. intuition.
    + rewrite get_set_other by assumption.
      fold (predecessors (ensure_node v (ensure_node u g)) m). rewrite Hp.
      intuition.
Qed.

Lemma closed_add_edge u v g : closed g -> closed (add_edge u v g).
Proof.
  intros Hc x m Hin. apply predecessors_add_edge in Hin; auto.
  rewrite !has_node_add_edge. destruct Hin as [[-> ->]|Hin]; auto.
  destruct (Hc x m Hin). auto.
Qed.

Lemma node_status_add_plan_node i pn g d :
  d <> ROOT -> node_status g d = "pending" ->
  node_status (add_node i (plan_attrs pn) g) d = "pending".
Proof.
  intros Hroot Hd. unfold node_status, node_attrs in *.
  destruct (String.eqb_spec d i) as [->|Hne].
  - rewrite get_add_node_same. now destruct (Dict.get i (nodes g)).
  - now rewrite get_add_node_other.
Qed.

Lemma node_status_ensure n g d :
  node_status g d = "pending" -> node_status (ensure_node n g) d = "pending".
Proof.
  intros Hd. unfold node_status, node_attrs in *.
  destruct (has_node g d) eqn:E.
  - now rewrite get_ensure_old.
  - destruct (has_node (ensure_node n g) d) eqn:E'.
    + now rewrite get_ensure_new.
    + unfold has_node, Dict.mem in E'.
      now destruct (Dict.get d (nodes (ensure_node n g))).
Qed.

Lemma all_pending_add_edge u v g : all_pending g -> all_pending (add_edge u v g).
Proof.
  intros Hp d Hd. unfold node_status, node_attrs. rewrite nodes_add_edge.
  apply node_status_ensure, node_status_ensure, Hp, Hd.
Qed.

Lemma bare_outside_add_edge ids u v g :
  bare_outside ids g -> bare_outside ids (add_edge u v g).
Proof.
  assert (He : forall n g0, bare_outside ids g0 -> bare_outside ids (ensure_node n g0)).
  { intros n g0 Hb m Hm Hout. destruct (has_node g0 m) eqn:E.
    - rewrite get_ensure_old; auto.
    - now apply get_ensure_new. }
  intros Hb m Hm Hout. rewrite nodes_add_edge.
  apply He; auto. unfold has_node in *. now rewrite nodes_add_edge in Hm.
Qed.

Lemma add_plan_nodes_inv (I : DiGraph -> Prop) pns :
  (forall pn i g, In pn pns -> pn_id pn = Some i -> I g ->
                  I (add_node i (plan_attrs pn) g)) ->
  forall g g', I g -> add_plan_nodes pns g = Ok g' -> I g'.
Proof.
  induction pns as [|pn pns IH]; intros Hstep g g' Hg H; simpl in H.
  - inversion H. now subst.
  - destruct (pn_id pn) as [i|] eqn:Ei; [|discriminate].
    destruct (carries_reserved_key pn) eqn:Er; [discriminate H|].
    eapply IH; [| |exact H].
    + intros pn' i' g0 Hin. apply Hstep. now right.
    + apply Hstep; auto. now left.
Qed.

Lemma add_plan_edges_inv (I : DiGraph -> Prop) es :
  (forall u v g, In (edge u v) es -> I g -> I (add_edge u v g)) ->
  forall g g', I g -> add_plan_edges es g = Ok g' -> I g'.
Proof.
  induction es as [|[[u|] [v|]] es IH]; intros Hstep g g' Hg H; simpl in H;
    try discriminate.
  - inversion H. now subst.
  - eapply IH; [| |exact H].
    + intros u' v' g0 Hin. apply Hstep. now right.
    + apply Hstep; auto. now left.
Qed.

Lemma add_plan_nodes_ok pns g :
  (forall pn, In pn pns -> pn_id pn <> None) ->
  (forall pn, In pn pns -> carries_reserved_key pn = false) ->
  exists g', add_plan_nodes pns g = Ok g'.
Proof.
  revert g. induction pns as [|pn pns IH]; intros g Hk Hr; simpl; eauto.
  destruct (pn_id pn) eqn:E.
  - rewrite (Hr pn (or_introl eq_refl)).
    apply IH; intros pn' Hin; [apply Hk | apply Hr]; now right.
  - exfalso. apply (Hk pn); auto. now left.
Qed.

Lemma add_plan_nodes_reserved pns g :
  (forall pn, In pn pns -> pn_id pn <> None) ->
  (exists pn, In pn pns /\ carries_reserved_key pn = true) ->
  add_plan_nodes pns g =
  Raise (OtherError "TypeError: got multiple values for keyword argument").
Proof.
  revert g. induction pns as [|pn pns IH]; intros g Hk [pn0 [Hin Hr]]; [destruct Hin|].
  simpl. destruct (pn_id pn) eqn:E; [|exfalso; apply (Hk pn); auto; now left].
  destruct (carries_reserved_key pn) eqn:Er; [reflexivity|].
  apply IH.
  - intros pn' Hin'. apply Hk. now right.
  - exists pn0. split; [|exact Hr]. destruct Hin as [->|Hin]; [congruence|exact Hin].
Qed.

Lemma add_plan_edges_ok es g :
  (forall e, In e es -> source e <> None /\ target e <> None) ->
  exists g', add_plan_edges es g = Ok g'.
Proof.
  revert g. induction es as [|e es IH]; intros g Hk; simpl; eauto.
  destruct (Hk e (or_introl eq_refl)) as [Hs Ht].
  destruct (source e); [|congruence]. destruct (target e); [|congruence].
  apply IH. intros e' Hin. apply Hk. now right.
Qed.

Lemma add_plan_edges_records es g g' :
  closed g -> add_plan_edges es g = Ok g' ->
  forall u v, In (edge u v) es \/ In u (predecessors g v) -> In u (predecessors g' v).
Proof.
  revert g. induction es as [|[[a|] [b|]] es IH]; intros g Hc H u v Hin; simpl in H;
    try discriminate.
  - inversion H. subst. destruct Hin as [[]|Hin]. exact Hin.
  - apply (IH _ (closed_add_edge a b g Hc) H).
    destruct Hin as [[Heq|Hin]|Hin]; auto; right; apply predecessors_add_edge; auto.
    inversion Heq. auto.
Qed.

Lemma root_graph_facts :
  let g := add_node ROOT root_attrs empty_graph in
  closed g /\ all_pending g /\ forall n, has_node g n = true -> n = ROOT.
Proof.
  cbv zeta. split; [|split].
  - intros u v Hin. unfold predecessors in Hin. cbn -[String.eqb] in Hin.
    destruct (String.eqb ROOT v); cbn in Hin; contradiction.
  - intros d Hd. unfold node_status, node_attrs. cbn -[String.eqb].
    destruct (String.eqb_spec ROOT d) as [E|E]; auto. now elim Hd.
  - intros n Hn. unfold has_node, Dict.mem in Hn. cbn -[String.eqb] in Hn.
    destruct (String.eqb_spec ROOT n) as [E|E]; [now symmetry | discriminate].
Qed.

Lemma in_plan_ids p pn i : In pn (plan_nodes p) -> pn_id pn = Some i -> In i (plan_ids p).
Proof.
  intros Hin Hi. unfold plan_ids. apply in_flat_map. exists pn. split; auto.
  rewrite Hi. now left.
Qed.

(** What [__init__] guarantees of the graph it returns. *)
Lemma init_facts p g :
  init p = Ok g ->
  closed g /\ all_pending g /\ bare_outside (ROOT :: plan_ids p) g /\
  forall u v, In (edge u v) (plan_edges p) ->
              has_node g u = true /\ has_node g v = true /\ In u (predecessors g v).
Proof.
  unfold init. intros H.
  destruct (add_plan_nodes (plan_nodes p) (add_node ROOT root_attrs empty_graph))
    as [g1|e] eqn:E1; [|discriminate].
  destruct root_graph_facts as (Hc0 & Hp0 & Hk0).
  assert (H1 : closed g1 /\ all_pending g1 /\
               forall n, has_node g1 n = true -> In n (ROOT :: plan_ids p)).
  { refine (add_plan_nodes_inv
              (fun g => closed g /\ all_pending g /\
                        forall n, has_node g n = true -> In n (ROOT :: plan_ids p))
              (plan_nodes p) _ _ g1 _ E1).
    - intros pn i g0 Hin Hi (Hc & Hp & Hk). split; [|split].
      + now apply closed_add_node.
      + intros d Hd. apply node_status_add_plan_node; auto.
      + intros n Hn. apply has_node_add_node in Hn. destruct Hn as [->|Hn]; auto.
        right. eapply in_plan_ids; eauto.
    - split; [exact Hc0|]. split; [exact Hp0|].
      intros n Hn. left. symmetry. now apply Hk0. }
  destruct H1 as (Hc1 & Hp1 & Hk1).
  assert (H2 : closed g /\ all_pending g /\ bare_outside (ROOT :: plan_ids p) g).
  { refine (add_plan_edges_inv
              (fun g => closed g /\ all_pending g /\ bare_outside (ROOT :: plan_ids p) g)
              (plan_edges p) _ g1 g _ H).
    - intros u v g0 _ (Hc & Hp & Hb). split; [|split].
      + now apply closed_add_edge.
      + now apply all_pending_add_edge.
      + now apply bare_outside_add_edge.
    - split; [exact Hc1|]. split; [exact Hp1|].
      intros n Hn Hout. elim Hout. now apply Hk1. }
  destruct H2 as (Hc & Hp & Hb). repeat (split; [assumption|]).
  intros u v Hin.
  assert (Hpr : In u (predecessors g v)).
  { apply (add_plan_edges_records (plan_edges p) g1 g Hc1 H u v). now left. }
  destruct (Hc u v Hpr). auto.
Qed.

Lemma all_pending_in_order g : all_pending g -> in_order g.
Proof. intros Hp d Hd Hst. elim Hst. now apply Hp. Qed.

(** The lookups of the code never miss: in a graph built by [__init__]
    every predecessor is a node of the node table. *)
Lemma init_endpoints_are_nodes p g u v :
  init p = Ok g -> In u (predecessors g v) -> has_node g u = true /\ has_node g v = true.
Proof. intros H. destruct (init_facts p g H) as (Hc & _). apply Hc. Qed.

(** C7, as stated, fails.  A plan with the cycle A -> B -> A and a plan
    with an edge to the undeclared id X are both constructed without an
    error.  In the first no node is ever ready; in the second X is a node
    without attributes and the run starts (A is ready). *)
Lemma malformed_plans_are_constructed :
  (malformed Examples.cyclic_plan /\
   exists g, init Examples.cyclic_plan = Ok g /\ get_ready_steps g = []) /\
  (malformed Examples.dangling_plan /\
   exists g, init Examples.dangling_plan = Ok g /\
             Dict.get "X" (nodes g) = Some no_attrs /\ get_ready_steps g = ["A"]).
Proof.
  split; split.
  - left. exists "A". apply path_step with (v := "B"); [simpl; auto|].
    apply path_edge. simpl. auto.
  - eexists. split; [reflexivity|]. reflexivity.
  - right. exists "A", "X". split; [simpl; auto|].
    right. simpl. intros [H|[H|[]]]; discriminate.
  - eexists. split; [reflexivity|]. split; reflexivity.
Qed.

(** C7, amended.  Construction does not look at the edge set for cycles
    or unknown ids.  Take a plan in which every node has an id and every
    edge a source and a target.  When no node carries one of the names
    that [__init__] passes to [add_node] itself (status, output, error,
    cost, start_time, end_time, execution_time) or that [add_node] uses
    for its own parameters, construction succeeds whatever the edges are:
    every edge is recorded with both its ends in the node table, an end
    that is neither the root nor a node of the plan being added with no
    attributes, and every node but the root starts pending.  When some
    node carries one of these names, construction raises TypeError.  A
    cycle or an unknown id shows only during the run. *)
Theorem init_accepts_any_edges (p : plan) :
  keyed p ->
  (no_reserved_key p ->
   exists g, init p = Ok g /\
     (forall u v, In (edge u v) (plan_edges p) ->
        has_node g u = true /\ has_node g v = true /\ In u (predecessors g v)) /\
     (forall n, has_node g n = true -> ~ In n (ROOT :: plan_ids p) ->
        Dict.get n (nodes g) = Some no_attrs) /\
     (forall d, d <> ROOT -> node_status g d = "pending")) /\
  ((exists pn, In pn (plan_nodes p) /\ carries_reserved_key pn = true) ->
   init p = Raise (OtherError "TypeError: got multiple values for keyword argument")).
Proof.
  intros [Hn He]. split.
  - intros Hr.
    assert (Hok : exists g, init p = Ok g).
    { unfold init.
      destruct (add_plan_nodes_ok (plan_nodes p) (add_node ROOT root_attrs empty_graph)
                  Hn Hr) as [g1 ->].
      apply add_plan_edges_ok, He. }
    destruct Hok as [g Hg]. exists g. split; [exact Hg|].
    destruct (init_facts p g Hg) as (_ & Hp & Hb & Hr'). auto.
  - intros Hr. unfold init.
    now rewrite (add_plan_nodes_reserved (plan_nodes p) _ Hn Hr).
Qed.

Lemma init_accepts_any_edges_witness :
  (malformed Examples.cyclic_plan /\
   exists g, init Examples.cyclic_plan = Ok g /\
     (forall u v, In (edge u v) (plan_edges Examples.cyclic_plan) ->
        has_node g u = true /\ has_node g v = true /\ In u (predecessors g v)) /\
     (forall n, has_node g n = true -> ~ In n (ROOT :: plan_ids Examples.cyclic_plan) ->
        Dict.get n (nodes g) = Some no_attrs) /\
     (forall d, d <> ROOT -> node_status g d = "pending")) /\
  init Examples.restated_status_plan =
  Raise (OtherError "TypeError: got multiple values for keyword argument").
Proof.
  split; [split|].
  - left. exists "A". apply path_step with (v := "B"); [simpl; auto|].
    apply path_edge. simpl. auto.
  - apply (init_accepts_any_edges Examples.cyclic_plan).
    + split.
      * intros pn [<-|[<-|[]]]; discriminate.
      * intros e [<-|[<-|[]]]; split; discriminate.
    + intros pn [<-|[<-|[]]]; reflexivity.
  - apply (init_accepts_any_edges Examples.restated_status_plan).
    + split.
      * intros pn [<-|[]]; discriminate.
      * intros e [].
    + eexists. split; [left; reflexivity|reflexivity].
Defined.

Lemma fresh_run_in_order {W} (C : collaborators W) p g0 remaining w :
  init p = Ok g0 ->
  in_order (graph_of (dag_loop C (_execute_step C) remaining g0 w)).
Proof.
  intros Hi. destruct (init_facts p g0 Hi) as (_ & Hp & _).
  apply (dag_loop_kept C max_iterations_default g0 remaining g0 w).
  split; [now apply all_pending_in_order|]. repeat split; auto.
Qed.

Lemma failed_node_blocks_dependents_witness :
  let g := graph_of (dag_loop Examples.unavailable (_execute_step Examples.unavailable) 1
                       (Examples.built Examples.chain_plan) tt) in
  node_status g "A" = "failed" /\
  let g' := graph_of (dag_loop Examples.unavailable (_execute_step Examples.unavailable) 5
                        g tt) in
  (forall n, node_status g n = "failed" -> node_status g' n = "failed") /\
  ~ In "B" (get_ready_steps g') /\
  node_status g' "B" = "pending" /\
  all_done g' <> Ok true /\
  fst (fst (_execute_dag Examples.unavailable g tt)) <> Ok true.
Proof.
  split; [reflexivity|].
  apply (failed_node_blocks_dependents Examples.unavailable 5 _ tt "A" "B").
  - apply (fresh_run_in_order Examples.unavailable Examples.chain_plan). reflexivity.
  - reflexivity.
  - vm_compute. auto.
  - vm_compute. auto.
  - discriminate.
Defined.

(** ** C3: the bound on self-iteration *)

Lemma build_agent_input_pure {W} step a nd inputs i p c (g : DiGraph) (w : W) :
  exists r, build_agent_input step a nd inputs i p c g w = (r, g, w).
Proof.
  unfold build_agent_input, bind, ret, raise, get_graph.
  destruct (truthy i); [eexists; reflexivity|].
  destruct (description nd); eexists; reflexivity.
Qed.

Lemma build_agent_input_ok {W} step a nd inputs i p c (g : DiGraph) (w : W) d :
  description nd = Some d ->
  exists ai, build_agent_input step a nd inputs i p c g w = (Ok ai, g, w).
Proof.
  intros Hd. unfold build_agent_input, bind, ret, raise, get_graph. rewrite Hd.
  destruct (truthy i); eexists; reflexivity.
Qed.

Lemma call_logged {W} (C : collaborators W) a ai g w log :
  call (run_agent (logged C) a ai) g (w, log) =
  (fst (run_agent C a ai w), g,
   (snd (run_agent C a ai w), (log ++ [fst (run_agent C a ai w)])%list)).
Proof. unfold call, logged. simpl. now destruct (run_agent C a ai w). Qed.

Lemma loop_log_bounded {W} (C : collaborators W) remaining step a nd inputs out i c g w log :
  exists calls,
    snd (snd (iterations_loop (logged C) remaining step a nd inputs out i c g (w, log)))
      = (log ++ calls)%list /\
    length calls <= remaining.
Proof.
  revert out i c g w log.
  induction remaining as [|remaining IH]; intros out i c g w log.
  - exists []. simpl. now rewrite app_nil_r.
  - cbn [iterations_loop]. unfold bind at 1.
    destruct (build_agent_input_pure step a nd inputs i out c g (w, log)) as [[ai|e] Eb];
      rewrite Eb.
    2:{ exists []. simpl. rewrite app_nil_r. split; [reflexivity | lia]. }
    unfold bind at 1. rewrite call_logged.
    destruct (run_agent C a ai w) as [r w1]. cbn [fst snd].
    assert (Hone : exists calls, (log ++ [r])%list = (log ++ calls)%list
                                 /\ length calls <= S remaining).
    { exists [r]. simpl. split; [reflexivity | lia]. }
    assert (Hrec : forall out' i' c' g',
      exists calls,
        snd (snd (iterations_loop (logged C) remaining step a nd inputs out' i' c' g'
                    (w1, (log ++ [r])%list))) = (log ++ calls)%list /\
        length calls <= S remaining).
    { intros out' i' c' g'.
      destruct (IH out' i' c' g' w1 (log ++ [r])%list) as (calls & E & L).
      exists (r :: calls). rewrite E, <- app_assoc. simpl. split; [reflexivity | lia]. }
    destruct r as [[out'|err]|e]; cbn [snd]; try exact Hone.
    unfold bind at 1, set_step_output at 1, modify_graph at 1. cbn [fst snd].
    destruct out' as [| | | | | |[|kv od]]; try apply Hrec.
    destruct (negb _); [exact Hone | apply Hrec].
Qed.

Lemma truthy_call_self od :
  truthy (dget "call_self" od) = true ->
  exists kv od', od = kv :: od' /\
    truthy (match Dict.get "call_self" od with
            | Some v => v | None => PBool false end) = true.
Proof.
  unfold dget. destruct od as [|kv od']; [discriminate|].
  intros H. exists kv, od'. split; auto.
  destruct (Dict.get "call_self" (kv :: od')); [exact H | discriminate].
Qed.

Lemma loop_step_continue {W} (C : collaborators W) remaining step a nd inputs
      out i c g w log ai kv od w1 :
  build_agent_input step a nd inputs i out c g (w, log) = (Ok ai, g, (w, log)) ->
  run_agent C a ai w = (Ok (AgentSuccess (PDict (kv :: od))), w1) ->
  truthy (match Dict.get "call_self" (kv :: od) with
          | Some v => v | None => PBool false end) = true ->
  exists i' c' g',
    iterations_loop (logged C) (S remaining) step a nd inputs out i c g (w, log) =
    iterations_loop (logged C) remaining step a nd inputs (PDict (kv :: od)) i' c' g'
      (w1, (log ++ [Ok (AgentSuccess (PDict (kv :: od)))])%list).
Proof.
  intros Eb Er Ht. do 3 eexists.
  cbn [iterations_loop]. unfold bind at 1. rewrite Eb.
  unfold bind at 1. rewrite call_logged, Er. cbn [fst snd].
  unfold bind at 1, set_step_output at 1, modify_graph at 1. cbn [fst snd].
  rewrite Ht. cbn [negb]. reflexivity.
Qed.

Lemma loop_always_continues {W} (C : collaborators W) step a nd inputs d :
  always_continues C -> description nd = Some d ->
  forall remaining out i c g w log,
  exists calls,
    length calls = remaining /\
    snd (snd (iterations_loop (logged C) remaining step a nd inputs out i c g (w, log)))
      = (log ++ calls)%list /\
    fst (fst (iterations_loop (logged C) remaining step a nd inputs out i c g (w, log)))
      = Ok (match calls with [] => out | _ => last_output calls end).
Proof.
  intros Hc Hd. induction remaining as [|remaining IH]; intros out i c g w log.
  - exists []. simpl. now rewrite app_nil_r.
  - destruct (build_agent_input_ok step a nd inputs i out c g (w, log) d Hd) as [ai Eb].
    destruct (Hc a ai w) as (od & Er & Ht).
    destruct (run_agent C a ai w) as [r w1] eqn:Erun. cbn [fst] in Er. subst r.
    destruct (truthy_call_self od Ht) as (kv & od' & -> & Ht').
    destruct (loop_step_continue C remaining step a nd inputs out i c g w log
                ai kv od' w1 Eb Erun Ht') as (i' & c' & g' & ->).
    destruct (IH (PDict (kv :: od')) i' c' g' w1
                 (log ++ [Ok (AgentSuccess (PDict (kv :: od')))])%list)
      as (calls & L & E & R).
    exists (Ok (AgentSuccess (PDict (kv :: od'))) :: calls).
    split; [simpl; congruence|]. split.
    + rewrite E, <- app_assoc. reflexivity.
    + rewrite R. now destruct calls.
Qed.

Lemma keys_kept_get g g' step nd :
  Dict.keys (nodes g') = Dict.keys (nodes g) ->
  Dict.get step (nodes g) = Some nd -> exists nd', Dict.get step (nodes g') = Some nd'.
Proof.
  intros Hk Hg.
  assert (Hm : Dict.mem step (nodes g') = true).
  { apply mem_keys. rewrite Hk. apply mem_keys. unfold Dict.mem. now rewrite Hg. }
  unfold Dict.mem in Hm. destruct (Dict.get step (nodes g')); eauto. discriminate.
Qed.

Lemma execute_step_unfold {W} (C : collaborators W) max step g w :
  _execute_step_bounded C max step g w =
  match Dict.get step (nodes g) with
  | None => (Raise (KeyError step), g, w)
  | Some nd =>
      match agent nd with
      | None => (Raise (KeyError "agent"), g, w)
      | Some a =>
          match get_inputs g (match reads nd with Some l => l | None => [] end) with
          | Raise e => (Raise e, g, w)
          | Ok inputs =>
              match iterations_loop C max step a nd inputs PNone PNone PNone g w with
              | (Raise e, g1, w1) => (Raise e, g1, w1)
              | (Ok out, g1, w1) =>
                  match Dict.get step (nodes g1) with
                  | None => (Raise (KeyError step), g1, w1)
                  | Some nd1 =>
                      (Ok {| success := true; result_output := out;
                             result_error := None |},
                       with_nodes (Dict.set step (set_iteration_record out nd1) (nodes g1))
                                  g1,
                       w1)
                  end
              end
          end
      end
  end.
Proof.
  unfold _execute_step_bounded, get_step_data, bind, get_graph, lift_outcome, ret, raise.
  destruct (Dict.get step (nodes g)) as [nd|]; [|reflexivity].
  destruct (agent nd) as [a|]; [|reflexivity].
  destruct (get_inputs g _) as [inputs|e]; [|reflexivity].
  destruct (iterations_loop C max step a nd inputs PNone PNone PNone g w)
    as [[[out|e] g1] w1]; [|reflexivity].
  unfold update_step_data, get_step_data, bind, get_graph, modify_graph, ret, raise.
  now destruct (Dict.get step (nodes g1)).
Qed.

(** C3.  For every node and every worker, [_execute_step] calls the worker
    at most [max_iterations] times (the calls are those recorded by
    [logged]).  When the worker asks for another round at every call and
    the step reaches its loop (the node has an agent and a description,
    and [get_inputs] returns the inputs of its reads), the worker is
    called exactly [max_iterations] times and the step returns, with
    [success], the output of the last of these calls: reaching the bound
    is not an error.  With [max_iterations = 3] these are 3 calls and the
    third output.  A step whose [get_inputs] raises does not reach the
    loop: it raises without a call.  (The source fixes [max_iterations]
    at 20.) *)
Theorem self_iteration_bounded
        {W : Type} (C : collaborators W) (max_iterations : nat) (step : string)
        (g : DiGraph) (w : W) (log : list (outcome run_result)) :
  let x := _execute_step_bounded (logged C) max_iterations step g (w, log) in
  (exists calls, snd (snd x) = (log ++ calls)%list /\ length calls <= max_iterations) /\
  (always_continues C ->
   (exists nd a d inputs,
      Dict.get step (nodes g) = Some nd /\ agent nd = Some a /\
      description nd = Some d /\
      get_inputs g (match reads nd with Some l => l | None => [] end) = Ok inputs) ->
   exists calls,
     snd (snd x) = (log ++ calls)%list /\ length calls = max_iterations /\
     fst (fst x) = Ok {| success := true; result_output := last_output calls;
                         result_error := None |}) /\
  (forall nd a e,
     Dict.get step (nodes g) = Some nd -> agent nd = Some a ->
     get_inputs g (match reads nd with Some l => l | None => [] end) = Raise e ->
     x = (Raise e, g, (w, log))).
Proof.
  cbv zeta. rewrite execute_step_unfold.
  assert (Hnil : exists calls : list (outcome run_result),
             log = (log ++ calls)%list /\ length calls <= max_iterations).
  { exists []. rewrite app_nil_r. split; [reflexivity | simpl; lia]. }
  destruct (Dict.get step (nodes g)) as [nd|] eqn:En.
  2:{ cbn [fst snd]. split; [exact Hnil|]. split.
      - intros _ (nd & a & d & inputs & H & _). discriminate.
      - intros nd a e H. discriminate. }
  destruct (agent nd) as [a|] eqn:Ea.
  2:{ cbn [fst snd]. split; [exact Hnil|]. split.
      - intros _ (nd' & a & d & inputs & H & Ha & _). congruence.
      - intros nd' a e H Ha. congruence. }
  destruct (get_inputs g (match reads nd with Some l => l | None => [] end))
    as [inputs|e] eqn:Ei.
  2:{ cbn [fst snd]. split; [exact Hnil|]. split.
      - intros _ (nd' & a' & d & inputs & H & Ha & _ & Hi).
        assert (nd' = nd) by congruence. subst nd'. congruence.
      - intros nd' a' e' H Ha Hi.
        assert (nd' = nd) by congruence. subst nd'. congruence. }
  pose proof (touches_iterations_loop (logged C) [] max_iterations step a nd inputs
                PNone PNone PNone g (w, log)) as (_ & Hkeys & _).
  pose proof (loop_log_bounded C max_iterations step a nd inputs
                PNone PNone PNone g w log) as Hbound.
  pose proof (fun Hc d Hd => loop_always_continues C step a nd inputs
                d Hc Hd max_iterations PNone PNone PNone g w log) as Hcont.
  unfold graph_of in Hkeys.
  destruct (iterations_loop (logged C) max_iterations step a nd inputs PNone PNone PNone
              g (w, log)) as [[[out|e] g1] wl1]; cbn [fst snd] in *.
  - destruct (keys_kept_get g g1 step nd Hkeys En) as [nd1 ->]. cbn [fst snd].
    split; [exact Hbound|]. split.
    + intros Hc (nd' & a' & d & inputs' & Hn' & Ha' & Hd & _).
      assert (nd' = nd) by congruence. subst nd'.
      destruct (Hcont Hc d Hd) as (calls & L & E & R).
      exists calls. split; [exact E|]. split; [exact L|].
      inversion R as [Hout]. f_equal. f_equal. destruct calls; reflexivity.
    + intros nd' a' e' H Ha Hi.
      assert (nd' = nd) by congruence. subst nd'. congruence.
  - split; [exact Hbound|]. split.
    + intros Hc (nd' & a' & d & inputs' & Hn' & Ha' & Hd & _).
      assert (nd' = nd) by congruence. subst nd'.
      destruct (Hcont Hc d Hd) as (calls & L & E & R). discriminate.
    + intros nd' a' e' H Ha Hi.
      assert (nd' = nd) by congruence. subst nd'. congruence.
Qed.

Lemma eager_worker_always_continues : always_continues Examples.eager_worker.
Proof. intros a ai n. eexists. split; reflexivity. Qed.

Lemma self_iteration_three_rounds :
  let x := _execute_step_bounded (logged Examples.eager_worker) 3 "A"
             (Examples.built Examples.chain_plan) (0, []) in
  (exists calls,
     snd (snd x) = ([] ++ calls)%list /\ length calls = 3 /\
     fst (fst x) = Ok {| success := true; result_output := last_output calls;
                         result_error := None |}) /\
  fst (fst x) = Ok {| success := true;
                      result_output := PDict [("call_self", PBool true); ("round", PInt 3)];
                      result_error := None |}.
Proof.
  split.
  - apply (proj1 (proj2 (self_iteration_bounded Examples.eager_worker 3 "A"
                           (Examples.built Examples.chain_plan) 0 []))).
    + exact eager_worker_always_continues.
    + do 4 eexists. split; [reflexivity|]. split; [reflexivity|].
      split; reflexivity.
  - reflexivity.
Defined.

(** ** C2: a worker invocation that fails *)

(** C2 does not hold of the code.  With a worker that fails at its first
    call, [_execute_step] leaves its loop and still returns
    [success = True] with the output [None]; the driver therefore calls
    [mark_done]: step A ends completed, not failed, its dependent B
    becomes ready, and the run ends with every node completed. *)
Theorem worker_failure_is_marked_completed :
  fst (fst (_execute_step Examples.failing_worker "A"
              (Examples.built Examples.chain_plan) tt))
    = Ok {| success := true; result_output := PNone; result_error := None |} /\
  (let g1 := graph_of (dag_round Examples.failing_worker
                         (_execute_step Examples.failing_worker)
                         (Examples.built Examples.chain_plan) tt) in
   node_status g1 "A" = "completed" /\ get_ready_steps g1 = ["B"]) /\
  (let '(r, g', _) := _execute_dag Examples.failing_worker
                        (Examples.built Examples.chain_plan) tt in
   r = Ok true /\ node_status g' "A" = "completed" /\ node_status g' "B" = "completed").
Proof. vm_compute. auto. Qed.

(** ** C6: the last-resort block *)

Lemma truthy_actual_value v : truthy v = true -> actual_value v = v.
Proof. now destruct v. Qed.

Lemma first_item_any od : first_item (fun _ => true) od = find truthy (map snd od).
Proof.
  induction od as [|[k v] od IH]; simpl; auto.
  destruct (truthy v); auto.
Qed.

Lemma extract_fallback_spec output er :
  (output = PNone \/ exists od, output = PDict od) ->
  result_is_mapping er ->
  extract_fallback output er = Ok (fallback_spec output er).
Proof.
  intros Hout Her. unfold extract_fallback, fallback_spec.
  assert (Hk1 : match er with
                | Some ((_ :: _) as e) =>
                    match Dict.get "result" e with
                    | Some (PDict _) | None => true
                    | Some _ => false
                    end
                | _ => true
                end = true).
  { destruct er as [[|kv e]|]; auto. unfold result_is_mapping in Her.
    destruct (Dict.get "result" (kv :: e)) as [[]|]; auto; contradiction. }
  rewrite Hk1. cbn [negb].
  assert (Hk2 : (if truthy output
                 then match output with PDict _ => true | _ => false end
                 else true) = true).
  { destruct Hout as [->|[od ->]]; [reflexivity|]. now destruct (truthy (PDict od)). }
  rewrite Hk2. cbn [negb].
  assert (Hex : match er with
                | Some e =>
                    match dget "result" e with
                    | PDict ((first_key, fallback_value) :: _) =>
                        if first_key =? "" then None
                        else Some (FallbackExecFirstKey, actual_value fallback_value)
                    | _ => None
                    end
                | None => None
                end = option_map (fun v => (FallbackExecFirstKey, v))
                                 (first_key_of_result er)).
  { destruct er as [e|]; [|reflexivity]. unfold first_key_of_result, dget.
    destruct (Dict.get "result" e) as [[| | | | | |[|[k v] rd]]|]; try reflexivity.
    now destruct (k =? ""). }
  rewrite Hex. destruct (first_key_of_result er) as [v|]; [reflexivity|].
  cbn [option_map]. unfold first_truthy_of_output.
  destruct Hout as [->|[od ->]]; [reflexivity|].
  rewrite first_item_any.
  destruct (find truthy (map snd od)) as [v|] eqn:Ef; [|reflexivity].
  apply find_some in Ef. now rewrite truthy_actual_value.
Qed.

Lemma extract_key_without_execution json agent_type step_id output k :
  (output = PNone \/ exists od, output = PDict od) ->
  exists st v, extract_key json agent_type step_id output None k = Ok (st, v).
Proof.
  intros Hout. unfold extract_key. cbn [try_execution].
  destruct (try_output output k) as [[st v]|]; [eauto|].
  assert (Hf : exists r, try_formatter agent_type step_id output k = Ok r).
  { unfold try_formatter. destruct Hout as [->|[od ->]].
    - cbn [truthy]. rewrite andb_false_r. eauto.
    - destruct (andb _ _); [|eauto]. unfold extract_formatter.
      destruct (first_pattern od _); eauto.
      destruct (first_item _ od); eauto.
      destruct (first_item _ od); eauto. }
  destruct Hf as [[[st v]|] ->]; [eauto|].
  rewrite extract_fallback_spec; auto; [|exact I].
  destruct (fallback_spec output None). eauto.
Qed.

Lemma extract_writes_without_execution json agent_type step_id output ws gs :
  (output = PNone \/ exists od, output = PDict od) ->
  fst (extract_writes json agent_type step_id output None ws gs) = Ok tt.
Proof.
  intros Hout. revert gs. induction ws as [|k ws IH]; intros gs; simpl; auto.
  destruct (extract_key_without_execution json agent_type step_id output k Hout)
    as (st & v & ->).
  apply IH.
Qed.

Lemma complete_step_ok {W} (C : collaborators W) agent_type step ws output er g w nd :
  Dict.get step (nodes g) = Some nd ->
  fst (extract_writes (json_loads C) agent_type step output er ws (globals_schema g)) = Ok tt ->
  let gs' := snd (extract_writes (json_loads C) agent_type step output er ws
                    (globals_schema g)) in
  let g' := with_nodes (Dict.set step (set_output output (set_status "completed" nd))
                          (nodes g)) (with_globals gs' g) in
  complete_step C agent_type step ws output er g w = (Ok tt, g', w) /\
  node_status g' step = "completed" /\ globals_schema g' = gs'.
Proof.
  intros Hn Hok. cbv zeta. split; [|split; [|reflexivity]].
  - unfold complete_step, bind, get_graph, modify_graph, lift_outcome. cbn [fst snd].
    rewrite Hok. unfold update_step_data, get_step_data, bind, get_graph, modify_graph, ret.
    cbn [nodes with_globals]. rewrite Hn. reflexivity.
  - unfold node_status, node_attrs. cbn [nodes with_nodes].
    now rewrite get_set_same.
Qed.

(** [mark_done] on an output that asks nothing of the user and has no code
    to run goes straight to extraction, with no execution result. *)
Lemma mark_done_plain {W} (C : collaborators W) step output g w nd :
  Dict.get step (nodes g) = Some nd ->
  _is_clarification_request (match agent nd with Some a => a | None => "" end) output
    = false ->
  _has_executable_code output = false ->
  counters_add output = true ->
  mark_done C step output g w =
  complete_step C (match agent nd with Some a => a | None => "" end) step
    (match writes nd with Some l => l | None => [] end) output None g w.
Proof.
  intros Hn Hq Hx Hc. unfold mark_done, get_step_data.
  unfold bind at 1, bind at 1, get_graph at 1. cbn [fst snd]. rewrite Hn.
  unfold ret at 1. cbn [fst snd].
  unfold bind at 1, interaction_phase. rewrite Hq. unfold ret at 1.
  unfold bind at 1, execution_phase. rewrite Hx.
  unfold total_tokens. unfold counters_add in Hc. rewrite Hc.
  assert (Hret : forall c : M W unit, bind c (fun _ => ret tt) g w = c g w).
  { intros c. unfold bind, ret. now destruct (c g w) as [[[[]|e] g1] w1]. }
  destruct output; cbn [fst snd]; unfold ret at 1; apply Hret.
Qed.




(** ** C8: the interaction collaborator is unavailable *)

Lemma handle_keeps_graph {W} (C : collaborators W) od g w :
  graph_of (_handle_user_interaction_rich C od g w) = g.
Proof.
  unfold _handle_user_interaction_rich, graph_of.
  destruct (truthy _).
  - destruct (match Dict.get "options" od with Some o => o | None => PList [] end);
      unfold bind, call, selected_option, raise, ret;
      try reflexivity;
      destruct (Prompt_ask C _ _ w) as [[choice|e] w1]; cbn [fst snd]; try reflexivity;
      destruct (int_of_str choice); try reflexivity;
      destruct (py_index _ _); reflexivity.
  - unfold bind, call, ret. now destruct (Prompt_ask C _ _ w) as [[r|e] w1].
Qed.

Lemma interaction_phase_failed {W} (C : collaborators W) od g w e :
  Dict.mem "clarificationMessage" od = true ->
  fst (fst (_handle_user_interaction_rich C od g w)) = Raise e ->
  interaction_phase C "ClarificationAgent" (PDict od) g w =
  (Ok (PDict od), g, snd (_handle_user_interaction_rich C od g w)).
Proof.
  intros Hm He. unfold interaction_phase, _is_clarification_request.
  rewrite Hm. cbn [String.eqb Ascii.eqb Bool.eqb andb].
  pose proof (handle_keeps_graph C od g w) as Hg. unfold graph_of in Hg.
  unfold try_except, capture_user_input. unfold bind at 1.
  destruct (_handle_user_interaction_rich C od g w) as [[r g1] w1].
  cbn [fst snd] in *. subst. reflexivity.
Qed.

(** C8, as stated, fails.  Step Q of the clarification agent asks
    "Which file?" and no terminal is there: [Prompt.ask] raises.
    [mark_done] catches the exception, goes on with the extraction and
    marks Q completed, not failed. *)
Lemma interaction_failure_step_completes :
  fst (fst (_handle_user_interaction_rich Examples.unavailable Examples.question_fields
              (Examples.built Examples.question_plan) tt))
    = Raise (OtherError "no terminal") /\
  (let '(r, g', _) := mark_done Examples.unavailable "Q" Examples.question_output
                        (Examples.built Examples.question_plan) tt in
   r = Ok tt /\ node_status g' "Q" = "completed" /\ node_status g' "Q" <> "failed").
Proof.
  split; [reflexivity|]. vm_compute. repeat split. discriminate.
Qed.

(** C8, amended.  When the output of a step of the clarification agent
    asks for user interaction and the interaction attempt raises,
    [mark_done] catches the exception: no answer is bound, the output is
    left as it is, and (the output having no code to run, and token
    counters that can be summed) the step goes through extraction and
    completes: its status is completed, never failed. *)
Theorem interaction_failure_is_swallowed
        {W : Type} (C : collaborators W) (step : string) (g : DiGraph) (w : W)
        (nd : node_data) (od : dict) (e : exn) :
  Dict.get step (nodes g) = Some nd ->
  agent nd = Some "ClarificationAgent" ->
  Dict.mem "clarificationMessage" od = true ->
  _has_executable_code (PDict od) = false ->
  counters_add (PDict od) = true ->
  fst (fst (_handle_user_interaction_rich C od g w)) = Raise e ->
  exists g',
    mark_done C step (PDict od) g w
      = (Ok tt, g', snd (_handle_user_interaction_rich C od g w)) /\
    node_status g' step = "completed" /\
    globals_schema g' =
      snd (extract_writes (json_loads C) "ClarificationAgent" step (PDict od) None
             (match writes nd with Some l => l | None => [] end) (globals_schema g)) /\
    globals_schema_other g' = globals_schema_other g.
Proof.
  intros Hn Ha Hm Hx Hadd He.
  pose proof (extract_writes_without_execution (json_loads C) "ClarificationAgent" step
                (PDict od) (match writes nd with Some l => l | None => [] end)
                (globals_schema g) (or_intror (ex_intro _ od eq_refl))) as Hok.
  destruct (complete_step_ok C "ClarificationAgent" step _ (PDict od) None g
              (snd (_handle_user_interaction_rich C od g w)) nd Hn Hok)
    as (Hc & Hs & Hg).
  eexists. split; [|split; [exact Hs | split; [exact Hg | reflexivity]]].
  rewrite <- Hc. unfold mark_done, get_step_data.
  unfold bind at 1, bind at 1, get_graph at 1. cbn [fst snd]. rewrite Hn.
  unfold ret at 1. cbn [fst snd]. rewrite Ha.
  unfold bind at 1. rewrite (interaction_phase_failed C od g w e Hm He).
  unfold bind at 1, execution_phase. rewrite Hx.
  unfold total_tokens. unfold counters_add in Hadd. rewrite Hadd.
  unfold ret at 1. cbn [fst snd]. unfold bind, ret.
  now destruct (complete_step C _ _ _ _ _ _ _) as [[[[]|e'] g1] w1].
Qed.

Lemma interaction_failure_is_swallowed_witness :
  exists g',
    mark_done Examples.unavailable "Q" Examples.question_output
      (Examples.built Examples.question_plan) tt
      = (Ok tt, g',
         snd (_handle_user_interaction_rich Examples.unavailable Examples.question_fields
                (Examples.built Examples.question_plan) tt)) /\
    node_status g' "Q" = "completed" /\
    globals_schema g' =
      snd (extract_writes (json_loads Examples.unavailable) "ClarificationAgent" "Q"
             Examples.question_output None ["answer"]
             (globals_schema (Examples.built Examples.question_plan))) /\
    globals_schema_other g' = globals_schema_other (Examples.built Examples.question_plan).
Proof.
  apply (interaction_failure_is_swallowed Examples.unavailable "Q"
           (Examples.built Examples.question_plan) tt
           (plan_attrs (Examples.step "Q" "ClarificationAgent" [] ["answer"]))
           Examples.question_fields (OtherError "no terminal")); reflexivity.
Defined.

(** * Further properties of the engine *)

(** ** Where extracted values come from *)

Lemma pyval_nested_ind (P : pyval -> Prop) :
  P PNone -> (forall b, P (PBool b)) -> (forall z, P (PInt z)) ->
  (forall m e, P (PFloat m e)) -> (forall s, P (PStr s)) ->
  (forall l, Forall P l -> P (PList l)) ->
  (forall d, Forall (fun kv => P (snd kv)) d -> P (PDict d)) ->
  forall v, P v.
Proof.
  intros HN HB HI HF HS HL HD.
  fix IH 1. intros [| b | z | m e | s | l | d].
  - exact HN.
  - apply HB.
  - apply HI.
  - apply HF.
  - apply HS.
  - apply HL. induction l as [|x l IHl]; constructor; [apply IH | exact IHl].
  - apply HD. induction d as [|[k x] d IHd]; constructor; [apply IH | exact IHd].
Qed.




Lemma deep_search_cons k x l :
  deep_search k (PList (x :: l)) =
  match deep_search k x with PNone => deep_search k (PList l) | r => r end.
Proof. reflexivity. Qed.

Lemma deep_search_dict_cons k key x d :
  deep_search k (PDict ((key, x) :: d)) =
  if key =? k then x
  else match deep_search k x with PNone => deep_search k (PDict d) | r => r end.
Proof. reflexivity. Qed.

Lemma key_value_item k v x l : In x l -> key_value k v x -> key_value k v (PList l).
Proof.
  intros Hin (d & Hd & Hkv). exists d. split; [|exact Hkv].
  eapply inside_item; eauto.
Qed.

Lemma key_value_value k v key x d :
  In (key, x) d -> key_value k v x -> key_value k v (PDict d).
Proof.
  intros Hin (d' & Hd & Hkv). exists d'. split; [|exact Hkv].
  eapply inside_value; eauto.
Qed.

Lemma key_value_list_tail k v x l :
  key_value k v (PList l) -> key_value k v (PList (x :: l)).
Proof.
  intros (d & Hd & Hkv). inversion Hd; subst.
  eapply key_value_item; [right; eauto|]. exists d. auto.
Qed.

Lemma key_value_dict_tail k v e d :
  key_value k v (PDict d) -> key_value k v (PDict (e :: d)).
Proof.
  intros (d' & Hd & Hkv). inversion Hd; subst.
  - exists (e :: d). split; [constructor | now right].
  - eapply key_value_value; [right; eauto|]. exists d'. auto.
Qed.

Lemma deep_search_found k data :
  deep_search k data <> PNone -> key_value k (deep_search k data) data.
Proof.
  induction data as [| b | z | m e | s | l IH | d IH] using pyval_nested_ind;
    try (simpl; congruence).
  - induction IH as [|x l Hx _ IHl]; [simpl; congruence|].
    rewrite deep_search_cons.
    destruct (deep_search k x) eqn:Ex;
      try (intros _; eapply key_value_item; [now left|]; apply Hx; congruence).
    intros Hne. apply key_value_list_tail. now apply IHl.
  - induction IH as [|[key x] d Hx _ IHd]; [simpl; congruence|].
    rewrite deep_search_dict_cons. simpl in Hx.
    destruct (String.eqb_spec key k) as [->|Hk].
    + intros _. exists ((k, x) :: d). split; [constructor | now left].
    + destruct (deep_search k x) eqn:Ex;
        try (intros _; eapply key_value_value; [now left|]; apply Hx; congruence).
      intros Hne. apply key_value_dict_tail. now apply IHd.
Qed.

(** X1.  [deep_search] never invents a value: whatever it returns other
    than [None] is the value some dict nested in the data binds the
    target key to; and when no dict nested in the data has the key, it
    returns [None]. *)
Theorem deep_search_sound (k : string) (data : pyval) :
  (deep_search k data <> PNone -> key_value k (deep_search k data) data) /\
  ((forall d, inside (PDict d) data -> ~ In k (Dict.keys d)) ->
   deep_search k data = PNone).
Proof.
  split; [apply deep_search_found|].
  intros Hno.
  destruct (is_standard (deep_search k data)) eqn:E;
    [|now destruct (deep_search k data)].
  assert (Hne : deep_search k data <> PNone) by (intros Hn; now rewrite Hn in E).
  destruct (deep_search_found k data Hne) as (d0 & Hd & Hin).
  exfalso. apply (Hno d0 Hd). unfold Dict.keys.
  apply in_map_iff. eexists. split; [|exact Hin]. reflexivity.
Qed.












(** ** What a run keeps *)

Section Keeps.
Context {W : Type}.
Variable R : DiGraph -> DiGraph -> Prop.
Hypothesis R_refl : forall g, R g g.
Hypothesis R_trans : forall g1 g2 g3, R g1 g2 -> R g2 g3 -> R g1 g3.

Lemma keeps_ret {A} (a : A) : keeps (W:=W) R (ret a).
Proof. intros g w. apply R_refl. Qed.

Lemma keeps_raise {A} e : keeps (W:=W) (A:=A) R (raise e).
Proof. intros g w. apply R_refl. Qed.

Lemma keeps_lift {A} (r : outcome A) : keeps (W:=W) R (lift_outcome r).
Proof. intros g w. apply R_refl. Qed.

Lemma keeps_get_graph : keeps (W:=W) R get_graph.
Proof. intros g w. apply R_refl. Qed.

Lemma keeps_call {A} (f : W -> outcome A * W) : keeps R (call f).
Proof. intros g w. unfold call, graph_of. destruct (f w). apply R_refl. Qed.

Lemma keeps_bind {A B} (c : M W A) (k : A -> M W B) :
  keeps R c -> (forall a, keeps R (k a)) -> keeps R (bind c k).
Proof.
  intros Hc Hk g w. specialize (Hc g w). unfold bind, graph_of in *.
  destruct (c g w) as [[[a|e] g1] w1]; cbn [fst snd] in *; auto.
  eapply R_trans; [exact Hc|]. apply (Hk a g1 w1).
Qed.

Lemma keeps_try {A} (c : M W A) (h : exn -> M W A) :
  keeps R c -> (forall e, keeps R (h e)) -> keeps R (try_except c h).
Proof.
  intros Hc Hh g w. specialize (Hc g w). unfold try_except, graph_of in *.
  destruct (c g w) as [[[a|e] g1] w1]; cbn [fst snd] in *; auto.
  eapply R_trans; [exact Hc|]. apply (Hh e g1 w1).
Qed.

Lemma keeps_get_step_data step : keeps (W:=W) R (get_step_data step).
Proof.
  unfold get_step_data. apply keeps_bind; [apply keeps_get_graph|].
  intros g. destruct (Dict.get step (nodes g)); [apply keeps_ret | apply keeps_raise].
Qed.

Lemma keeps_update_step_data step f :
  (forall g nd, Dict.get step (nodes g) = Some nd ->
                R g (with_nodes (Dict.set step (f nd) (nodes g)) g)) ->
  keeps (W:=W) R (update_step_data step f).
Proof.
  intros Hf g w. unfold update_step_data, get_step_data, bind, get_graph, graph_of.
  cbn [fst snd]. destruct (Dict.get step (nodes g)) as [nd|] eqn:E; cbn [fst snd].
  - now apply Hf.
  - apply R_refl.
Qed.

Lemma keeps_set_step_output step out :
  (forall g nd, Dict.get step (nodes g) = Some nd ->
                R g (with_nodes (Dict.set step (set_output out nd) (nodes g)) g)) ->
  keeps (W:=W) R (set_step_output step out).
Proof.
  intros Hf g w. unfold set_step_output, modify_graph, graph_of. cbn [fst snd].
  destruct (Dict.get step (nodes g)) as [nd|] eqn:E; [now apply Hf | apply R_refl].
Qed.

Lemma keeps_build_agent_input step agent_type nd inputs i p c :
  keeps (W:=W) R (build_agent_input step agent_type nd inputs i p c).
Proof.
  intros g w.
  destruct (build_agent_input_pure step agent_type nd inputs i p c g w) as [r ->].
  apply R_refl.
Qed.

Section Step.
Variable C : collaborators W.
Variable step : string.
Hypothesis R_output : forall g nd out,
  Dict.get step (nodes g) = Some nd ->
  R g (with_nodes (Dict.set step (set_output out nd) (nodes g)) g).
Hypothesis R_record : forall g nd out,
  Dict.get step (nodes g) = Some nd ->
  R g (with_nodes (Dict.set step (set_iteration_record out nd) (nodes g)) g).

Lemma keeps_iterations_loop remaining agent_type nd inputs out i c :
  keeps R (iterations_loop C remaining step agent_type nd inputs out i c).
Proof.
  revert out i c. induction remaining as [|remaining IH]; intros out i c;
    cbn [iterations_loop]; [apply keeps_ret|].
  apply keeps_bind; [apply keeps_build_agent_input|]. intros ai.
  apply keeps_bind; [apply keeps_call|]. intros [out'|err]; [|apply keeps_ret].
  apply keeps_bind; [apply keeps_set_step_output; intros; now apply R_output|].
  intros _. destruct out' as [| | | | | |[|kv od]]; try apply IH.
  destruct (negb _); [apply keeps_ret | apply IH].
Qed.

Lemma keeps_execute_step max : keeps R (_execute_step_bounded C max step).
Proof.
  unfold _execute_step_bounded. apply keeps_bind; [apply keeps_get_step_data|].
  intros nd. destruct (agent nd); [|apply keeps_raise].
  apply keeps_bind; [apply keeps_get_graph|]. intros g.
  apply keeps_bind; [apply keeps_lift|]. intros inputs.
  apply keeps_bind; [apply keeps_iterations_loop|]. intros out.
  apply keeps_bind; [|intros; apply keeps_ret].
  apply keeps_update_step_data. intros; now apply R_record.
Qed.
End Step.

Section Run.
(** [P]: the steps whose node [R] allows to be rewritten. *)
Variable P : string -> Prop.
Hypothesis R_node : forall g step nd nd',
  P step -> Dict.get step (nodes g) = Some nd -> plan_part nd' = plan_part nd ->
  R g (with_nodes (Dict.set step nd' (nodes g)) g).
Hypothesis R_set : forall g k v,
  R g (with_globals (Dict.set k v (globals_schema g)) g).
Hypothesis R_other : forall g k v,
  R g (with_other (globals_schema_other g ++ [(k, v)])%list g).
Variable C : collaborators W.

Local Abbreviation keepsR c := (keeps (W:=W) R c).

Lemma keeps_update_any step f :
  P step -> (forall nd, plan_part (f nd) = plan_part nd) ->
  keepsR (update_step_data step f).
Proof. intros Hp Hf. apply keeps_update_step_data; eauto. Qed.

Lemma keeps_mark_running step : P step -> keepsR (mark_running step).
Proof. intros Hp. now apply keeps_update_any. Qed.

Lemma keeps_mark_failed step err : P step -> keepsR (mark_failed step err).
Proof.
  intros Hp.
  unfold mark_failed. apply keeps_bind; [now apply keeps_update_any|]. intros _.
  apply keeps_bind; auto using keeps_get_step_data. intros nd.
  destruct (start_time nd); auto using keeps_ret, keeps_raise.
Qed.

Lemma keeps_handle od : keepsR (_handle_user_interaction_rich C od).
Proof.
  intros g w. rewrite handle_keeps_graph. apply R_refl.
Qed.

Lemma keeps_capture od : keepsR (capture_user_input C od).
Proof.
  unfold capture_user_input. apply keeps_bind; auto using keeps_handle. intros u.
  apply keeps_bind; [| intros; now apply keeps_ret].
  destruct (match Dict.get "writes_to" od with
            | Some k => k | None => PStr "user_response" end);
    auto using keeps_raise; intros g w; solve [apply R_set | apply R_other].
Qed.

Lemma keeps_interaction_phase agent_type output :
  keepsR (interaction_phase C agent_type output).
Proof.
  unfold interaction_phase. destruct (_is_clarification_request _ _);
    [|now apply keeps_ret].
  destruct output; try now apply keeps_ret.
  apply keeps_try; auto using keeps_capture. intros e. now apply keeps_ret.
Qed.

Lemma keeps_run_variants variants od rs : keepsR (run_variants C variants od rs).
Proof.
  induction variants as [|[code_key code] rest IH]; cbn [run_variants];
    [now apply keeps_ret|].
  apply keeps_bind; auto using keeps_get_graph. intros g.
  apply keeps_bind; auto.
  - apply keeps_try; auto; [|intros e; now apply keeps_ret].
    apply keeps_bind; auto using keeps_call. intros r.
    destruct r; auto using keeps_raise.
    destruct (is_str _ _); now apply keeps_ret.
  - intros [r|]; [now apply keeps_ret | exact IH].
Qed.

Lemma keeps_auto_execute_code step od : keepsR (_auto_execute_code C step od).
Proof.
  unfold _auto_execute_code. apply keeps_bind; auto using keeps_lift.
  intros [|kv rest]; [now apply keeps_ret|].
  apply keeps_bind; auto using keeps_get_step_data. intros nd.
  apply keeps_run_variants.
Qed.

Lemma keeps_execution_phase step output : keepsR (execution_phase C step output).
Proof.
  unfold execution_phase. destruct output; try now apply keeps_ret.
  destruct (_has_executable_code _); [|now apply keeps_ret].
  apply keeps_try; auto; [|intros e; now apply keeps_ret].
  apply keeps_bind; auto using keeps_auto_execute_code. intros er.
  destruct (_merge_execution_results _ _ _); now apply keeps_ret.
Qed.

Lemma with_globals_same g : with_globals (globals_schema g) g = g.
Proof. now destruct g. Qed.

Lemma R_extract_writes json agent_type step output er ws g :
  R g (with_globals
         (snd (extract_writes json agent_type step output er ws (globals_schema g))) g).
Proof.
  revert g. induction ws as [|k ws IH]; intros g; cbn [extract_writes].
  - cbn [snd]. rewrite with_globals_same. apply R_refl.
  - destruct (extract_key json agent_type step output er k) as [[st v]|e].
    + eapply R_trans; [apply (R_set g k v)|].
      apply (IH (with_globals (Dict.set k v (globals_schema g)) g)).
    + cbn [snd]. rewrite with_globals_same. apply R_refl.
Qed.

Lemma keeps_complete_step agent_type step ws output er :
  P step -> keepsR (complete_step C agent_type step ws output er).
Proof.
  intros Hp. unfold complete_step. intros g w. unfold bind at 1, get_graph at 1. cbn [fst snd].
  pose proof (R_extract_writes (json_loads C) agent_type step output er ws g) as Hx.
  assert (Hrest : keepsR
            (lift_outcome (fst (extract_writes (json_loads C) agent_type step output er ws
                                  (globals_schema g))) ;;;
             update_step_data step
               (fun nd => set_output output (set_status "completed" nd)))).
  { apply keeps_bind; auto using keeps_lift. intros _. now apply keeps_update_any. }
  unfold bind at 1, modify_graph at 1, graph_of. cbn [fst snd].
  eapply R_trans; [exact Hx|]. apply Hrest.
Qed.

Lemma keeps_mark_done step output : P step -> keepsR (mark_done C step output).
Proof.
  intros Hp. unfold mark_done. apply keeps_bind; auto using keeps_get_step_data. intros nd.
  apply keeps_bind; auto using keeps_interaction_phase. intros o.
  apply keeps_bind; auto using keeps_execution_phase. intros ex.
  apply keeps_bind; auto using keeps_complete_step. intros _.
  unfold total_tokens. destruct (can_add _ _); auto using keeps_ret, keeps_raise.
Qed.

Lemma keeps_execute_step_any max step :
  P step -> keepsR (_execute_step_bounded C max step).
Proof. intros Hp. apply keeps_execute_step; intros; eapply R_node; eauto. Qed.

Lemma keeps_gather execute ready :
  (forall step, In step ready -> keepsR (execute step)) ->
  keepsR (gather execute ready).
Proof.
  induction ready as [|step rest IH]; intros He; cbn [gather]; [now apply keeps_ret|].
  apply keeps_bind; auto.
  - apply keeps_try; auto; [|intros e; now apply keeps_ret].
    apply keeps_bind; auto; [apply He; now left|]. intros x. now apply keeps_ret.
  - intros r. apply keeps_bind; auto.
    + apply IH. intros s Hs. apply He. now right.
    + intros rs. now apply keeps_ret.
Qed.

Lemma keeps_mark_all_running ready :
  (forall s, In s ready -> P s) -> keepsR (mark_all_running ready).
Proof.
  induction ready as [|step rest IH]; intros Hp; cbn [mark_all_running];
    [now apply keeps_ret|].
  apply keeps_bind; auto.
  - apply keeps_mark_running, Hp. now left.
  - intros _. apply IH. intros s Hs. apply Hp. now right.
Qed.

Lemma keeps_process_results results :
  (forall s, In s (map fst results) -> P s) -> keepsR (process_results C results).
Proof.
  induction results as [|[step r] rest IH]; intros Hp; cbn [process_results];
    [now apply keeps_ret|].
  assert (Hs : P step) by (apply Hp; now left).
  apply keeps_bind; auto.
  - destruct r as [r|e]; [|now apply keeps_mark_failed].
    destruct (success r); [now apply keeps_mark_done|].
    destruct (result_error r); [now apply keeps_mark_failed | now apply keeps_raise].
  - intros _. apply IH. intros s Hin. apply Hp. now right.
Qed.

(** One round rewrites only nodes of steps that were ready. *)
Lemma round_keeps max g w :
  (forall s, In s (get_ready_steps g) -> P s) ->
  R g (graph_of (dag_round C (_execute_step_bounded C max) g w)).
Proof.
  intros Hp. unfold dag_round, bind at 1, get_graph at 1. cbn [fst snd].
  destruct (get_ready_steps g) as [|s0 ready] eqn:Er.
  - unfold bind, lift_outcome, ret, graph_of.
    destruct (has_failures g); cbn [fst snd]; apply R_refl.
  - pose proof (keeps_mark_all_running (s0 :: ready) Hp g w) as H1.
    unfold bind at 1. unfold graph_of in *.
    destruct (mark_all_running (s0 :: ready) g w) as [[[[]|e] g1] w1];
      cbn [fst snd] in *; [|exact H1].
    assert (Hg : keepsR (gather (_execute_step_bounded C max) (s0 :: ready))).
    { apply keeps_gather. intros s Hs. apply keeps_execute_step_any. now apply Hp. }
    specialize (Hg g1 w1). unfold bind at 1. unfold graph_of in Hg.
    destruct (gather (_execute_step_bounded C max) (s0 :: ready) g1 w1)
      as [[[rs|e] g2] w2] eqn:Eg; cbn [fst snd] in *;
      [|eapply R_trans; eauto].
    assert (Hr : keepsR (process_results C rs)).
    { apply keeps_process_results. rewrite (gather_steps _ _ _ _ _ _ _ Eg). exact Hp. }
    specialize (Hr g2 w2). unfold bind, ret. unfold graph_of in Hr.
    destruct (process_results C rs g2 w2) as [[[[]|e] g3] w3]; cbn [fst snd] in *;
      (eapply R_trans; [|exact Hr]); eapply R_trans; eauto.
Qed.

Section Everywhere.
Hypothesis P_all : forall s, P s.

Lemma keeps_dag_round max : keepsR (dag_round C (_execute_step_bounded C max)).
Proof. intros g w. apply round_keeps. auto. Qed.

Lemma keeps_dag_loop max remaining :
  keepsR (dag_loop C (_execute_step_bounded C max) remaining).
Proof.
  induction remaining as [|remaining IH]; cbn [dag_loop]; [now apply keeps_ret|].
  apply keeps_bind; auto using keeps_get_graph. intros g.
  apply keeps_bind; auto using keeps_lift. intros [|]; [now apply keeps_ret|].
  apply keeps_bind; auto using keeps_dag_round. intros [|]; [exact IH | now apply keeps_ret].
Qed.

Lemma keeps_execute_dag : keepsR (_execute_dag C).
Proof.
  unfold _execute_dag, _execute_step. apply keeps_bind; [apply keeps_dag_loop |].
  intros _. apply keeps_bind; [apply keeps_get_graph |]. intros g.
  apply keeps_lift.
Qed.
End Everywhere.
End Run.
End Keeps.

Lemma step_frame_refl step g : step_frame step g g.
Proof. unfold step_frame, same_structure. intuition. Qed.

Lemma step_frame_trans step g1 g2 g3 :
  step_frame step g1 g2 -> step_frame step g2 g3 -> step_frame step g1 g3.
Proof.
  unfold step_frame, same_structure.
  intros (A1 & (B1 & C1) & D1 & E1 & F1 & G1 & H1) (A2 & (B2 & C2) & D2 & E2 & F2 & G2 & H2).
  split; [congruence|]. split; [split; congruence|].
  split; [intros n Hn; rewrite D2, D1; auto|].
  repeat split; congruence.
Qed.

Lemma step_frame_update step g nd nd' :
  Dict.get step (nodes g) = Some nd ->
  status nd' = status nd -> error nd' = error nd -> start_time nd' = start_time nd ->
  plan_part nd' = plan_part nd ->
  step_frame step g (with_nodes (Dict.set step nd' (nodes g)) g).
Proof.
  intros Hg Hs He Ht Hp. unfold step_frame, same_structure, node_attrs, whole_store.
  cbn [nodes pred globals_schema globals_schema_other with_nodes].
  rewrite get_set_same, Hg.
  split; [reflexivity|]. split.
  - split; [reflexivity|]. apply keys_set_known. unfold Dict.mem. now rewrite Hg.
  - split; [intros n Hn; now apply get_set_other|]. auto.
Qed.

(** X3.  [_execute_step] touches nothing but what it records in its own
    node: whatever the worker answers and however the step ends, the
    variable store, the edges, the node table and every other node are
    the same afterwards, and so are the status, the error, the start time
    and the plan part (agent, description, prompt, reads, writes) of the
    node itself.  Only its output and iteration record may differ. *)
Theorem execute_step_frame
        {W : Type} (C : collaborators W) (max_iterations : nat) (step : string)
        (g : DiGraph) (w : W) :
  step_frame step g (graph_of (_execute_step_bounded C max_iterations step g w)).
Proof.
  apply (keeps_execute_step (step_frame step) (step_frame_refl step)
           (step_frame_trans step) C step).
  - intros g0 nd out Hg. now apply (step_frame_update step g0 nd).
  - intros g0 nd out Hg. now apply (step_frame_update step g0 nd).
Qed.








Lemma same_plan_refl g : same_plan g g.
Proof. unfold same_plan, same_structure. auto. Qed.

Lemma same_plan_trans g1 g2 g3 : same_plan g1 g2 -> same_plan g2 g3 -> same_plan g1 g3.
Proof.
  unfold same_plan, same_structure. intros ((A1 & B1) & C1) ((A2 & B2) & C2).
  split; [split; congruence|]. intros n. now rewrite C2, C1.
Qed.

Lemma same_plan_node g step nd nd' :
  Dict.get step (nodes g) = Some nd -> plan_part nd' = plan_part nd ->
  same_plan g (with_nodes (Dict.set step nd' (nodes g)) g).
Proof.
  intros Hg Hp. unfold same_plan, same_structure, node_attrs.
  cbn [nodes pred with_nodes]. repeat split.
  - apply keys_set_known. unfold Dict.mem. now rewrite Hg.
  - intros n. destruct (String.eqb_spec n step) as [->|Hne].
    + now rewrite get_set_same, Hg.
    + now rewrite get_set_other.
Qed.

Lemma same_plan_set g k v :
  same_plan g (with_globals (Dict.set k v (globals_schema g)) g).
Proof. unfold same_plan, same_structure, node_attrs. now destruct g. Qed.

Lemma same_plan_other g os : same_plan g (with_other os g).
Proof. unfold same_plan, same_structure, node_attrs. now destruct g. Qed.

(** X5.  A run never changes the plan.  After [_execute_dag], and after
    any single [mark_done], the graph has the same nodes in the same
    order and the same edges as before, and every node has the agent,
    description, prompt, reads and writes it had: execution only records
    status, output, error and bookkeeping on existing nodes. *)
Theorem run_keeps_the_plan
        {W : Type} (C : collaborators W) (g : DiGraph) (w : W) :
  same_plan g (graph_of (_execute_dag C g w)) /\
  (forall step output, same_plan g (graph_of (mark_done C step output g w))).
Proof.
  split.
  - apply (keeps_execute_dag same_plan same_plan_refl same_plan_trans
             (fun _ => True) (fun g0 s nd nd' _ => same_plan_node g0 s nd nd')
             same_plan_set (fun g0 k v => same_plan_other g0 _) C (fun _ => I)).
  - intros step output.
    apply (keeps_mark_done same_plan same_plan_refl same_plan_trans
             (fun _ => True) (fun g0 s nd nd' _ => same_plan_node g0 s nd nd')
             same_plan_set (fun g0 k v => same_plan_other g0 _) C step output I).
Qed.

(** ** What [mark_done] leaves behind *)

Lemma bind_ok {W A B} (c : M W A) (k : A -> M W B) g w b g' w' :
  bind c k g w = (Ok b, g', w') ->
  exists a g1 w1, c g w = (Ok a, g1, w1) /\ k a g1 w1 = (Ok b, g', w').
Proof.
  unfold bind. destruct (c g w) as [[[a|e] g1] w1]; intros H; [|discriminate H].
  now exists a, g1, w1.
Qed.

Lemma get_step_data_ok {W} step g w nd g' (w' : W) :
  get_step_data step g w = (Ok nd, g', w') ->
  Dict.get step (nodes g) = Some nd /\ g' = g /\ w' = w.
Proof.
  unfold get_step_data, bind, get_graph, ret, raise.
  destruct (Dict.get step (nodes g)); intros H; inversion H. now subst.
Qed.

Lemma phases_keep_nodes {W} (C : collaborators W) :
  (forall agent_type output, keeps same_nodes (interaction_phase C agent_type output)) /\
  (forall step output, keeps same_nodes (execution_phase C step output)).
Proof.
  assert (Hr : forall g, same_nodes g g) by reflexivity.
  assert (Ht : forall g1 g2 g3, same_nodes g1 g2 -> same_nodes g2 g3 -> same_nodes g1 g3).
  { unfold same_nodes. congruence. }
  split; intros.
  - apply keeps_interaction_phase; auto; intros g k v; now destruct g.
  - apply keeps_execution_phase; auto.
Qed.

Lemma mark_done_ok {W} (C : collaborators W) step output g w g' w' :
  mark_done C step output g w = (Ok tt, g', w') ->
  exists nd out er g2,
    Dict.get step (nodes g) = Some nd /\ nodes g2 = nodes g /\
    let run := extract_writes (json_loads C)
                 (match agent nd with Some a => a | None => "" end) step out er
                 (match writes nd with Some l => l | None => [] end)
                 (globals_schema g2) in
    fst run = Ok tt /\
    g' = with_nodes (Dict.set step (set_output out (set_status "completed" nd)) (nodes g2))
           (with_globals (snd run) g2).
Proof.
  intros H. unfold mark_done in H.
  apply bind_ok in H as (nd & g0 & w0 & Hnd & H).
  apply get_step_data_ok in Hnd as (Hnd & -> & ->).
  apply bind_ok in H as (o & g1 & w1 & Hi & H).
  apply bind_ok in H as ([out er] & g2 & w2 & He & H).
  apply bind_ok in H as ([] & g3 & w3 & Hc & Ht).
  pose proof (proj1 (phases_keep_nodes C)
                (match agent nd with Some a => a | None => "" end) output g w) as N1.
  pose proof (proj2 (phases_keep_nodes C) step o g1 w1) as N2.
  rewrite Hi in N1. rewrite He in N2. unfold same_nodes, graph_of in N1, N2.
  cbn [fst snd] in *.
  assert (g' = g3) as ->.
  { unfold total_tokens in Ht. destruct (can_add _ _); inversion Ht. reflexivity. }
  exists nd, out, er, g2. split; [exact Hnd|]. split; [congruence|]. cbv zeta.
  unfold complete_step in Hc.
  apply bind_ok in Hc as (gx & gy & wy & Hg & Hc). inversion Hg. subst gx gy wy.
  apply bind_ok in Hc as ([] & gy & wy & Hm & Hc). inversion Hm. subst gy wy.
  apply bind_ok in Hc as ([] & gy & wy & Hl & Hc).
  unfold lift_outcome in Hl. injection Hl as E1 E2 E3.
  subst gy wy. split; [exact E1|].
  unfold update_step_data in Hc.
  apply bind_ok in Hc as (nd' & gy & wy & Hg' & Hc).
  apply get_step_data_ok in Hg' as (Hg' & -> & ->).
  cbn [nodes with_globals] in Hg'. rewrite N2, N1, Hnd in Hg'. inversion Hg'. subst nd'.
  inversion Hc. reflexivity.
Qed.

Lemma mark_done_run {W} (C : collaborators W) step agent_output g w g' w' :
  mark_done C step agent_output g w = (Ok tt, g', w') ->
  exists nd o g1 w1 out er,
    Dict.get step (nodes g) = Some nd /\
    interaction_phase C (match agent nd with Some a => a | None => "" end)
      agent_output g w = (Ok o, g1, w1) /\
    execution_phase C step o g1 w1 = (Ok (out, er), g1, w') /\
    let run := extract_writes (json_loads C)
                 (match agent nd with Some a => a | None => "" end) step out er
                 (match writes nd with Some l => l | None => [] end)
                 (globals_schema g1) in
    fst run = Ok tt /\
    g' = with_nodes (Dict.set step (set_output out (set_status "completed" nd)) (nodes g))
           (with_globals (snd run) g1).
Proof.
  intros H. unfold mark_done in H.
  apply bind_ok in H as (nd & g0 & w0 & Hnd & H).
  apply get_step_data_ok in Hnd as (Hnd & -> & ->).
  apply bind_ok in H as (o & g1 & w1 & Hi & H).
  apply bind_ok in H as ([out er] & g2 & w2 & He & H).
  apply bind_ok in H as ([] & g3 & w3 & Hc & Ht).
  pose proof (proj1 (phases_keep_nodes C)
                (match agent nd with Some a => a | None => "" end) agent_output g w) as N1.
  assert (N2 : graph_of (execution_phase C step o g1 w1) = g1).
  { apply (keeps_execution_phase (fun g0 g1 => g1 = g0)); auto. congruence. }
  rewrite Hi in N1. rewrite He in N2. unfold same_nodes, graph_of in N1, N2.
  cbn [fst snd] in *. subst g2.
  assert (g' = g3 /\ w' = w3) as [-> ->].
  { unfold total_tokens in Ht. destruct (can_add _ _); inversion Ht. auto. }
  unfold complete_step in Hc.
  apply bind_ok in Hc as (gx & gy & wy & Hg & Hc). inversion Hg. subst gx gy wy.
  apply bind_ok in Hc as ([] & gy & wy & Hm & Hc). inversion Hm. subst gy wy.
  apply bind_ok in Hc as ([] & gy & wy & Hl & Hc).
  unfold lift_outcome in Hl. injection Hl as E1 E2 E3.
  subst gy wy.
  unfold update_step_data in Hc.
  apply bind_ok in Hc as (nd' & gy & wy & Hg' & Hc).
  apply get_step_data_ok in Hg' as (Hg' & -> & ->).
  cbn [nodes with_globals] in Hg'. rewrite N1, Hnd in Hg'. inversion Hg'. subst nd'.
  unfold modify_graph in Hc. injection Hc as E4 E5.
  cbn [nodes with_globals] in E4. rewrite N1 in E4.
  exists nd, o, g1, w1, out, er. subst w3.
  split; [exact Hnd|]. split; [exact Hi|]. split; [exact He|]. cbv zeta.
  split; [exact E1|]. now symmetry.
Qed.

(** X6.  What a [mark_done] that returns leaves behind.  The step is a
    node of the graph and is now completed; no other node changed; the
    output recorded in the node is the one the interaction phase and then
    the execution phase of this call returned; and every key of the
    node's writes is bound in the VariableStore to the value the
    extraction strategies give for that key on that output and on the
    execution result of that execution phase. *)
Theorem mark_done_postcondition
        {W : Type} (C : collaborators W) (step : string) (agent_output : pyval)
        (g g' : DiGraph) (w w' : W) :
  mark_done C step agent_output g w = (Ok tt, g', w') ->
  exists nd o g1 w1 out er,
    Dict.get step (nodes g) = Some nd /\
    interaction_phase C (match agent nd with Some a => a | None => "" end)
      agent_output g w = (Ok o, g1, w1) /\
    execution_phase C step o g1 w1 = (Ok (out, er), g1, w') /\
    status (node_attrs g' step) = Some "completed" /\
    output (node_attrs g' step) = out /\
    (forall n, n <> step -> Dict.get n (nodes g') = Dict.get n (nodes g)) /\
    forall k, In k (match writes nd with Some l => l | None => [] end) ->
      exists st v,
        extract_key (json_loads C) (match agent nd with Some a => a | None => "" end)
          step out er k = Ok (st, v) /\
        Dict.get k (globals_schema g') = Some v.
Proof.
  intros H.
  apply mark_done_run in H as (nd & o & g1 & w1 & out & er & Hnd & Hi & He & Hok & ->).
  exists nd, o, g1, w1, out, er.
  split; [exact Hnd|]. split; [exact Hi|]. split; [exact He|]. unfold node_attrs.
  cbn [nodes with_nodes globals_schema with_globals]. rewrite get_set_same.
  split; [reflexivity|]. split; [reflexivity|]. split.
  - intros n Hne. now rewrite get_set_other by exact Hne.
  - intros k Hk. apply (bound_after_run _ _ _ _ _ _ _ _ Hk Hok).
Qed.

Lemma mark_done_postcondition_witness :
  let C := Examples.executor_returning [("k", PInt 7)] in
  let g := Examples.built Examples.coded_plan in
  let g' := graph_of (mark_done C "T1" Examples.coded_output g tt) in
  mark_done C "T1" Examples.coded_output g tt = (Ok tt, g', tt) /\
  Dict.get "k" (globals_schema g') = Some (PInt 7) /\
  exists nd o g1 w1 out er,
    Dict.get "T1" (nodes g) = Some nd /\
    interaction_phase C (match agent nd with Some a => a | None => "" end)
      Examples.coded_output g tt = (Ok o, g1, w1) /\
    execution_phase C "T1" o g1 w1 = (Ok (out, er), g1, tt) /\
    status (node_attrs g' "T1") = Some "completed" /\
    output (node_attrs g' "T1") = out /\
    (forall n, n <> "T1" -> Dict.get n (nodes g') = Dict.get n (nodes g)) /\
    forall k, In k (match writes nd with Some l => l | None => [] end) ->
      exists st v,
        extract_key (json_loads C) (match agent nd with Some a => a | None => "" end)
          "T1" out er k = Ok (st, v) /\
        Dict.get k (globals_schema g') = Some v.
Proof.
  cbv zeta. split; [vm_compute; reflexivity|]. split; [vm_compute; reflexivity|].
  apply (mark_done_postcondition (Examples.executor_returning [("k", PInt 7)]) "T1"
           Examples.coded_output (Examples.built Examples.coded_plan) _ tt tt).
  vm_compute. reflexivity.
Defined.

(** ** Nodes that can never run *)

Lemma blocked_not_ready S g n : blocked_set S g -> S n -> ~ In n (get_ready_steps g).
Proof.
  intros Hb Hn Hr. apply ready_iff in Hr as (_ & Hroot & _ & _ & _ & Hall).
  destruct (Hb n Hn) as (_ & [E|(u & Hu & Su)]); [contradiction|].
  specialize (Hall u Hu). destruct (Hb u Su) as (Hp & _). congruence.
Qed.

Lemma blocked_round S g g' :
  only_changes (get_ready_steps g) g g' -> blocked_set S g -> blocked_set S g'.
Proof.
  intros (Hp & _ & Hst) Hb n Hn. destruct (Hb n Hn) as (Hpend & Hdep). split.
  - rewrite <- Hpend. apply status_node_status, Hst. now apply (blocked_not_ready S).
  - unfold predecessors. rewrite Hp. exact Hdep.
Qed.

Lemma dag_loop_invariant {W} (C : collaborators W) max (I : DiGraph -> Prop) :
  (forall g g', only_changes (get_ready_steps g) g g' -> I g -> I g') ->
  forall remaining g w,
    I g -> I (graph_of (dag_loop C (_execute_step_bounded C max) remaining g w)).
Proof.
  intros Hstep. induction remaining as [|remaining IH]; intros g w Hg; simpl; [exact Hg|].
  unfold bind, get_graph, lift_outcome, graph_of. cbn [fst snd].
  destruct (all_done g) as [[|]|e]; cbn [fst snd]; try exact Hg.
  pose proof (dag_round_only_changes C max g w) as Hr. unfold graph_of in Hr.
  destruct (dag_round C (_execute_step_bounded C max) g w) as [[[[|]|e] g1] w1];
    cbn [fst snd] in *.
  - apply IH. eapply Hstep; eauto.
  - eapply Hstep; eauto.
  - eapply Hstep; eauto.
Qed.

Lemma execute_dag_result {W} (C : collaborators W) g w :
  let g' := graph_of (dag_loop C (_execute_step C) max_iterations_default g w) in
  graph_of (_execute_dag C g w) = g' /\
  (fst (fst (_execute_dag C g w)) = Ok true -> all_done g' = Ok true).
Proof.
  cbv zeta. unfold _execute_dag, bind, get_graph, lift_outcome, graph_of.
  destruct (dag_loop C (_execute_step C) max_iterations_default g w) as [[[[]|e] g1] w1];
    cbn [fst snd]; split; auto. intros H; discriminate H.
Qed.

Lemma blocked_run {W} (C : collaborators W) S g w :
  blocked_set S g ->
  (forall n, S n -> node_status (graph_of (_execute_dag C g w)) n = "pending") /\
  ((exists n, S n /\ In n (Dict.keys (nodes g))) ->
   fst (fst (_execute_dag C g w)) <> Ok true).
Proof.
  intros Hb. destruct (execute_dag_result C g w) as (Hg & Hres). cbv zeta in *.
  set (g' := graph_of (dag_loop C (_execute_step C) max_iterations_default g w)) in *.
  assert (HI : blocked_set S g' /\ Dict.keys (nodes g') = Dict.keys (nodes g)).
  { apply (dag_loop_invariant C max_iterations_default
             (fun g1 => blocked_set S g1 /\ Dict.keys (nodes g1) = Dict.keys (nodes g))).
    - intros g1 g2 Hoc (Hb1 & Hk1). split; [eapply blocked_round; eauto|].
      destruct Hoc as (_ & Hk & _). congruence.
    - split; [exact Hb | reflexivity]. }
  destruct HI as (Hb' & Hk'). rewrite Hg. split.
  - intros n Hn. apply (Hb' n Hn).
  - intros (n & Hn & Hin) Hok. apply Hres in Hok. unfold all_done in Hok.
    apply all_done_from_terminal with (n := n) in Hok; [|now rewrite Hk'].
    destruct (Hb' n Hn) as (Hp & _). rewrite Hp in Hok. simpl in Hok.
    intuition discriminate.
Qed.

Lemma path_last p a b :
  plan_path p a b ->
  exists u, In (edge u b) (plan_edges p) /\ (u = a \/ plan_path p a u).
Proof.
  induction 1 as [u v He | u v x He Hp (y & Hy & Hor)].
  - exists u. auto.
  - exists y. split; [exact Hy|]. right. destruct Hor as [->|Hor].
    + now apply path_edge.
    + now apply path_step with v.
Qed.

Lemma cycle_predecessor p n :
  on_cycle p n -> exists u, In (edge u n) (plan_edges p) /\ on_cycle p u.
Proof.
  intros Hn. destruct (path_last p n n Hn) as (u & Hu & [->|Hp]).
  - exists n. auto.
  - exists u. split; [exact Hu|]. unfold on_cycle. now apply path_step with n.
Qed.

(** X7.  A plan with a cycle is constructed like any other, and is then
    never finished.  When the root is on no cycle, every node on a cycle
    of the plan's edges is still pending after the whole run, whatever
    the workers do, and the run does not end with every task completed
    ("All tasks completed!" is not printed). *)
Theorem cyclic_plan_never_completes
        {W : Type} (C : collaborators W) (p : plan) (g : DiGraph) (w : W) (n : string) :
  init p = Ok g -> ~ on_cycle p ROOT -> on_cycle p n ->
  node_status (graph_of (_execute_dag C g w)) n = "pending" /\
  fst (fst (_execute_dag C g w)) <> Ok true.
Proof.
  intros Hi Hroot Hn.
  destruct (init_facts p g Hi) as (_ & Hp & _ & He).
  assert (Hb : blocked_set (on_cycle p) g).
  { intros m Hm. split.
    - apply Hp. intros ->. contradiction.
    - right. destruct (cycle_predecessor p m Hm) as (u & Hu & Hc).
      exists u. split; [apply (He u m Hu) | exact Hc]. }
  destruct (blocked_run C (on_cycle p) g w Hb) as (Hpend & Hnot).
  split; [now apply Hpend|]. apply Hnot. exists n. split; [exact Hn|].
  destruct (cycle_predecessor p n Hn) as (u & Hu & _).
  apply mem_keys. apply (He u n Hu).
Qed.

Lemma cyclic_plan_never_completes_witness :
  let g := Examples.built Examples.cyclic_plan in
  node_status (graph_of (_execute_dag Examples.unavailable g tt)) "A" = "pending" /\
  fst (fst (_execute_dag Examples.unavailable g tt)) <> Ok true.
Proof.
  cbv zeta.
  apply (cyclic_plan_never_completes Examples.unavailable Examples.cyclic_plan).
  - reflexivity.
  - intros H. apply cycle_predecessor in H as (u & Hu & _).
    simpl in Hu. destruct Hu as [Hu|[Hu|[]]]; discriminate Hu.
  - apply path_step with "B"; [simpl; auto|]. apply path_edge. simpl; auto.
Defined.

(** ** The graph [__init__] builds, seen from the plan *)

Lemma add_plan_nodes_get_other pns g g' m :
  add_plan_nodes pns g = Ok g' ->
  (forall pn, In pn pns -> pn_id pn <> Some m) ->
  Dict.get m (nodes g') = Dict.get m (nodes g).
Proof.
  intros H Hm.
  apply (add_plan_nodes_inv (fun g0 => Dict.get m (nodes g0) = Dict.get m (nodes g))
           pns) with (g := g) (g' := g'); auto.
  intros pn i g0 Hin Hi IH. rewrite get_add_node_other; auto.
  intros ->. now apply (Hm pn Hin).
Qed.

Lemma add_plan_edges_get_old es g g' m :
  add_plan_edges es g = Ok g' -> has_node g m = true ->
  Dict.get m (nodes g') = Dict.get m (nodes g).
Proof.
  intros H Hm.
  apply (add_plan_edges_inv
           (fun g0 => has_node g0 m = true /\ Dict.get m (nodes g0) = Dict.get m (nodes g))
           es) with (g := g) (g' := g'); auto.
  intros u v g0 _ (Hh & Hg). split.
  - apply has_node_add_edge. auto.
  - rewrite nodes_add_edge, !get_ensure_old; auto.
    apply has_node_ensure. auto.
Qed.

Lemma add_plan_edges_predecessors es g g' :
  closed g -> add_plan_edges es g = Ok g' ->
  forall u v, In u (predecessors g' v) <-> In (edge u v) es \/ In u (predecessors g v).
Proof.
  intros Hc H u v. split; [|now apply (add_plan_edges_records es g g')].
  revert g Hc H. induction es as [|[[a|] [b|]] es IH]; intros g Hc H Hin; simpl in H;
    try discriminate.
  - inversion H. subst. now right.
  - apply (IH _ (closed_add_edge a b g Hc) H) in Hin. destruct Hin as [Hin|Hin].
    + left. now right.
    + apply predecessors_add_edge in Hin; auto. destruct Hin as [[-> ->]|Hin].
      * left. now left.
      * now right.
Qed.

Lemma has_node_root_graph : has_node (add_node ROOT root_attrs empty_graph) ROOT = true.
Proof. apply has_node_add_node. now left. Qed.

(** The edges of the graph are the edges of the plan. *)
Lemma init_predecessors p g u v :
  init p = Ok g -> (In u (predecessors g v) <-> In (edge u v) (plan_edges p)).
Proof.
  unfold init. intros H.
  destruct (add_plan_nodes (plan_nodes p) (add_node ROOT root_attrs empty_graph))
    as [g1|e] eqn:E1; [|discriminate].
  destruct root_graph_facts as (Hc0 & _ & _).
  assert (H1 : closed g1 /\ forall x y, ~ In x (predecessors g1 y)).
  { refine (add_plan_nodes_inv (fun g => closed g /\ forall x y, ~ In x (predecessors g y))
              (plan_nodes p) _ _ g1 _ E1).
    - intros pn i g0 _ _ (Hc & Hn). split; [now apply closed_add_node|].
      intros x y. rewrite predecessors_add_node by assumption. apply Hn.
    - split; [exact Hc0|]. intros x y Hin. unfold predecessors in Hin.
      cbn -[String.eqb] in Hin. destruct (String.eqb ROOT y); cbn in Hin; contradiction. }
  destruct H1 as (Hc1 & Hn1).
  rewrite (add_plan_edges_predecessors _ _ _ Hc1 H u v). split; [|auto].
  intros [Hin|Hin]; [exact Hin | now apply Hn1 in Hin].
Qed.

(** The root keeps its attributes when no plan node takes its id. *)
Lemma init_root_completed p g :
  init p = Ok g -> ~ In ROOT (plan_ids p) -> node_status g ROOT = "completed".
Proof.
  unfold init. intros H Hroot.
  destruct (add_plan_nodes (plan_nodes p) (add_node ROOT root_attrs empty_graph))
    as [g1|e] eqn:E1; [|discriminate].
  assert (H1 : Dict.get ROOT (nodes g1) = Some root_attrs).
  { rewrite (add_plan_nodes_get_other _ _ _ ROOT E1).
    - apply get_add_node_same.
    - intros pn Hin Hi. apply Hroot. eapply in_plan_ids; eauto. }
  unfold node_status, node_attrs.
  rewrite (add_plan_edges_get_old _ _ _ ROOT H), H1; [reflexivity|].
  unfold has_node, Dict.mem. now rewrite H1.
Qed.

(** X8.  The steps of the first round.  For a plan in which no node
    takes the id ROOT, the steps that are ready right after construction
    are exactly the nodes other than the root each of whose incoming plan
    edges comes from ROOT (nodes without incoming edges included). *)
Theorem first_ready_steps (p : plan) (g : DiGraph) (n : string) :
  init p = Ok g -> ~ In ROOT (plan_ids p) ->
  (In n (get_ready_steps g) <->
   has_node g n = true /\ n <> ROOT /\
   forall u, In (edge u n) (plan_edges p) -> u = ROOT).
Proof.
  intros Hi Hroot. destruct (init_facts p g Hi) as (_ & Hp & _).
  pose proof (init_root_completed p g Hi Hroot) as Hr.
  rewrite ready_iff. unfold ready_spec. rewrite <- mem_keys. fold (has_node g n).
  split.
  - intros (Hn & Hne & _ & _ & _ & Hall). split; [exact Hn|]. split; [exact Hne|].
    intros u Hu. apply (init_predecessors p g u n Hi) in Hu. specialize (Hall u Hu).
    destruct (String.eqb_spec u ROOT) as [E|E]; [exact E|].
    rewrite (Hp u E) in Hall. discriminate Hall.
  - intros (Hn & Hne & Hall). rewrite (Hp n Hne).
    repeat (split; [first [assumption | discriminate]|]).
    intros u Hu. apply (init_predecessors p g u n Hi) in Hu.
    now rewrite (Hall u Hu).
Qed.

Lemma first_ready_steps_witness :
  get_ready_steps (Examples.built Examples.chain_plan) = ["A"] /\
  (In "B" (get_ready_steps (Examples.built Examples.chain_plan)) <->
   has_node (Examples.built Examples.chain_plan) "B" = true /\ "B" <> ROOT /\
   forall u, In (edge u "B") (plan_edges Examples.chain_plan) -> u = ROOT).
Proof.
  split; [reflexivity|].
  apply (first_ready_steps Examples.chain_plan); [reflexivity|].
  simpl. intros [H|[H|[]]]; discriminate H.
Defined.

Lemma add_plan_nodes_root_pending pns :
  forall g g',
    add_plan_nodes pns g = Ok g' -> has_node g ROOT = true ->
    status (node_attrs g ROOT) = Some "pending" \/
    (exists pn, In pn pns /\ pn_id pn = Some ROOT) ->
    has_node g' ROOT = true /\ status (node_attrs g' ROOT) = Some "pending".
Proof.
  induction pns as [|pn pns IH]; intros g g' H Hh Hor; simpl in H.
  - inversion H. subst. split; [exact Hh|].
    destruct Hor as [Hs|(pn & [] & _)]. exact Hs.
  - destruct (pn_id pn) as [i|] eqn:Ei; [|discriminate].
    destruct (carries_reserved_key pn) eqn:Er; [discriminate H|].
    apply (IH _ _ H); [apply has_node_add_node; auto|].
    destruct (String.eqb_spec i ROOT) as [->|Hne].
    + left. unfold node_attrs. rewrite get_add_node_same.
      now destruct (Dict.get ROOT (nodes g)).
    + destruct Hor as [Hs|(pn' & [<-|Hin] & Hi)].
      * left. unfold node_attrs in *. rewrite get_add_node_other; auto.
      * congruence.
      * right. now exists pn'.
Qed.

(** X9.  A plan node that takes the id ROOT overwrites the root: after
    construction the root is pending instead of completed, and since the
    root is never scheduled, it and every node with an edge from ROOT are
    still pending after the whole run, which does not end with every
    task completed. *)
Theorem root_id_collision
        {W : Type} (C : collaborators W) (p : plan) (g : DiGraph) (w : W) :
  init p = Ok g -> In ROOT (plan_ids p) ->
  node_status g ROOT = "pending" /\
  (forall n, n = ROOT \/ In (edge ROOT n) (plan_edges p) ->
             node_status (graph_of (_execute_dag C g w)) n = "pending") /\
  fst (fst (_execute_dag C g w)) <> Ok true.
Proof.
  intros Hi Hin. destruct (init_facts p g Hi) as (_ & Hp & _).
  assert (Hroot : has_node g ROOT = true /\ node_status g ROOT = "pending").
  { unfold init in Hi.
    destruct (add_plan_nodes (plan_nodes p) (add_node ROOT root_attrs empty_graph))
      as [g1|e] eqn:E1; [|discriminate].
    destruct (add_plan_nodes_root_pending _ _ _ E1 has_node_root_graph) as (Hh & Hs).
    { right. unfold plan_ids in Hin. apply in_flat_map in Hin as (pn & Hpn & Hid).
      exists pn. split; [exact Hpn|]. destruct (pn_id pn) as [i|]; [|contradiction].
      destruct Hid as [->|[]]. reflexivity. }
    pose proof (add_plan_edges_get_old _ _ _ ROOT Hi Hh) as Hg. split.
    - unfold has_node, Dict.mem in *. rewrite Hg. exact Hh.
    - unfold node_status, get_status, node_attrs in *. rewrite Hg. now rewrite Hs. }
  destruct Hroot as (Hh & Hs). split; [exact Hs|].
  set (S := fun n => n = ROOT \/ In (edge ROOT n) (plan_edges p)).
  assert (Hb : blocked_set S g).
  { intros n Hn. split.
    - destruct (String.eqb_spec n ROOT) as [->|Hne]; [exact Hs | now apply Hp].
    - destruct Hn as [->|He]; [now left|]. right. exists ROOT. split; [|now left].
      now apply (init_predecessors p g ROOT n Hi). }
  destruct (blocked_run C S g w Hb) as (Hpend & Hnot). split; [exact Hpend|].
  apply Hnot. exists ROOT. split; [now left|]. now apply mem_keys.
Qed.

Lemma root_id_collision_witness :
  let p := {| plan_nodes := [Examples.step "ROOT" "CoderAgent" [] [];
                             Examples.step "A" "CoderAgent" [] ["x"]];
              plan_edges := [edge "ROOT" "A"] |} in
  get_ready_steps (Examples.built p) = [] /\
  node_status (Examples.built p) ROOT = "pending" /\
  (forall n, n = ROOT \/ In (edge ROOT n) (plan_edges p) ->
     node_status (graph_of (_execute_dag Examples.unavailable (Examples.built p) tt)) n
       = "pending") /\
  fst (fst (_execute_dag Examples.unavailable (Examples.built p) tt)) <> Ok true.
Proof.
  cbv zeta. split; [reflexivity|].
  apply (root_id_collision Examples.unavailable
           {| plan_nodes := [Examples.step "ROOT" "CoderAgent" [] [];
                             Examples.step "A" "CoderAgent" [] ["x"]];
              plan_edges := [edge "ROOT" "A"] |}).
  - reflexivity.
  - simpl. now left.
Defined.

(** ** What a round of the driver settles *)

Lemma mark_failed_ok {W} step err g (w : W) g' w' :
  mark_failed step err g w = (Ok tt, g', w') ->
  status (node_attrs g' step) = Some "failed".
Proof.
  unfold mark_failed. intros H.
  apply bind_ok in H as ([] & g1 & w1 & Hu & H).
  unfold update_step_data in Hu.
  apply bind_ok in Hu as (nd & g0 & w0 & Hg & Hu).
  apply get_step_data_ok in Hg as (Hg & -> & ->).
  unfold modify_graph in Hu. injection Hu as <- <-.
  apply bind_ok in H as (nd' & g2 & w2 & Hg' & H).
  apply get_step_data_ok in Hg' as (Hg' & -> & ->).
  destruct (start_time nd'); inversion H. subst.
  unfold node_attrs. cbn [nodes with_nodes]. now rewrite get_set_same.
Qed.

Lemma process_results_settles {W} (C : collaborators W) rs :
  forall g w g' w',
    process_results C rs g w = (Ok tt, g', w') ->
    forall s, In s (map fst rs) -> In (node_status g' s) ["completed"; "failed"].
Proof.
  induction rs as [|[s0 r0] rest IH]; intros g w g' w' H s Hs; [destruct Hs|].
  cbn [process_results] in H. apply bind_ok in H as ([] & g1 & w1 & H0 & H).
  destruct (in_dec string_dec s (map fst rest)) as [Hin|Hout];
    [exact (IH _ _ _ _ H s Hin)|].
  destruct Hs as [Hs|Hs]; [|contradiction]. cbn [fst] in Hs. subst s0.
  assert (H1 : In (node_status g1 s) ["completed"; "failed"]).
  { unfold node_status, get_status. destruct r0 as [r|e].
    - destruct (success r).
      + destruct (mark_done_ok C _ _ _ _ _ _ H0) as (nd & out & er & g2 & _ & _ & _ & ->).
        unfold node_attrs. cbn [nodes with_nodes]. rewrite get_set_same. simpl. auto.
      + destruct (result_error r); [|discriminate H0].
        rewrite (mark_failed_ok _ _ _ _ _ _ H0). simpl. auto.
    - rewrite (mark_failed_ok _ _ _ _ _ _ H0). simpl. auto. }
  pose proof (touches_process_results C rest g1 w1) as (_ & _ & Hst).
  rewrite H in Hst. unfold graph_of in Hst. cbn [fst snd] in Hst.
  now rewrite (status_node_status _ _ _ (Hst s Hout)).
Qed.

Lemma dag_round_settles {W} (C : collaborators W) max g g' (w w' : W) go_on s :
  dag_round C (_execute_step_bounded C max) g w = (Ok go_on, g', w') ->
  In s (get_ready_steps g) ->
  In (node_status g' s) ["completed"; "failed"].
Proof.
  unfold dag_round. intros H Hs.
  apply bind_ok in H as (g0 & g1 & w1 & Hg & H). inversion Hg. subst g0 g1 w1.
  destruct (get_ready_steps g) as [|s0 ready] eqn:Er; [destruct Hs|].
  apply bind_ok in H as ([] & g1 & w1 & _ & H).
  apply bind_ok in H as (rs & g2 & w2 & Hga & H).
  apply bind_ok in H as ([] & g3 & w3 & Hp & H).
  inversion H. subst.
  apply (process_results_settles C rs _ _ _ _ Hp).
  now rewrite (gather_steps _ _ _ _ _ _ _ Hga).
Qed.

(** X10.  A round of the driver that returns has settled every step it
    started: each step that was ready at the start of the round is
    completed or failed at its end, none is left pending or running.
    (A round that does not return has raised out of [mark_done] or
    [mark_failed], and the run ends with that exception.) *)
Theorem round_settles_ready_steps
        {W : Type} (C : collaborators W) (max_iterations : nat)
        (g g' : DiGraph) (w w' : W) (go_on : bool) (s : string) :
  dag_round C (_execute_step_bounded C max_iterations) g w = (Ok go_on, g', w') ->
  In s (get_ready_steps g) ->
  In (node_status g' s) ["completed"; "failed"].
Proof. apply dag_round_settles. Qed.

Lemma round_settles_ready_steps_witness :
  let g := Examples.built Examples.chain_plan in
  let r := dag_round Examples.unavailable
             (_execute_step_bounded Examples.unavailable 20) g tt in
  get_ready_steps g = ["A"] /\ fst (fst r) = Ok true /\
  In (node_status (graph_of r) "A") ["completed"; "failed"].
Proof.
  cbv zeta. split; [reflexivity|]. split; [reflexivity|].
  apply (round_settles_ready_steps Examples.unavailable 20
           (Examples.built Examples.chain_plan) _ tt tt true "A").
  - reflexivity.
  - simpl. now left.
Defined.

(** ** Code that fails in every variant *)

Lemma bind_eq {W A B} (c : M W A) (k : A -> M W B) g w a g1 w1 :
  c g w = (Ok a, g1, w1) -> bind c k g w = k a g1 w1.
Proof. unfold bind. now intros ->. Qed.

Lemma extract_key_unsuccessful json agent_type step_id output er k :
  (output = PNone \/ exists od, output = PDict od) ->
  result_is_mapping er -> unsuccessful er ->
  exists st v, extract_key json agent_type step_id output er k = Ok (st, v).
Proof.
  intros Hout Her Hun. unfold extract_key.
  assert (Hx : try_execution json er k = Ok None).
  { destruct er as [[|kv e]|]; try reflexivity. cbn [try_execution].
    cbn [unsuccessful] in Hun. now rewrite Hun. }
  rewrite Hx.
  destruct (try_output output k) as [[st v]|]; [eauto|].
  assert (Hf : exists r, try_formatter agent_type step_id output k = Ok r).
  { unfold try_formatter. destruct Hout as [->|[od ->]].
    - cbn [truthy]. rewrite andb_false_r. eauto.
    - destruct (andb _ _); [|eauto]. unfold extract_formatter.
      destruct (first_pattern od _); eauto.
      destruct (first_item _ od); eauto.
      destruct (first_item _ od); eauto. }
  destruct Hf as [[[st v]|] ->]; [eauto|].
  rewrite extract_fallback_spec; auto.
  destruct (fallback_spec output er). eauto.
Qed.

Lemma extract_writes_unsuccessful json agent_type step_id output er ws gs :
  (output = PNone \/ exists od, output = PDict od) ->
  result_is_mapping er -> unsuccessful er ->
  fst (extract_writes json agent_type step_id output er ws gs) = Ok tt.
Proof.
  intros Hout Her Hun. revert gs. induction ws as [|k ws IH]; intros gs; simpl; auto.
  destruct (extract_key_unsuccessful json agent_type step_id output er k Hout Her Hun)
    as (st & v & ->).
  apply IH.
Qed.

Lemma run_variants_fail {W} (C : collaborators W) variants od rs g w :
  never_succeeds C ->
  exists w',
    run_variants C variants od rs g w =
    (Ok [("status", PStr "error"); ("error", PStr "All code variants failed")], g, w').
Proof.
  intros Hn. revert w. induction variants as [|[code_key code] rest IH]; intros w.
  - exists w. reflexivity.
  - cbn [run_variants]. unfold bind at 1, get_graph at 1. cbn [fst snd].
    specialize (Hn code_key code (whole_store g) od rs w).
    unfold bind at 1, try_except, bind at 1, call.
    destruct (run_user_code C code_key code (whole_store g) od rs w)
      as [[r|e] w1]; cbn [fst] in Hn.
    + destruct r; try (unfold raise, ret; cbn [fst snd]; apply IH).
      rewrite Hn. unfold ret. apply IH.
    + unfold ret. apply IH.
Qed.

Lemma execution_phase_fail {W} (C : collaborators W) step nd od g w :
  never_succeeds C -> Dict.get step (nodes g) = Some nd ->
  exists out er w',
    execution_phase C step (PDict od) g w = (Ok (PDict out, er), g, w') /\
    result_is_mapping er /\ unsuccessful er.
Proof.
  intros Hn Hg. unfold execution_phase.
  destruct (_has_executable_code (PDict od));
    [|exists od, None, w; repeat split; reflexivity].
  unfold try_except, bind at 1, _auto_execute_code.
  unfold bind at 1, lift_outcome.
  destruct (_extract_executable_code od) as [[|kv variants]|e];
    [| |exists od, None, w; repeat split; reflexivity].
  - unfold ret.
    destruct (_merge_execution_results (json_loads C) od _) as [merged|e];
      [exists merged | exists od]; eexists; exists w; repeat split; reflexivity.
  - rewrite (bind_eq _ _ g w nd g w) by (unfold get_step_data, bind, get_graph, ret;
                                          now rewrite Hg).
    destruct (run_variants_fail C (kv :: variants) od
                (match reads nd with Some rs => rs | None => [] end) g w Hn) as (w' & ->).
    destruct (_merge_execution_results (json_loads C) od _) as [merged|e];
      [exists merged | exists od]; eexists; exists w'; repeat split; reflexivity.
Qed.

(** X11.  A failure of the generated code is swallowed.  When the code
    executor never reports a success (every variant raises or returns
    another status), [mark_done] on a worker output with code still
    returns normally: for any step of the graph whose output is a dict,
    asks nothing of the user and has token counters that can be summed,
    the node is completed, not failed, and every write key is bound. *)
Theorem failed_code_is_swallowed
        {W : Type} (C : collaborators W) (g : DiGraph) (w : W)
        (step : string) (nd : node_data) (od : dict) :
  Dict.get step (nodes g) = Some nd ->
  never_succeeds C ->
  _is_clarification_request (match agent nd with Some a => a | None => "" end) (PDict od)
    = false ->
  counters_add (PDict od) = true ->
  exists g' w',
    mark_done C step (PDict od) g w = (Ok tt, g', w') /\
    node_status g' step = "completed" /\
    forall k, In k (match writes nd with Some l => l | None => [] end) ->
              Dict.mem k (globals_schema g') = true.
Proof.
  intros Hg Hn Hq Hadd.
  destruct (execution_phase_fail C step nd od g w Hn Hg) as (out & er & w' & He & Hm & Hu).
  pose proof (extract_writes_unsuccessful (json_loads C)
                (match agent nd with Some a => a | None => "" end) step (PDict out) er
                (match writes nd with Some l => l | None => [] end)
                (globals_schema g) (or_intror (ex_intro _ out eq_refl)) Hm Hu) as Hok.
  destruct (complete_step_ok C _ step _ (PDict out) er g w' nd Hg Hok) as (Hc & Hs & Hgs).
  eexists. exists w'. split; [|split; [exact Hs|]].
  - unfold mark_done.
    rewrite (bind_eq _ _ g w nd g w) by (unfold get_step_data, bind, get_graph, ret;
                                          now rewrite Hg).
    cbv zeta.
    rewrite (bind_eq _ _ g w (PDict od) g w) by (unfold interaction_phase; now rewrite Hq).
    rewrite (bind_eq _ _ g w _ _ _ He). cbn [fst snd].
    rewrite (bind_eq _ _ g w' _ _ _ Hc).
    unfold total_tokens. unfold counters_add in Hadd. rewrite Hadd. reflexivity.
  - intros k Hin. rewrite Hgs.
    destruct (bound_after_run _ _ _ _ _ _ _ _ Hin Hok) as (st & v & _ & Hb).
    unfold Dict.mem. now rewrite Hb.
Qed.

Lemma failed_code_is_swallowed_witness :
  exists g' w',
    mark_done Examples.unavailable "T1" Examples.coded_output
      (Examples.built Examples.coded_plan) tt = (Ok tt, g', w') /\
    node_status g' "T1" = "completed" /\
    forall k, In k ["k"] -> Dict.mem k (globals_schema g') = true.
Proof.
  apply (failed_code_is_swallowed Examples.unavailable (Examples.built Examples.coded_plan)
           tt "T1" (plan_attrs (Examples.step "T1" "CoderAgent" [] ["k"]))
           [("code_variants", PDict [("CODE_1", PStr "a = ''; b = 5")])]).
  - reflexivity.
  - intros code_key code gs output rs w. exact I.
  - reflexivity.
  - reflexivity.
Defined.

(** ** Results that are final *)

Lemma dag_round_rewrites_ready {W} (C : collaborators W) max g w :
  nodes_kept_outside (get_ready_steps g) g
    (graph_of (dag_round C (_execute_step_bounded C max) g w)).
Proof.
  set (S := get_ready_steps g).
  apply (round_keeps (nodes_kept_outside S)) with (P := fun s => In s S).
  - intros g0 n Hn. reflexivity.
  - intros g1 g2 g3 H12 H23 n Hn. now rewrite (H23 n Hn), (H12 n Hn).
  - intros g0 step nd nd' Hs _ _ n Hn. cbn [nodes with_nodes].
    apply get_set_other. intros ->. contradiction.
  - intros g0 k v n Hn. reflexivity.
  - intros g0 k v n Hn. reflexivity.
  - auto.
Qed.

Lemma dag_loop_rounds {W} (C : collaborators W) max (I : DiGraph -> Prop) :
  (forall g w, I g -> I (graph_of (dag_round C (_execute_step_bounded C max) g w))) ->
  forall remaining g w,
    I g -> I (graph_of (dag_loop C (_execute_step_bounded C max) remaining g w)).
Proof.
  intros Hstep. induction remaining as [|remaining IH]; intros g w Hg; simpl; [exact Hg|].
  unfold bind, get_graph, lift_outcome, graph_of. cbn [fst snd].
  destruct (all_done g) as [[|]|e]; cbn [fst snd]; try exact Hg.
  pose proof (Hstep g w Hg) as Hr. unfold graph_of in Hr.
  destruct (dag_round C (_execute_step_bounded C max) g w) as [[[[|]|e] g1] w1];
    cbn [fst snd] in *; try exact Hr.
  apply IH. exact Hr.
Qed.

(** X12.  Results are final.  A node that is completed, failed or
    running when the driver starts (and the root) is never rewritten by
    the run: its status, output, error and every other attribute are the
    same after [_execute_dag], whatever the workers do.  In particular a
    completed step is never run again and its output is never
    overwritten. *)
Theorem settled_nodes_are_final
        {W : Type} (C : collaborators W) (g : DiGraph) (w : W) (n : string) :
  n = ROOT \/ In (node_status g n) ["completed"; "failed"; "running"] ->
  Dict.get n (nodes (graph_of (_execute_dag C g w))) = Dict.get n (nodes g).
Proof.
  intros Hn. destruct (execute_dag_result C g w) as (-> & _).
  apply (dag_loop_rounds C max_iterations_default
           (fun g1 => Dict.get n (nodes g1) = Dict.get n (nodes g))); [|reflexivity].
  intros g1 w1 H1. rewrite <- H1. apply dag_round_rewrites_ready.
  rewrite ready_iff. unfold ready_spec. intros (_ & Hroot & Hc & Hf & Hr & _).
  assert (Hs : node_status g1 n = node_status g n).
  { unfold node_status, node_attrs. now rewrite H1. }
  rewrite Hs in *. destruct Hn as [->|[E|[E|[E|[]]]]]; congruence.
Qed.

Lemma settled_nodes_are_final_witness :
  let g := graph_of (dag_loop Examples.unavailable (_execute_step Examples.unavailable) 1
                       (Examples.built Examples.chain_plan) tt) in
  node_status g "A" = "failed" /\
  Dict.get "A" (nodes (graph_of (_execute_dag Examples.unavailable g tt)))
    = Dict.get "A" (nodes g).
Proof.
  cbv zeta. split; [reflexivity|].
  apply (settled_nodes_are_final Examples.unavailable). right. right. left. reflexivity.
Defined.

(** ** A run that cannot go on *)

Lemma dag_loop_stalled {W} (C : collaborators W) execute g (w : W) failures remaining :
  get_ready_steps g = [] -> all_done g = Ok false -> has_failures g = Ok failures ->
  dag_loop C execute remaining g w = (Ok tt, g, w).
Proof.
  intros Hr Hd Hf. induction remaining as [|remaining IH]; [reflexivity|].
  cbn [dag_loop]. unfold bind at 1, get_graph at 1. cbn [fst snd].
  unfold bind at 1, lift_outcome at 1. rewrite Hd.
  unfold dag_round. unfold bind at 1, bind at 1, get_graph at 1. cbn [fst snd].
  rewrite Hr. unfold bind at 1, lift_outcome at 1. rewrite Hf. unfold ret at 1.
  destruct failures; cbn [negb]; [reflexivity | exact IH].
Qed.

(** X13.  A run that cannot go on gives up quietly.  From a graph with
    no ready step that is not all done (a failed step with dependents, a
    cycle) and on which the scan for failed steps returns,
    [_execute_dag] calls no worker and changes nothing: it leaves its
    loop at once when some step has failed, and otherwise after idling
    through its twenty iterations, and in both cases returns without an
    error and without reporting completion. *)
Theorem stalled_run_gives_up
        {W : Type} (C : collaborators W) (g : DiGraph) (w : W) (failures : bool) :
  get_ready_steps g = [] -> all_done g = Ok false -> has_failures g = Ok failures ->
  _execute_dag C g w = (Ok false, g, w).
Proof.
  intros Hr Hd Hf. unfold _execute_dag.
  rewrite (bind_eq _ _ g w tt g w)
    by (now apply (dag_loop_stalled C _ g w failures)).
  unfold bind, get_graph, lift_outcome. now rewrite Hd.
Qed.

Lemma stalled_run_gives_up_witness :
  _execute_dag Examples.unavailable (Examples.built Examples.cyclic_plan) tt
  = (Ok false, Examples.built Examples.cyclic_plan, tt).
Proof.
  apply (stalled_run_gives_up Examples.unavailable (Examples.built Examples.cyclic_plan)
           tt false); reflexivity.
Defined.

(** ** The variables [mark_done] may write *)

Lemma graph_of_bind {W A B} (c : M W A) (k : A -> M W B) g w :
  graph_of (bind c k g w) =
  match c g w with
  | (Ok a, g1, w1) => graph_of (k a g1 w1)
  | (Raise _, g1, _) => g1
  end.
Proof. unfold bind, graph_of. now destruct (c g w) as [[[a|e] g1] w1]. Qed.

Lemma extract_writes_other json agent_type step_id output er ws gs k :
  ~ In k ws ->
  Dict.get k (snd (extract_writes json agent_type step_id output er ws gs)) = Dict.get k gs.
Proof.
  revert gs. induction ws as [|k' ws IH]; intros gs Hk; cbn [extract_writes];
    [reflexivity|].
  destruct (extract_key json agent_type step_id output er k') as [[st v]|e];
    [|reflexivity].
  rewrite IH by (intros H; apply Hk; now right).
  apply get_set_other. intros ->. apply Hk. now left.
Qed.

Lemma execution_phase_keeps_graph {W} (C : collaborators W) step output g w :
  graph_of (execution_phase C step output g w) = g.
Proof.
  apply (keeps_execution_phase (fun g0 g1 => g1 = g0)); auto. congruence.
Qed.

Lemma interaction_phase_store {W} (C : collaborators W) agent_type output g w k :
  interaction_key agent_type output <> Some k ->
  Dict.get k (globals_schema (graph_of (interaction_phase C agent_type output g w)))
  = Dict.get k (globals_schema g).
Proof.
  unfold interaction_key, interaction_phase.
  destruct (_is_clarification_request agent_type output); [|reflexivity].
  destruct output as [| | | | | |od]; try reflexivity. intros Hk.
  unfold try_except, capture_user_input, graph_of.
  pose proof (handle_keeps_graph C od g w) as Hg. unfold graph_of in Hg.
  unfold bind at 1.
  destruct (_handle_user_interaction_rich C od g w) as [[[u|e] g1] w1];
    cbn [fst snd] in Hg; subst g1; [|reflexivity].
  unfold bind, modify_graph, ret, raise.
  destruct (Dict.get "writes_to" od) as [[| | | |k'| |]|]; cbn [fst snd]; try reflexivity.
  - apply get_set_other. congruence.
  - apply get_set_other. congruence.
Qed.

Lemma complete_step_store {W} (C : collaborators W) agent_type step ws output er g w :
  globals_schema (graph_of (complete_step C agent_type step ws output er g w)) =
  snd (extract_writes (json_loads C) agent_type step output er ws (globals_schema g)).
Proof.
  unfold complete_step, bind, get_graph, modify_graph, lift_outcome, graph_of.
  cbn [fst snd].
  destruct (fst (extract_writes (json_loads C) agent_type step output er ws
                   (globals_schema g))) as [[]|e]; [|reflexivity].
  unfold update_step_data, get_step_data, bind, get_graph, modify_graph, ret, raise.
  cbn [fst snd nodes with_globals].
  now destruct (Dict.get step (nodes g)).
Qed.

(** X14.  [mark_done] writes only the variables it is entitled to.  A
    variable that is not among the writes of the step, and is not the
    variable a clarification request stores the user's answer under,
    has the same binding in the VariableStore after [mark_done] as
    before, whether the call returns or raises. *)
Theorem mark_done_store_frame
        {W : Type} (C : collaborators W) (step : string) (agent_output : pyval)
        (g : DiGraph) (w : W) (nd : node_data) (k : string) :
  Dict.get step (nodes g) = Some nd ->
  ~ In k (match writes nd with Some l => l | None => [] end) ->
  interaction_key (match agent nd with Some a => a | None => "" end) agent_output
    <> Some k ->
  Dict.get k (globals_schema (graph_of (mark_done C step agent_output g w)))
  = Dict.get k (globals_schema g).
Proof.
  intros Hg Hw Hi. unfold mark_done.
  rewrite (bind_eq _ _ g w nd g w) by (unfold get_step_data, bind, get_graph, ret;
                                        now rewrite Hg).
  cbv zeta. rewrite graph_of_bind.
  pose proof (interaction_phase_store C _ agent_output g w k Hi) as H1.
  unfold graph_of in H1.
  destruct (interaction_phase C _ agent_output g w) as [[[o|e] g1] w1];
    cbn [fst snd] in H1; [|exact H1].
  rewrite graph_of_bind.
  pose proof (execution_phase_keeps_graph C step o g1 w1) as H2. unfold graph_of in H2.
  destruct (execution_phase C step o g1 w1) as [[[ex|e] g2] w2];
    cbn [fst snd] in H2; subst g2; [|exact H1].
  rewrite graph_of_bind.
  pose proof (complete_step_store C (match agent nd with Some a => a | None => "" end)
                step (match writes nd with Some l => l | None => [] end)
                (fst ex) (snd ex) g1 w2) as H3.
  unfold graph_of in H3.
  destruct (complete_step C _ step _ (fst ex) (snd ex) g1 w2) as [[[[]|e] g3] w3];
    cbn [fst snd] in H3.
  - unfold total_tokens, graph_of, ret, raise.
    destruct (can_add _ _); cbn [fst snd]; rewrite H3, extract_writes_other; auto.
  - rewrite H3, extract_writes_other; auto.
Qed.

Lemma mark_done_store_frame_witness :
  let g := with_globals [("seen", PInt 1)] (Examples.built Examples.coded_plan) in
  Dict.get "seen"
    (globals_schema
       (graph_of (mark_done (Examples.executor_returning [("k", PInt 7)]) "T1"
                    Examples.coded_output g tt)))
  = Some (PInt 1).
Proof.
  cbv zeta.
  rewrite (mark_done_store_frame (Examples.executor_returning [("k", PInt 7)]) "T1"
             Examples.coded_output
             (with_globals [("seen", PInt 1)] (Examples.built Examples.coded_plan)) tt
             (plan_attrs (Examples.step "T1" "CoderAgent" [] ["k"])) "seen").
  - reflexivity.
  - reflexivity.
  - simpl. intros [H|[]]. discriminate H.
  - discriminate.
Defined.

(** ** Merging the execution result into the output *)

Section DictFacts.
Context {V : Type}.
Implicit Types d : Dict.t V.

Lemma extends_refl d : extends d d.
Proof. exists []. now rewrite app_nil_r. Qed.

Lemma extends_trans d1 d2 d3 : extends d1 d2 -> extends d2 d3 -> extends d1 d3.
Proof. intros [a Ha] [b Hb]. exists (a ++ b)%list. now rewrite Hb, Ha, app_assoc. Qed.

Lemma extends_set d k v : extends d (Dict.set k v d).
Proof.
  destruct (Dict.mem k d) eqn:E.
  - exists []. now rewrite keys_set_known, app_nil_r.
  - exists [k]. now apply keys_set_new.
Qed.

Lemma mem_set d k k' v :
  Dict.mem k (Dict.set k' v d) = true <-> k = k' \/ Dict.mem k d = true.
Proof.
  unfold Dict.mem. destruct (String.eqb_spec k k') as [->|Hne].
  - rewrite get_set_same. tauto.
  - rewrite get_set_other by assumption. intuition congruence.
Qed.
End DictFacts.

Lemma fold_set_facts (f : string * pyval -> pyval) items :
  forall acc : dict,
    let r := fold_left (fun acc kv => Dict.set (fst kv) (f kv) acc) items acc in
    extends acc r /\
    (forall k, ~ In k (map fst items) -> Dict.get k r = Dict.get k acc) /\
    (forall k, In k (map fst items) \/ Dict.mem k acc = true -> Dict.mem k r = true).
Proof.
  induction items as [|[k0 v0] items IH]; intros acc; cbv zeta; cbn [fold_left map fst].
  - split; [apply extends_refl|]. split; [reflexivity|]. intros k [[]|H]. exact H.
  - destruct (IH (Dict.set k0 (f (k0, v0)) acc)) as (He & Hg & Hm). cbv zeta in *.
    split; [eapply extends_trans; [apply extends_set | exact He]|]. split.
    + intros k Hk. rewrite Hg by (intros H0; apply Hk; now right).
      apply get_set_other. intros ->. apply Hk. now left.
    + intros k Hk. apply Hm. rewrite mem_set.
      destruct Hk as [[<-|Hk]|Hk]; auto.
Qed.

Lemma merge_items_facts json items :
  forall acc merged : dict,
    merge_items json items acc = Ok merged ->
    extends acc merged /\
    (forall k, ~ In k (map fst items) -> Dict.get k merged = Dict.get k acc) /\
    (forall k, In k (map fst items) \/ Dict.mem k acc = true -> Dict.mem k merged = true).
Proof.
  induction items as [|[k0 v0] items IH]; intros acc merged H; cbn [merge_items map fst] in *.
  - inversion H. subst. split; [apply extends_refl|]. split; [reflexivity|].
    intros k [[]|Hk]. exact Hk.
  - destruct (merged_value json v0) as [v|e]; [|discriminate].
    destruct (IH _ _ H) as (He & Hg & Hm).
    split; [eapply extends_trans; [apply extends_set | exact He]|]. split.
    + intros k Hk. rewrite Hg by (intros H0; apply Hk; now right).
      apply get_set_other. intros ->. apply Hk. now left.
    + intros k Hk. apply Hm. rewrite mem_set.
      destruct Hk as [[<-|Hk]|Hk]; auto.
Qed.

(** X15.  Merging the execution result never loses a field of the
    output.  When [_merge_execution_results] returns, the merged output
    has the keys of the original output in their order, followed by the
    added ones; a field that is none of the five execution fields and
    not a variable of the result mapping has the value it had; and after
    a successful execution every variable of the result mapping is a
    top-level field of the merged output. *)
Theorem merge_keeps_output
        (json : string -> option (list pyval)) (original_output execution_result : dict) :
  match _merge_execution_results json original_output execution_result with
  | Ok merged =>
      extends original_output merged /\
      (forall k, ~ In k execution_fields -> ~ In k (result_variables execution_result) ->
                 Dict.get k merged = Dict.get k original_output) /\
      (is_str "success" (dget "status" execution_result) = true ->
       forall k, In k (result_variables execution_result) -> Dict.mem k merged = true)
  | Raise _ => True
  end.
Proof.
  destruct (_merge_execution_results json original_output execution_result)
    as [merged|e] eqn:E; [|exact I].
  unfold _merge_execution_results in E. cbv zeta in E.
  match type of E with
  | context [Dict.set "executed_variant" ?v ?d] =>
      set (e4 := Dict.set "executed_variant" v d) in E;
      assert (H4 : extends original_output e4 /\
                   forall k, ~ In k execution_fields ->
                             Dict.get k e4 = Dict.get k original_output)
  end.
  { split.
    - subst e4. repeat (eapply extends_trans; [|apply extends_set]). apply extends_refl.
    - intros k Hk. subst e4. unfold execution_fields in Hk. simpl in Hk.
      rewrite !get_set_other; auto; intros ->; apply Hk; auto 10. }
  clearbody e4. destruct H4 as (Hx4 & Hg4).
  assert (Hfail : is_str "success" (dget "status" execution_result) = true ->
                  truthy (PDict execution_result) = true).
  { destruct execution_result; [discriminate | reflexivity]. }
  unfold result_variables.
  destruct (is_str "success" (dget "status" execution_result)) eqn:Es.
  - rewrite (Hfail eq_refl) in E. cbn [andb] in E.
    destruct (Dict.get "result" execution_result) as [r|] eqn:Er.
    + destruct r as [| | | | | |rd];
        try (inversion E; subst; split;
             [eapply extends_trans; [exact Hx4 | apply extends_set]|];
             split; [|intros _ k []];
             intros k Hk _; rewrite get_set_other, Hg4; auto;
             intros ->; apply Hk; simpl; auto).
      destruct (fold_set_facts (fun kv => actual_value (snd kv)) rd e4) as (Hx5 & Hg5 & Hm5).
      cbv zeta in *.
      destruct (merge_items_facts json rd _ _ E) as (Hx6 & Hg6 & Hm6).
      split; [eapply extends_trans; [exact Hx4 | eapply extends_trans; eauto]|]. split.
      * intros k Hk Hr. unfold Dict.keys in Hr. now rewrite Hg6, Hg5, Hg4.
      * intros _ k Hk. apply Hm6. left. exact Hk.
    + cbn [fold_left merge_items] in E. inversion E. subst.
      split; [exact Hx4|]. split; [|intros _ k []]. intros k Hk _. now apply Hg4.
  - rewrite andb_false_r in E. inversion E. subst.
    split; [exact Hx4|]. split; [|intros H; discriminate H]. intros k Hk _. now apply Hg4.
Qed.

(** ** What [_auto_execute_code] returns *)

Lemma run_variants_result {W} (C : collaborators W) od rs variants :
  forall g w,
    graph_of (run_variants C variants od rs g w) = g /\
    match fst (fst (run_variants C variants od rs g w)) with
    | Ok result => result = all_variants_failed \/ success_of variants result
    | Raise _ => False
    end.
Proof.
  induction variants as [|[code_key code] rest IH]; intros g w.
  - split; [reflexivity|]. now left.
  - assert (Hrest : graph_of (run_variants C rest od rs g w) = g /\
                    forall w1,
                    match fst (fst (run_variants C rest od rs g w1)) with
                    | Ok result => result = all_variants_failed \/
                                   success_of ((code_key, code) :: rest) result
                    | Raise _ => False
                    end).
    { split; [apply IH|]. intros w1. destruct (IH g w1) as (_ & H).
      destruct (fst (fst (run_variants C rest od rs g w1))) as [r|e]; [|exact H].
      destruct H as [H|(Hs & k & c & Hin & Hk)]; [now left|]. right.
      split; [exact Hs|]. exists k, c. split; [now right | exact Hk]. }
    destruct Hrest as (_ & Hrest).
    cbn [run_variants]. unfold bind at 1 3, get_graph. cbn [fst snd].
    unfold bind at 1 3, try_except, bind, call.
    destruct (run_user_code C code_key code (whole_store g) od rs w) as [[r|e] w1].
    + destruct r as [| | | | | |result];
        try (unfold raise, ret; cbn [fst snd];
             split; [apply (IH g w1) | apply Hrest]).
      destruct (is_str "success" (dget "status" result)) eqn:Es; unfold ret; cbn [fst snd].
      * split; [reflexivity|]. right. split.
        -- unfold dget in *. rewrite get_set_other by discriminate. exact Es.
        -- exists code_key, code. split; [now left | apply get_set_same].
      * split; [apply (IH g w1) | apply Hrest].
    + unfold ret. cbn [fst snd]. split; [apply (IH g w1) | apply Hrest].
Qed.

Lemma auto_execute_code_unfold {W} (C : collaborators W) step od g w :
  _auto_execute_code C step od g w =
  match _extract_executable_code od with
  | Raise e => (Raise e, g, w)
  | Ok [] => (Ok no_code_found, g, w)
  | Ok (kv :: variants) =>
      match Dict.get step (nodes g) with
      | None => (Raise (KeyError step), g, w)
      | Some nd =>
          run_variants C (kv :: variants) od
            (match reads nd with Some rs => rs | None => [] end) g w
      end
  end.
Proof.
  unfold _auto_execute_code, get_step_data.
  unfold bind, lift_outcome, get_graph, ret, raise.
  destruct (_extract_executable_code od) as [[|kv variants]|e]; try reflexivity.
  now destruct (Dict.get step (nodes g)).
Qed.

(** X16.  What [_auto_execute_code] can return.  It never changes the
    graph; no exception of the code executor leaves it (the only
    exceptions are the [AttributeError] for a [code_variants] that is not
    a dict and the [KeyError] for an unknown step); and its result is the
    record "No executable code found" (always so when the output has no
    [code_variants], whatever else made it look executable), the record
    "All code variants failed", or a successful result of the executor
    tagged with the variant that produced it. *)
Theorem auto_execute_code_result
        {W : Type} (C : collaborators W) (step : string) (od : dict)
        (g : DiGraph) (w : W) :
  graph_of (_auto_execute_code C step od g w) = g /\
  match fst (fst (_auto_execute_code C step od g w)) with
  | Ok result =>
      result = no_code_found \/
      (exists variants,
         _extract_executable_code od = Ok variants /\
         (result = all_variants_failed \/ success_of variants result))
  | Raise e => e = AttributeError "items" \/ e = KeyError step
  end /\
  (Dict.mem "code_variants" od = false ->
   _auto_execute_code C step od g w = (Ok no_code_found, g, w)).
Proof.
  rewrite auto_execute_code_unfold. split; [|split].
  - destruct (_extract_executable_code od) as [[|kv variants]|e]; try reflexivity.
    destruct (Dict.get step (nodes g)); [|reflexivity].
    apply run_variants_result.
  - destruct (_extract_executable_code od) as [[|kv variants]|e] eqn:Ex.
    + left. reflexivity.
    + destruct (Dict.get step (nodes g)) as [nd|]; [|now right].
      destruct (run_variants_result C od
                  (match reads nd with Some rs => rs | None => [] end)
                  (kv :: variants) g w) as (_ & H).
      destruct (fst (fst (run_variants C (kv :: variants) od _ g w))) as [r|e0];
        [|contradiction].
      right. exists (kv :: variants). split; [reflexivity | exact H].
    + left. cbn [fst]. unfold _extract_executable_code in Ex.
      destruct (Dict.get "code_variants" od) as [[| | | | | |v]|]; congruence.
  - intros Hm. unfold _extract_executable_code. unfold Dict.mem in Hm.
    destruct (Dict.get "code_variants" od); [discriminate | reflexivity].
Qed.

(** ** How often [_execute_step] calls the worker *)

Lemma loop_one_call {W} (C : collaborators W) remaining step a nd inputs d g w log od w1 :
  Dict.get step (nodes g) = Some nd -> description nd = Some d ->
  (forall ai, run_agent C a ai w = (Ok (AgentSuccess (PDict od)), w1)) ->
  od <> [] -> truthy (dget "call_self" od) = false ->
  iterations_loop (logged C) (S remaining) step a nd inputs PNone PNone PNone g (w, log) =
  (Ok (PDict od),
   with_nodes (Dict.set step (set_output (PDict od) nd) (nodes g)) g,
   (w1, (log ++ [Ok (AgentSuccess (PDict od))])%list)).
Proof.
  intros Hg Hd Hrun Hne Hcs.
  destruct (build_agent_input_ok step a nd inputs PNone PNone PNone g (w, log) d Hd)
    as [ai Eb].
  cbn [iterations_loop]. unfold bind at 1. rewrite Eb.
  unfold bind at 1. rewrite call_logged, (Hrun ai). cbn [fst snd].
  unfold bind at 1, set_step_output at 1, modify_graph at 1. cbn [fst snd].
  rewrite Hg. destruct od as [|kv od]; [contradiction|].
  assert (Ht : truthy (match Dict.get "call_self" (kv :: od) with
                       | Some v => v | None => PBool false end) = false).
  { unfold dget in Hcs. now destruct (Dict.get "call_self" (kv :: od)). }
  rewrite Ht. reflexivity.
Qed.

(** X17.  One call when no other round is asked for.  When the step
    reaches its loop ([get_inputs] returns the inputs of its reads) and
    the worker answers the first call with a success whose output is a
    non-empty dict without a true [call_self], [_execute_step] calls the
    worker exactly once, returns that output, and records it in the node
    as its output and as its final iteration output. *)
Theorem step_stops_without_call_self
        {W : Type} (C : collaborators W) (max_iterations : nat) (step : string)
        (g : DiGraph) (w w1 : W) (log : list (outcome run_result))
        (nd : node_data) (a d : string) (inputs od : dict) :
  Dict.get step (nodes g) = Some nd -> agent nd = Some a -> description nd = Some d ->
  get_inputs g (match reads nd with Some l => l | None => [] end) = Ok inputs ->
  (forall ai, run_agent C a ai w = (Ok (AgentSuccess (PDict od)), w1)) ->
  od <> [] -> truthy (dget "call_self" od) = false ->
  let x := _execute_step_bounded (logged C) (S max_iterations) step g (w, log) in
  fst (fst x) = Ok {| success := true; result_output := PDict od; result_error := None |} /\
  snd x = (w1, (log ++ [Ok (AgentSuccess (PDict od))])%list) /\
  output (node_attrs (graph_of x) step) = PDict od /\
  final_iteration_output (node_attrs (graph_of x) step) = Some (PDict od).
Proof.
  intros Hg Ha Hd Hi Hrun Hne Hcs. cbv zeta.
  rewrite execute_step_unfold, Hg, Ha, Hi.
  rewrite (loop_one_call C max_iterations step a nd _ d g w log od w1 Hg Hd Hrun Hne Hcs).
  cbn [nodes with_nodes]. rewrite get_set_same.
  unfold graph_of, node_attrs. cbn [fst snd nodes with_nodes].
  rewrite get_set_same. repeat split; reflexivity.
Qed.

Lemma step_stops_without_call_self_witness :
  let x := _execute_step_bounded (logged Examples.plain_worker) 20 "A"
             (Examples.built Examples.chain_plan) (tt, []) in
  fst (fst x) = Ok {| success := true; result_output := PDict [("x", PInt 1)];
                      result_error := None |} /\
  snd x = (tt, ([] ++ [Ok (AgentSuccess (PDict [("x", PInt 1)]))])%list) /\
  output (node_attrs (graph_of x) "A") = PDict [("x", PInt 1)] /\
  final_iteration_output (node_attrs (graph_of x) "A") = Some (PDict [("x", PInt 1)]).
Proof.
  apply (step_stops_without_call_self Examples.plain_worker 19 "A"
           (Examples.built Examples.chain_plan) tt tt []
           (plan_attrs (Examples.step "A" "CoderAgent" [] ["x"])) "CoderAgent" "run A" []).
  - reflexivity.
  - reflexivity.
  - reflexivity.
  - reflexivity.
  - reflexivity.
  - discriminate.
  - reflexivity.
Defined.

Lemma loop_step_silent {W} (C : collaborators W) remaining step a nd inputs
      out i c g w log ai out' w1 :
  build_agent_input step a nd inputs i out c g (w, log) = (Ok ai, g, (w, log)) ->
  run_agent C a ai w = (Ok (AgentSuccess out'), w1) -> silent out' ->
  exists g',
    iterations_loop (logged C) (S remaining) step a nd inputs out i c g (w, log) =
    iterations_loop (logged C) remaining step a nd inputs out' i c g'
      (w1, (log ++ [Ok (AgentSuccess out')])%list).
Proof.
  intros Eb Er Hs. eexists.
  cbn [iterations_loop]. unfold bind at 1. rewrite Eb.
  unfold bind at 1. rewrite call_logged, Er. cbn [fst snd].
  unfold bind at 1, set_step_output at 1, modify_graph at 1. cbn [fst snd].
  destruct out' as [| | | | | |[|kv od]]; try reflexivity. destruct Hs.
Qed.

Lemma loop_always_silent {W} (C : collaborators W) step a nd inputs d :
  always_silent C -> description nd = Some d ->
  forall remaining out i c g w log,
  exists calls,
    length calls = remaining /\
    snd (snd (iterations_loop (logged C) remaining step a nd inputs out i c g (w, log)))
      = (log ++ calls)%list /\
    fst (fst (iterations_loop (logged C) remaining step a nd inputs out i c g (w, log)))
      = Ok (match calls with [] => out | _ => last_output calls end).
Proof.
  intros Hc Hd. induction remaining as [|remaining IH]; intros out i c g w log.
  - exists []. simpl. now rewrite app_nil_r.
  - destruct (build_agent_input_ok step a nd inputs i out c g (w, log) d Hd) as [ai Eb].
    destruct (Hc a ai w) as (out' & Er & Hs).
    destruct (run_agent C a ai w) as [r w1] eqn:Erun. cbn [fst] in Er. subst r.
    destruct (loop_step_silent C remaining step a nd inputs out i c g w log
                ai out' w1 Eb Erun Hs) as (g' & ->).
    destruct (IH out' i c g' w1 (log ++ [Ok (AgentSuccess out')])%list)
      as (calls & L & E & R).
    exists (Ok (AgentSuccess out') :: calls).
    split; [simpl; congruence|]. split.
    + rewrite E, <- app_assoc. reflexivity.
    + rewrite R. now destruct calls.
Qed.

(** X18.  An output that asks for nothing is asked for again.  The loop
    of [_execute_step] stops early only on a non-empty dict without a
    true [call_self] (or on a failure).  Once the step has reached its
    loop ([get_inputs] returns the inputs of its reads), a worker that
    answers every call with a success whose output is empty or not a dict
    is therefore called again each time, exactly [max_iterations] times
    (twenty in the source), and the step returns the output of the last
    call. *)
Theorem silent_worker_is_called_again
        {W : Type} (C : collaborators W) (max_iterations : nat) (step : string)
        (g : DiGraph) (w : W) (log : list (outcome run_result))
        (nd : node_data) (a d : string) (inputs : dict) :
  always_silent C ->
  Dict.get step (nodes g) = Some nd -> agent nd = Some a -> description nd = Some d ->
  get_inputs g (match reads nd with Some l => l | None => [] end) = Ok inputs ->
  let x := _execute_step_bounded (logged C) max_iterations step g (w, log) in
  exists calls,
    snd (snd x) = (log ++ calls)%list /\ length calls = max_iterations /\
    fst (fst x) = Ok {| success := true; result_output := last_output calls;
                        result_error := None |}.
Proof.
  intros Hc Hg Ha Hd Hi. cbv zeta. rewrite execute_step_unfold, Hg, Ha, Hi.
  pose proof (touches_iterations_loop (logged C) [] max_iterations step a nd inputs
                PNone PNone PNone g (w, log)) as (_ & Hkeys & _).
  destruct (loop_always_silent C step a nd inputs
              d Hc Hd max_iterations PNone PNone PNone g w log) as (calls & L & E & R).
  unfold graph_of in Hkeys.
  destruct (iterations_loop (logged C) max_iterations step a nd _ PNone PNone PNone
              g (w, log)) as [[[out|e] g1] wl1]; cbn [fst snd] in *; [|discriminate].
  destruct (keys_kept_get g g1 step nd Hkeys Hg) as [nd1 ->]. cbn [fst snd].
  exists calls. split; [exact E|]. split; [exact L|].
  inversion R as [Hout]. f_equal. f_equal. destruct calls; reflexivity.
Qed.

Lemma silent_worker_is_called_again_witness :
  let x := _execute_step_bounded (logged Examples.empty_worker) 20 "A"
             (Examples.built Examples.chain_plan) (tt, []) in
  length (snd (snd x)) = 20 /\
  exists calls,
    snd (snd x) = ([] ++ calls)%list /\ length calls = 20 /\
    fst (fst x) = Ok {| success := true; result_output := last_output calls;
                        result_error := None |}.
Proof.
  cbv zeta. split; [reflexivity|].
  apply (silent_worker_is_called_again Examples.empty_worker 20 "A"
           (Examples.built Examples.chain_plan) tt []
           (plan_attrs (Examples.step "A" "CoderAgent" [] ["x"])) "CoderAgent" "run A" []).
  - intros a ai w. exists (PDict []). split; [reflexivity | exact I].
  - reflexivity.
  - reflexivity.
  - reflexivity.
  - reflexivity.
Defined.

(** ** From one step's output to the next step's input *)

Lemma extract_key_output_direct json agent_type step_id od k v :
  Dict.get k od = Some v ->
  extract_key json agent_type step_id (PDict od) None k = Ok (OutputDirect, actual_value v).
Proof.
  intros Hk. unfold extract_key. cbn [try_execution].
  destruct od as [|kv od]; [discriminate|].
  cbn [try_output]. unfold extract_from_output. now rewrite Hk.
Qed.

(** X19.  What a step writes is what the next step reads.  When a
    worker's output is a dict that holds the write key [k] at top level
    (no user interaction, no code to run, token counters that can be
    summed), [mark_done] returns, and afterwards every result of
    [get_inputs] for reads that include [k] holds the very value of the
    output under [k] (None turned into the text "None"); [get_inputs]
    returns such a result whenever every read is in the store or the
    store had no key that is not a string. *)
Theorem written_value_is_read
        {W : Type} (C : collaborators W) (step : string) (od : dict)
        (g : DiGraph) (w : W) (nd : node_data) (k : string) (v : pyval)
        (rs : list string) :
  Dict.get step (nodes g) = Some nd ->
  In k (match writes nd with Some l => l | None => [] end) ->
  Dict.get k od = Some v ->
  In k rs ->
  _is_clarification_request (match agent nd with Some a => a | None => "" end) (PDict od)
    = false ->
  _has_executable_code (PDict od) = false ->
  counters_add (PDict od) = true ->
  exists g',
    mark_done C step (PDict od) g w = (Ok tt, g', w) /\
    (forall inputs, get_inputs g' rs = Ok inputs ->
                    Dict.get k inputs = Some (actual_value v)) /\
    ((forall r, In r rs -> Dict.mem r (globals_schema g') = true) \/
     globals_schema_other g = [] ->
     exists inputs, get_inputs g' rs = Ok inputs).
Proof.
  intros Hg Hw Hk Hr Hq Hx Hadd.
  rewrite (mark_done_plain C step (PDict od) g w nd Hg Hq Hx Hadd).
  assert (Hout : PDict od = PNone \/ exists od', PDict od = PDict od') by eauto.
  pose proof (extract_writes_without_execution (json_loads C)
                (match agent nd with Some a => a | None => "" end) step (PDict od)
                (match writes nd with Some l => l | None => [] end)
                (globals_schema g) Hout) as Hok.
  destruct (complete_step_ok C _ step _ (PDict od) None g w nd Hg Hok) as (Hc & _ & Hgs).
  eexists. split; [exact Hc|].
  destruct (bound_after_run _ _ _ _ _ _ _ _ Hw Hok) as (st & v' & Hv' & Hb).
  rewrite (extract_key_output_direct _ _ _ _ _ _ Hk) in Hv'. inversion Hv'. subst.
  split.
  - intros inputs Hi. unfold get_inputs in Hi.
    rewrite (collect_inputs_get _ _ _ _ _ k Hi), Hgs, Hb.
    apply mem_str_In in Hr. now rewrite Hr.
  - intros H. unfold get_inputs. apply collect_inputs_returns. exact H.
Qed.

Lemma written_value_is_read_witness :
  exists g',
    mark_done Examples.unavailable "A" (PDict [("x", PInt 1)])
      (Examples.built Examples.chain_plan) tt = (Ok tt, g', tt) /\
    (forall inputs, get_inputs g' ["x"] = Ok inputs ->
                    Dict.get "x" inputs = Some (actual_value (PInt 1))) /\
    ((forall r, In r ["x"] -> Dict.mem r (globals_schema g') = true) \/
     globals_schema_other (Examples.built Examples.chain_plan) = [] ->
     exists inputs, get_inputs g' ["x"] = Ok inputs).
Proof.
  apply (written_value_is_read Examples.unavailable "A" [("x", PInt 1)]
           (Examples.built Examples.chain_plan) tt
           (plan_attrs (Examples.step "A" "CoderAgent" [] ["x"])) "x" (PInt 1) ["x"]).
  - reflexivity.
  - simpl. now left.
  - reflexivity.
  - simpl. now left.
  - reflexivity.
  - reflexivity.
  - reflexivity.
Defined.

(** ** The answer of the user *)

Lemma existsb_keys_set {V} (P : string -> bool) (d : Dict.t V) k v :
  P k = false -> existsb P (Dict.keys (Dict.set k v d)) = existsb P (Dict.keys d).
Proof.
  intros Hk. destruct (Dict.mem k d) eqn:E.
  - now rewrite keys_set_known.
  - rewrite keys_set_new by assumption. rewrite existsb_app. simpl.
    now rewrite Hk, !orb_false_r.
Qed.

Lemma mem_set_other {V} (d : Dict.t V) k k' v :
  k <> k' -> Dict.mem k (Dict.set k' v d) = Dict.mem k d.
Proof. intros Hne. unfold Dict.mem. now rewrite get_set_other. Qed.

Lemma has_code_answered od u :
  _has_executable_code (PDict (answered od u)) = _has_executable_code (PDict od).
Proof.
  unfold _has_executable_code, answered.
  rewrite !existsb_keys_set by reflexivity.
  cbn [existsb]. rewrite !mem_set_other by discriminate. reflexivity.
Qed.

Lemma interaction_phase_answered {W} (C : collaborators W) agent_type od g w u kk :
  interaction_key agent_type (PDict od) = Some kk ->
  fst (fst (_handle_user_interaction_rich C od g w)) = Ok u ->
  interaction_phase C agent_type (PDict od) g w =
  (Ok (PDict (answered od u)),
   with_globals (Dict.set kk u (globals_schema g)) g,
   snd (_handle_user_interaction_rich C od g w)).
Proof.
  unfold interaction_key, interaction_phase. intros Hk Hu.
  destruct (_is_clarification_request agent_type (PDict od)); [|discriminate].
  pose proof (handle_keeps_graph C od g w) as Hg. unfold graph_of in Hg.
  unfold try_except, capture_user_input. unfold bind at 1.
  destruct (_handle_user_interaction_rich C od g w) as [[[u'|e] g1] w1];
    cbn [fst snd] in *; [|discriminate]. subst g1. inversion Hu. subst u'.
  unfold bind, modify_graph, ret.
  destruct (Dict.get "writes_to" od) as [[| | | |k'| |]|]; try discriminate;
    inversion Hk; reflexivity.
Qed.

Lemma mark_done_answered {W} (C : collaborators W) step od g w nd u kk :
  Dict.get step (nodes g) = Some nd ->
  interaction_key (match agent nd with Some a => a | None => "" end) (PDict od) = Some kk ->
  fst (fst (_handle_user_interaction_rich C od g w)) = Ok u ->
  _has_executable_code (PDict od) = false ->
  counters_add (PDict od) = true ->
  exists g',
    mark_done C step (PDict od) g w
      = (Ok tt, g', snd (_handle_user_interaction_rich C od g w)) /\
    Dict.get step (nodes g') =
      Some (set_output (PDict (answered od u)) (set_status "completed" nd)) /\
    globals_schema g' =
      snd (extract_writes (json_loads C)
             (match agent nd with Some a => a | None => "" end) step
             (PDict (answered od u)) None
             (match writes nd with Some l => l | None => [] end)
             (Dict.set kk u (globals_schema g))) /\
    fst (extract_writes (json_loads C)
           (match agent nd with Some a => a | None => "" end) step
           (PDict (answered od u)) None
           (match writes nd with Some l => l | None => [] end)
           (Dict.set kk u (globals_schema g))) = Ok tt.
Proof.
  intros Hg Hk Hu Hx Hadd.
  set (g1 := with_globals (Dict.set kk u (globals_schema g)) g).
  set (w1 := snd (_handle_user_interaction_rich C od g w)).
  pose proof (extract_writes_without_execution (json_loads C)
                (match agent nd with Some a => a | None => "" end) step
                (PDict (answered od u))
                (match writes nd with Some l => l | None => [] end)
                (globals_schema g1) (or_intror (ex_intro _ _ eq_refl))) as Hok.
  destruct (complete_step_ok C _ step _ (PDict (answered od u)) None g1 w1 nd Hg Hok)
    as (Hc & _ & Hgs).
  eexists. split; [|split; [|split; [exact Hgs | exact Hok]]].
  - unfold mark_done.
    rewrite (bind_eq _ _ g w nd g w) by (unfold get_step_data, bind, get_graph, ret;
                                          now rewrite Hg).
    cbv zeta.
    rewrite (bind_eq _ _ g w _ _ _ (interaction_phase_answered C _ od g w u kk Hk Hu)).
    fold g1 w1.
    rewrite (bind_eq _ _ g1 w1 (PDict (answered od u), None) g1 w1)
      by (unfold execution_phase; now rewrite has_code_answered, Hx).
    cbn [fst snd]. rewrite (bind_eq _ _ g1 w1 _ _ _ Hc).
    unfold total_tokens. unfold counters_add in Hadd. rewrite Hadd. reflexivity.
  - cbn [nodes with_nodes with_globals]. apply get_set_same.
Qed.

(** X20.  The answer of the user is kept.  For a clarification request
    that names a variable for the answer ([writes_to], by default
    [user_response]) that is not one of the node's write keys, whose
    output has no code to run and token counters that can be summed, and
    whose interaction returns an answer: [mark_done] returns, the step is
    completed, the output recorded in the node carries the answer under
    [user_response] with [interaction_completed] true, and that variable
    is bound to the answer in the VariableStore. *)
Theorem user_answer_is_stored
        {W : Type} (C : collaborators W) (step : string) (od : dict)
        (g : DiGraph) (w : W) (nd : node_data) (u : pyval) (kk : string) :
  Dict.get step (nodes g) = Some nd ->
  interaction_key (match agent nd with Some a => a | None => "" end) (PDict od) = Some kk ->
  fst (fst (_handle_user_interaction_rich C od g w)) = Ok u ->
  _has_executable_code (PDict od) = false ->
  counters_add (PDict od) = true ->
  ~ In kk (match writes nd with Some l => l | None => [] end) ->
  exists g',
    mark_done C step (PDict od) g w
      = (Ok tt, g', snd (_handle_user_interaction_rich C od g w)) /\
    node_status g' step = "completed" /\
    output (node_attrs g' step) = PDict (answered od u) /\
    Dict.get kk (globals_schema g') = Some u.
Proof.
  intros Hg Hk Hu Hx Hadd Hw.
  destruct (mark_done_answered C step od g w nd u kk Hg Hk Hu Hx Hadd)
    as (g' & Hm & Hn & Hs & _).
  exists g'. split; [exact Hm|]. unfold node_status, node_attrs. rewrite Hn.
  split; [reflexivity|]. split; [reflexivity|].
  rewrite Hs, extract_writes_other by exact Hw. apply get_set_same.
Qed.

Lemma user_answer_is_stored_witness :
  exists g',
    mark_done Examples.typing_user "Q" (PDict Examples.question_own_key)
      (Examples.built Examples.question_plan) tt
      = (Ok tt, g',
         snd (_handle_user_interaction_rich Examples.typing_user Examples.question_own_key
                (Examples.built Examples.question_plan) tt)) /\
    node_status g' "Q" = "completed" /\
    output (node_attrs g' "Q") =
      PDict (answered Examples.question_own_key (PStr "data.csv")) /\
    Dict.get "file_name" (globals_schema g') = Some (PStr "data.csv").
Proof.
  apply (user_answer_is_stored Examples.typing_user "Q" Examples.question_own_key
           (Examples.built Examples.question_plan) tt
           (plan_attrs (Examples.step "Q" "ClarificationAgent" [] ["answer"]))
           (PStr "data.csv") "file_name").
  - reflexivity.
  - reflexivity.
  - reflexivity.
  - reflexivity.
  - reflexivity.
  - simpl. intros [H|[]]. discriminate H.
Defined.

(** X21.  The answer of the user is lost when it is stored under a
    write key.  Take a step of the clarification agent whose output has
    no code to run, token counters that can be summed and a truthy first
    field (usually the clarification message), and whose interaction
    returns an answer.  When the variable the answer is stored under is
    one of the node's write keys and no extraction strategy finds that key
    in the output, the last-resort fallback runs after the answer was
    stored and binds the key to that first field: after [mark_done] the
    variable holds that field, not the answer. *)
Theorem user_answer_is_overwritten
        {W : Type} (C : collaborators W) (step : string) (od rest : dict)
        (g : DiGraph) (w : W) (nd : node_data) (u v0 : pyval) (kk k0 : string) :
  Dict.get step (nodes g) = Some nd ->
  agent nd = Some "ClarificationAgent" ->
  interaction_key "ClarificationAgent" (PDict od) = Some kk ->
  fst (fst (_handle_user_interaction_rich C od g w)) = Ok u ->
  _has_executable_code (PDict od) = false ->
  counters_add (PDict od) = true ->
  In kk (match writes nd with Some l => l | None => [] end) ->
  try_output (PDict (answered od u)) kk = None ->
  od = (k0, v0) :: rest -> truthy v0 = true ->
  k0 <> "user_response" -> k0 <> "interaction_completed" ->
  exists g',
    mark_done C step (PDict od) g w
      = (Ok tt, g', snd (_handle_user_interaction_rich C od g w)) /\
    node_status g' step = "completed" /\
    Dict.get kk (globals_schema g') = Some v0.
Proof.
  intros Hg Ha Hk Hu Hx Hadd Hw Hto Hod Ht Hk1 Hk2.
  assert (Hk' : interaction_key (match agent nd with Some a => a | None => "" end)
                  (PDict od) = Some kk) by now rewrite Ha.
  destruct (mark_done_answered C step od g w nd u kk Hg Hk' Hu Hx Hadd)
    as (g' & Hm & Hn & Hs & Hok).
  exists g'. split; [exact Hm|]. split.
  { unfold node_status, node_attrs. now rewrite Hn. }
  destruct (bound_after_run _ _ _ _ _ _ _ _ Hw Hok) as (st & v' & Hv' & Hb).
  rewrite Hs, Hb. f_equal.
  rewrite Ha in Hv'. unfold extract_key in Hv'. cbn [try_execution] in Hv'.
  rewrite Hto in Hv'. unfold try_formatter in Hv'.
  replace ("ClarificationAgent" =? "FormatterAgent") with false in Hv' by reflexivity.
  cbn [andb] in Hv'.
  rewrite extract_fallback_spec in Hv' by (eauto || exact I).
  unfold fallback_spec in Hv'. cbn [first_key_of_result first_truthy_of_output] in Hv'.
  assert (Hfirst : find truthy (map snd (answered od u)) = Some v0).
  { subst od. unfold answered.
    cbn [Dict.set]. apply String.eqb_neq in Hk1, Hk2. rewrite Hk1.
    cbn [Dict.set]. rewrite Hk2. cbn [map snd find]. now rewrite Ht. }
  rewrite Hfirst in Hv'. now inversion Hv'.
Qed.

Lemma user_answer_is_overwritten_witness :
  exists g',
    mark_done Examples.typing_user "Q" (PDict Examples.question_same_key)
      (Examples.built Examples.question_plan) tt
      = (Ok tt, g',
         snd (_handle_user_interaction_rich Examples.typing_user Examples.question_same_key
                (Examples.built Examples.question_plan) tt)) /\
    node_status g' "Q" = "completed" /\
    Dict.get "answer" (globals_schema g') = Some (PStr "Which file?").
Proof.
  apply (user_answer_is_overwritten Examples.typing_user "Q" Examples.question_same_key
           [("writes_to", PStr "answer")]
           (Examples.built Examples.question_plan) tt
           (plan_attrs (Examples.step "Q" "ClarificationAgent" [] ["answer"]))
           (PStr "data.csv") (PStr "Which file?") "answer" "clarificationMessage").
  - reflexivity.
  - reflexivity.
  - reflexivity.
  - reflexivity.
  - reflexivity.
  - reflexivity.
  - simpl. now left.
  - reflexivity.
  - reflexivity.
  - reflexivity.
  - discriminate.
  - discriminate.
Defined.

(** ** Plans deeper than the driver's bound *)

Lemma dag_loop_counted {W} (C : collaborators W) max (I : nat -> DiGraph -> Prop) :
  (forall i g g', only_changes (get_ready_steps g) g g' -> I i g -> I (S i) g') ->
  (forall i g, I i g -> I (S i) g) ->
  forall remaining i g w,
    I i g ->
    I (i + remaining) (graph_of (dag_loop C (_execute_step_bounded C max) remaining g w)).
Proof.
  intros Hstep Hmono.
  assert (Hle : forall k i g, I i g -> I (i + k) g).
  { induction k as [|k IHk]; intros i g Hg.
    - now rewrite Nat.add_0_r.
    - rewrite Nat.add_succ_r. apply Hmono. now apply IHk. }
  induction remaining as [|remaining IH]; intros i g w Hg; simpl.
  - now apply Hle.
  - unfold bind, get_graph, lift_outcome, graph_of. cbn [fst snd].
    destruct (all_done g) as [[|]|e]; cbn [fst snd]; try (now apply Hle).
    pose proof (dag_round_only_changes C max g w) as Hr. unfold graph_of in Hr.
    destruct (dag_round C (_execute_step_bounded C max) g w) as [[[[|]|e] g1] w1];
      cbn [fst snd] in *.
    + rewrite Nat.add_succ_r, <- Nat.add_succ_l. apply IH. eapply Hstep; eauto.
    + rewrite Nat.add_succ_r, <- Nat.add_succ_l. apply Hle. eapply Hstep; eauto.
    + rewrite Nat.add_succ_r, <- Nat.add_succ_l. apply Hle. eapply Hstep; eauto.
Qed.

Lemma chained_edge p c j a b :
  chained p c -> nth_error c j = Some a -> nth_error c (S j) = Some b ->
  In (edge a b) (plan_edges p).
Proof.
  revert j. induction c as [|x c IH]; intros j Hc Ha Hb; [destruct j; discriminate|].
  destruct c as [|y c]; [destruct j; discriminate|].
  destruct Hc as (He & Hc). destruct j as [|j].
  - simpl in Ha, Hb. inversion Ha. inversion Hb. now subst.
  - apply (IH j Hc); assumption.
Qed.

(** X22.  The driver's bound on rounds is a bound on the depth of the
    plan.  A step needs one round more than the step it depends on, and
    [_execute_dag] makes at most twenty rounds: in every chain of
    dependencies of the plan (each step with an edge from the one
    before, none of them the root), the steps from the twenty-first on
    are still pending after the whole run, whatever the workers do, and
    the run does not end with every task completed. *)
Theorem deep_steps_never_run
        {W : Type} (C : collaborators W) (p : plan) (g : DiGraph) (w : W)
        (c : list string) (j : nat) (v : string) :
  init p = Ok g -> chained p c -> ~ In ROOT c ->
  nth_error c j = Some v -> max_iterations_default <= j ->
  node_status (graph_of (_execute_dag C g w)) v = "pending" /\
  fst (fst (_execute_dag C g w)) <> Ok true.
Proof.
  intros Hi Hc Hroot Hv Hj.
  destruct (init_facts p g Hi) as (Hcl & Hp & _ & He).
  destruct (execute_dag_result C g w) as (Hg & Hres). cbv zeta in *.
  set (g' := graph_of (dag_loop C (_execute_step C) max_iterations_default g w)) in *.
  set (I := fun (i : nat) (g1 : DiGraph) =>
              pred g1 = pred g /\ Dict.keys (nodes g1) = Dict.keys (nodes g) /\
              forall k u, i <= k -> nth_error c k = Some u -> node_status g1 u = "pending").
  assert (HI : I (0 + max_iterations_default) g').
  { apply (dag_loop_counted C max_iterations_default I).
    - intros i g1 g2 Hoc (Hp1 & Hk1 & Hpend). pose proof Hoc as (Hp2 & Hk2 & Hst).
      split; [congruence|]. split; [congruence|].
      intros k u Hk Hu. destruct k as [|k]; [lia|].
      assert (Hu1 : node_status g1 u = "pending") by (apply (Hpend (S k)); [lia | exact Hu]).
      rewrite <- Hu1. apply status_node_status, Hst.
      destruct (nth_error c k) as [a|] eqn:Ea.
      + assert (Ha : node_status g1 a = "pending") by (apply (Hpend k); [lia | exact Ea]).
        rewrite ready_iff. intros (_ & _ & _ & _ & _ & Hall).
        assert (Hin : In a (predecessors g1 u)).
        { unfold predecessors. rewrite Hp1. apply (He a u).
          now apply (chained_edge p c k). }
        specialize (Hall a Hin). congruence.
      + apply nth_error_None in Ea.
        assert (S k < length c) by (apply nth_error_Some; congruence). lia.
    - intros i g1 (Hp1 & Hk1 & Hpend). split; [exact Hp1|]. split; [exact Hk1|].
      intros k u Hk. apply Hpend. lia.
    - split; [reflexivity|]. split; [reflexivity|].
      intros k u _ Hu. apply Hp. intros ->. apply Hroot. eapply nth_error_In; eauto. }
  destruct HI as (Hp' & Hk' & Hpend). rewrite Hg.
  assert (Hvp : node_status g' v = "pending") by (apply (Hpend j); [exact Hj | exact Hv]).
  split; [exact Hvp|].
  intros Hok. apply Hres in Hok. unfold all_done in Hok.
  destruct j as [|j]; [unfold max_iterations_default in Hj; lia|].
  destruct (nth_error c j) as [a|] eqn:Ea.
  - apply all_done_from_terminal with (n := v) in Hok.
    + rewrite Hvp in Hok. simpl in Hok. intuition discriminate.
    + rewrite Hk'. apply mem_keys. apply (He a v). now apply (chained_edge p c j).
  - apply nth_error_None in Ea.
    assert (S j < length c) by (apply nth_error_Some; congruence). lia.
Qed.

Lemma deep_steps_never_run_witness :
  node_status
    (graph_of (_execute_dag Examples.unavailable (Examples.built Examples.long_chain) tt))
    "s21" = "pending" /\
  fst (fst (_execute_dag Examples.unavailable (Examples.built Examples.long_chain) tt))
    <> Ok true.
Proof.
  apply (deep_steps_never_run Examples.unavailable Examples.long_chain
           (Examples.built Examples.long_chain) tt (Examples.numbered 21) 20 "s21").
  - vm_compute. reflexivity.
  - simpl. repeat (split; [auto 30|]). exact I.
  - simpl. intros H. repeat (destruct H as [H|H]; [discriminate H|]). exact H.
  - reflexivity.
  - unfold max_iterations_default. lia.
Defined.

(** ** Plans that complete *)

Lemma all_done_from_completed g ns :
  (forall n, In n ns -> node_status g n = "completed") -> all_done_from g ns = Ok true.
Proof.
  induction ns as [|n ns IH]; intros H; [reflexivity|].
  cbn [all_done_from]. unfold status_item.
  pose proof (H n (or_introl eq_refl)) as Hn. unfold node_status, get_status in Hn.
  destruct (status (node_attrs g n)) as [s|]; [|discriminate Hn]. subst s.
  cbn. apply IH. intros m Hm. apply H. now right.
Qed.

Lemma has_failures_from_true g ns :
  has_failures_from g ns = Ok true -> exists n, node_status g n = "failed".
Proof.
  induction ns as [|n ns IH]; [discriminate|].
  cbn [has_failures_from]. unfold status_item.
  destruct (status (node_attrs g n)) as [s|] eqn:Es; [|discriminate].
  destruct (String.eqb_spec s "failed") as [->|Hne]; [|exact IH].
  intros _. exists n. unfold node_status, get_status. now rewrite Es.
Qed.

Lemma dag_round_stops {W} (C : collaborators W) execute g g' (w w' : W) :
  dag_round C execute g w = (Ok false, g', w') ->
  g' = g /\ exists n, node_status g n = "failed".
Proof.
  unfold dag_round. intros H.
  apply bind_ok in H as (g0 & g1 & w1 & Hg & H). inversion Hg. subst g0 g1 w1.
  destruct (get_ready_steps g) as [|s ready].
  - apply bind_ok in H as (b & g1 & w1 & Hf & H). unfold lift_outcome in Hf.
    injection Hf as Hf <- <-. unfold ret in H. injection H as Hb <-.
    split; [reflexivity|]. destruct b; [|discriminate Hb].
    now apply (has_failures_from_true g (Dict.keys (nodes g))).
  - apply bind_ok in H as ([] & g1 & w1 & _ & H).
    apply bind_ok in H as (rs & g2 & w2 & _ & H).
    apply bind_ok in H as ([] & g3 & w3 & _ & H). discriminate H.
Qed.

Section Layers.
Context {W : Type}.
Variable C : collaborators W.
Variable p : plan.
Variable g0 : DiGraph.
Variable rank : string -> nat.
Variable depth : nat.
Hypothesis built : init p = Ok g0.
Hypothesis layers : layered p g0 rank depth.

Lemma round_between max g g' (w w' : W) go_on :
  dag_round C (_execute_step_bounded C max) g w = (Ok go_on, g', w') ->
  between_rounds g0 g -> between_rounds g0 g'.
Proof.
  intros Hr (Hp & Hk & Hroot & Hst).
  pose proof (dag_round_only_changes C max g w) as Hoc. rewrite Hr in Hoc.
  unfold graph_of in Hoc. cbn [fst snd] in Hoc. pose proof Hoc as (Hp' & Hk' & Hs').
  split; [congruence|]. split; [congruence|]. split.
  - now apply (round_keeps_completed g g').
  - intros n. destruct (in_dec string_dec n (get_ready_steps g)) as [Hin|Hout].
    + pose proof (dag_round_settles C max g g' w w' go_on n Hr Hin) as Ht.
      simpl in *. tauto.
    + rewrite (status_node_status _ _ _ (Hs' n Hout)). apply Hst.
Qed.

Lemma round_done_up_to max g g' (w w' : W) go_on i :
  dag_round C (_execute_step_bounded C max) g w = (Ok go_on, g', w') ->
  between_rounds g0 g -> done_up_to g0 rank i g -> done_up_to g0 rank (S i) g'.
Proof.
  intros Hr (Hp & Hk & Hroot & Hst) Hd.
  pose proof (dag_round_only_changes C max g w) as Hoc. rewrite Hr in Hoc.
  unfold graph_of in Hoc. cbn [fst snd] in Hoc.
  destruct Hd as [(n & Hn)|Hall].
  { left. exists n. now apply (round_keeps_failed g g'). }
  destruct (existsb (fun n => node_status g' n =? "failed") (Dict.keys (nodes g0)))
    eqn:Ef.
  { apply existsb_exists in Ef as (n & _ & Hn). apply String.eqb_eq in Hn.
    left. now exists n. }
  right. intros n Hn Hne Hrank.
  assert (Hnf : node_status g' n <> "failed").
  { intros Hf. apply Bool.not_true_iff_false in Ef. apply Ef.
    apply existsb_exists. exists n. split; [now apply mem_keys|].
    now apply String.eqb_eq. }
  destruct (Hst n) as [Hpend|[Hc|[Hf|[]]]].
  - assert (Hready : In n (get_ready_steps g)).
    { apply ready_iff. unfold ready_spec. rewrite <- Hpend.
      split; [rewrite Hk; now apply mem_keys|]. split; [exact Hne|].
      repeat (split; [discriminate|]).
      intros u Hu. unfold predecessors in Hu. rewrite Hp in Hu.
      fold (predecessors g0 n) in Hu.
      destruct (init_endpoints_are_nodes p g0 u n built Hu) as (Hnu & _).
      apply (init_predecessors p g0 u n built) in Hu.
      destruct (String.eqb_spec u ROOT) as [->|Hur]; [exact Hroot|].
      destruct (proj2 layers u n Hu) as [E|Hlt]; [contradiction|].
      apply Hall; auto. lia. }
    pose proof (dag_round_settles C max g g' w w' go_on n Hr Hready) as Ht.
    simpl in Ht. destruct Ht as [Ht|[Ht|[]]]; congruence.
  - now apply (round_keeps_completed g g').
  - elim Hnf. now apply (round_keeps_failed g g').
Qed.

Lemma loop_done_up_to max remaining :
  forall i g g' (w w' : W),
    dag_loop C (_execute_step_bounded C max) remaining g w = (Ok tt, g', w') ->
    between_rounds g0 g -> done_up_to g0 rank i g ->
    all_done g' = Ok true \/ done_up_to g0 rank (i + remaining) g'.
Proof.
  induction remaining as [|remaining IH]; intros i g g' w w' H Hb Hd.
  - inversion H. subst. right. now rewrite Nat.add_0_r.
  - cbn [dag_loop] in H.
    apply bind_ok in H as (gx & g1 & w1 & Hg & H). inversion Hg. subst gx g1 w1.
    apply bind_ok in H as (done & g1 & w1 & Ha & H). unfold lift_outcome in Ha.
    injection Ha as Ha <- <-.
    destruct done.
    + inversion H. subst. now left.
    + apply bind_ok in H as (go_on & g1 & w1 & Hr & H).
      pose proof (round_between max g g1 w w1 go_on Hr Hb) as Hb1.
      pose proof (round_done_up_to max g g1 w w1 go_on i Hr Hb Hd) as Hd1.
      destruct go_on.
      * rewrite Nat.add_succ_r, <- Nat.add_succ_l. now apply (IH (S i) g1 g' w1 w').
      * inversion H. subst. right. left.
        now destruct (dag_round_stops C _ g g' w w' Hr) as (-> & Hf).
Qed.
End Layers.

(** X23.  A layered plan without failures is completed.  For a plan in
    which no node takes the id ROOT and whose steps can be ranked in at
    most twenty layers so that every edge goes from the root or from a
    lower layer to a higher one: whenever [_execute_dag] returns and no
    step has failed, every step is completed and the run reports that
    all tasks are completed. *)
Theorem layered_plan_completes
        {W : Type} (C : collaborators W) (p : plan) (g g' : DiGraph) (w w' : W)
        (rank : string -> nat) (all_completed : bool) :
  init p = Ok g -> ~ In ROOT (plan_ids p) ->
  layered p g rank max_iterations_default ->
  _execute_dag C g w = (Ok all_completed, g', w') ->
  (forall n, node_status g' n <> "failed") ->
  all_completed = true /\
  forall n, has_node g n = true -> node_status g' n = "completed".
Proof.
  intros Hi Hroot Hl Hrun Hnf.
  destruct (init_facts p g Hi) as (_ & Hp & _).
  pose proof (init_root_completed p g Hi Hroot) as Hr.
  unfold _execute_dag in Hrun.
  apply bind_ok in Hrun as ([] & g1 & w1 & Hloop & Hrun).
  apply bind_ok in Hrun as (gx & g2 & w2 & Hg & Hrun). inversion Hg. subst gx g2 w2.
  unfold lift_outcome in Hrun. injection Hrun as Hdone <- <-.
  assert (Hb : between_rounds g g).
  { split; [reflexivity|]. split; [reflexivity|]. split; [exact Hr|].
    intros n. destruct (String.eqb_spec n ROOT) as [->|Hne].
    - rewrite Hr. simpl. auto.
    - rewrite (Hp n Hne). simpl. auto. }
  assert (Hd : done_up_to g rank 0 g).
  { right. intros n Hn Hne Hrank. destruct (proj1 Hl n Hn Hne). lia. }
  assert (Hkeys : Dict.keys (nodes g1) = Dict.keys (nodes g) /\
                  node_status g1 ROOT = "completed").
  { pose proof (dag_loop_invariant C max_iterations_default
                  (fun gy => Dict.keys (nodes gy) = Dict.keys (nodes g) /\
                             node_status gy ROOT = "completed")) as Hinv.
    specialize (Hinv (fun ga gb Hoc Hab =>
                        conj (eq_trans (proj1 (proj2 Hoc)) (proj1 Hab))
                             (round_keeps_completed ga gb ROOT Hoc (proj2 Hab)))
                     max_iterations_default g w (conj eq_refl Hr)).
    unfold _execute_step in Hloop. rewrite Hloop in Hinv. exact Hinv. }
  destruct Hkeys as (Hk1 & Hr1).
  assert (Hall : forall n, has_node g n = true -> node_status g1 n = "completed").
  { destruct (loop_done_up_to C p g rank max_iterations_default Hi Hl
                max_iterations_default max_iterations_default 0 g g1 w w1 Hloop Hb Hd)
      as [Hd1|[(n & Hn)|Hd1]].
    - intros n Hn. unfold all_done in Hd1.
      pose proof (all_done_from_terminal g1 _ Hd1 n) as Ht. rewrite Hk1 in Ht.
      specialize (Ht (proj1 (mem_keys _ _) Hn)). simpl in Ht.
      destruct Ht as [Ht|[Ht|[]]]; [now symmetry|]. elim (Hnf n). now symmetry.
    - elim (Hnf n Hn).
    - intros n Hn. destruct (String.eqb_spec n ROOT) as [->|Hne]; [exact Hr1|].
      apply Hd1; auto. destruct (proj1 Hl n Hn Hne). simpl. lia. }
  split; [|exact Hall].
  unfold all_done in Hdone. rewrite all_done_from_completed in Hdone.
  - now inversion Hdone.
  - intros n Hn. apply Hall. apply mem_keys. now rewrite <- Hk1.
Qed.

Lemma layered_plan_completes_witness :
  let g := Examples.built Examples.chain_plan in
  let x := _execute_dag Examples.plain_worker g tt in
  fst (fst x) = Ok true /\
  (true = true /\
   forall n, has_node g n = true -> node_status (graph_of x) n = "completed").
Proof.
  cbv zeta. split; [vm_compute; reflexivity|].
  apply (layered_plan_completes Examples.plain_worker Examples.chain_plan
           (Examples.built Examples.chain_plan) _ tt tt
           (fun s => if s =? "B" then 2 else 1) true).
  - reflexivity.
  - simpl. intros [H|[H|[]]]; discriminate H.
  - split.
    + intros n _ _. unfold max_iterations_default. destruct (n =? "B"); lia.
    + intros u v [H|[]]. inversion H. subst. right. simpl. lia.
  - vm_compute. reflexivity.
  - intros n. vm_compute (graph_of _). unfold node_status, node_attrs.
    cbn -[String.eqb]. repeat destruct (String.eqb _ n); cbn; discriminate.
Defined.

(** ** How often a run calls the worker *)

Section Quiet.
Context {W L : Type}.

Lemma quiet_ret {A} (a : A) : quiet (W:=W) (L:=L) (ret a).
Proof. intros g wl. reflexivity. Qed.

Lemma quiet_raise {A} e : quiet (W:=W) (L:=L) (A:=A) (raise e).
Proof. intros g wl. reflexivity. Qed.

Lemma quiet_lift {A} (r : outcome A) : quiet (W:=W) (L:=L) (lift_outcome r).
Proof. intros g wl. reflexivity. Qed.

Lemma quiet_get_graph : quiet (W:=W) (L:=L) get_graph.
Proof. intros g wl. reflexivity. Qed.

Lemma quiet_modify_graph f : quiet (W:=W) (L:=L) (modify_graph f).
Proof. intros g wl. reflexivity. Qed.

Lemma quiet_bind {A B} (c : M (W * L) A) (k : A -> M (W * L) B) :
  quiet c -> (forall a, quiet (k a)) -> quiet (bind c k).
Proof.
  intros Hc Hk g wl. specialize (Hc g wl). unfold bind.
  destruct (c g wl) as [[[a|e] g1] wl1]; cbn [fst snd] in *; [|exact Hc].
  now rewrite (Hk a g1 wl1).
Qed.

Lemma quiet_try {A} (c : M (W * L) A) (h : exn -> M (W * L) A) :
  quiet c -> (forall e, quiet (h e)) -> quiet (try_except c h).
Proof.
  intros Hc Hh g wl. specialize (Hc g wl). unfold try_except.
  destruct (c g wl) as [[[a|e] g1] wl1]; cbn [fst snd] in *; [exact Hc|].
  now rewrite (Hh e g1 wl1).
Qed.

Lemma quiet_get_step_data step : quiet (W:=W) (L:=L) (get_step_data step).
Proof.
  unfold get_step_data. apply quiet_bind; [apply quiet_get_graph|]. intros g.
  destruct (Dict.get step (nodes g)); [apply quiet_ret | apply quiet_raise].
Qed.

Lemma quiet_update_step_data step f : quiet (W:=W) (L:=L) (update_step_data step f).
Proof.
  unfold update_step_data. apply quiet_bind; [apply quiet_get_step_data|].
  intros nd. apply quiet_modify_graph.
Qed.
End Quiet.

Ltac quiet_steps :=
  repeat first
    [ apply quiet_ret | apply quiet_raise | apply quiet_lift
    | apply quiet_get_graph | apply quiet_modify_graph | apply quiet_get_step_data
    | apply quiet_update_step_data
    | apply quiet_bind | apply quiet_try
    | match goal with
      | |- forall _, _ => intro
      | |- quiet (match ?x with _ => _ end) => destruct x
      | |- quiet (if ?x then _ else _) => destruct x
      end ].

Section WorkerCalls.
Context {W : Type}.
Variable C : collaborators W.

Local Abbreviation record := (list (outcome run_result)).

Lemma quiet_prompt m cs : quiet (call (Prompt_ask (logged C) m cs)).
Proof.
  intros g [w log]. unfold call, logged. cbn [Prompt_ask fst snd].
  now destruct (Prompt_ask C m cs w).
Qed.

Lemma quiet_user_code k c gs out rs : quiet (call (run_user_code (logged C) k c gs out rs)).
Proof.
  intros g [w log]. unfold call, logged. cbn [run_user_code fst snd].
  now destruct (run_user_code C k c gs out rs w).
Qed.

Lemma quiet_selected_option l choice :
  quiet (W:=W) (L:=record) (selected_option l choice).
Proof. unfold selected_option. quiet_steps. Qed.

Lemma quiet_handle od : quiet (_handle_user_interaction_rich (logged C) od).
Proof.
  unfold _handle_user_interaction_rich.
  destruct (truthy _).
  - destruct (match Dict.get "options" od with Some o => o | None => PList [] end);
      try apply quiet_raise;
      (apply quiet_bind; [apply quiet_prompt|]); intros choice;
      first [apply quiet_selected_option | quiet_steps].
  - apply quiet_bind; [apply quiet_prompt|]. intros r. apply quiet_ret.
Qed.

Lemma quiet_capture od : quiet (capture_user_input (logged C) od).
Proof.
  unfold capture_user_input. apply quiet_bind; [apply quiet_handle|]. intros u.
  apply quiet_bind; [|intros; apply quiet_ret].
  destruct (match Dict.get "writes_to" od with
            | Some k => k | None => PStr "user_response" end); quiet_steps.
Qed.

Lemma quiet_interaction_phase agent_type output :
  quiet (interaction_phase (logged C) agent_type output).
Proof.
  unfold interaction_phase. destruct (_is_clarification_request _ _); [|apply quiet_ret].
  destruct output; try apply quiet_ret.
  apply quiet_try; [apply quiet_capture | intros e; apply quiet_ret].
Qed.

Lemma quiet_run_variants variants od rs : quiet (run_variants (logged C) variants od rs).
Proof.
  induction variants as [|[code_key code] rest IH]; cbn [run_variants];
    [apply quiet_ret|].
  apply quiet_bind; [apply quiet_get_graph|]. intros g.
  apply quiet_bind.
  - apply quiet_try; [|intros e; apply quiet_ret].
    apply quiet_bind; [apply quiet_user_code|]. intros r. quiet_steps.
  - intros [r|]; [apply quiet_ret | exact IH].
Qed.

Lemma quiet_execution_phase step output : quiet (execution_phase (logged C) step output).
Proof.
  unfold execution_phase. destruct output; try apply quiet_ret.
  destruct (_has_executable_code _); [|apply quiet_ret].
  apply quiet_try; [|intros e; apply quiet_ret].
  apply quiet_bind; [|intros er; quiet_steps].
  unfold _auto_execute_code. apply quiet_bind; [apply quiet_lift|].
  intros [|kv rest]; [apply quiet_ret|].
  apply quiet_bind; [apply quiet_get_step_data|]. intros nd. apply quiet_run_variants.
Qed.

Lemma quiet_mark_done step output : quiet (mark_done (logged C) step output).
Proof.
  unfold mark_done. apply quiet_bind; [apply quiet_get_step_data|]. intros nd.
  apply quiet_bind; [apply quiet_interaction_phase|]. intros o.
  apply quiet_bind; [apply quiet_execution_phase|]. intros ex.
  apply quiet_bind; [unfold complete_step; quiet_steps|]. intros _.
  unfold total_tokens. quiet_steps.
Qed.

Lemma quiet_mark_failed step err : quiet (W:=W) (L:=record) (mark_failed step err).
Proof. unfold mark_failed. quiet_steps. Qed.

Lemma quiet_mark_all_running ready : quiet (W:=W) (L:=record) (mark_all_running ready).
Proof.
  induction ready as [|s ready IH]; cbn [mark_all_running]; [apply quiet_ret|].
  apply quiet_bind; [unfold mark_running; apply quiet_update_step_data|].
  intros _. exact IH.
Qed.

Lemma quiet_process_results rs : quiet (process_results (logged C) rs).
Proof.
  induction rs as [|[s r] rs IH]; cbn [process_results]; [apply quiet_ret|].
  apply quiet_bind; [|intros _; exact IH].
  destruct r as [r|e]; [|apply quiet_mark_failed].
  destruct (success r); [apply quiet_mark_done|].
  destruct (result_error r); [apply quiet_mark_failed | apply quiet_raise].
Qed.

Lemma execute_step_calls max step g w (log : record) :
  exists calls,
    snd (snd (_execute_step_bounded (logged C) max step g (w, log))) = (log ++ calls)%list /\
    length calls <= max.
Proof.
  rewrite execute_step_unfold.
  assert (Hnil : exists calls : record, log = (log ++ calls)%list /\ length calls <= max).
  { exists []. rewrite app_nil_r. split; [reflexivity | simpl; lia]. }
  destruct (Dict.get step (nodes g)) as [nd|]; [|exact Hnil].
  destruct (agent nd) as [a|]; [|exact Hnil].
  destruct (get_inputs g (match reads nd with Some l => l | None => [] end))
    as [inputs|e]; [|exact Hnil].
  pose proof (loop_log_bounded C max step a nd inputs PNone PNone PNone g w log) as Hb.
  destruct (iterations_loop (logged C) max step a nd inputs PNone PNone PNone g (w, log))
    as [[[out|e] g1] wl1]; cbn [fst snd] in *; [|exact Hb].
  now destruct (Dict.get step (nodes g1)).
Qed.

Lemma gather_calls max ready :
  forall g w (log : record),
  exists calls,
    snd (snd (gather (_execute_step_bounded (logged C) max) ready g (w, log)))
      = (log ++ calls)%list /\
    length calls <= max * length ready.
Proof.
  induction ready as [|s ready IH]; intros g w log.
  - exists []. simpl. rewrite app_nil_r. split; [reflexivity | lia].
  - cbn [gather]. unfold bind at 1, try_except, bind at 1.
    destruct (execute_step_calls max s g w log) as (c1 & E1 & L1).
    destruct (_execute_step_bounded (logged C) max s g (w, log)) as [[[x|e] g1] [w1 log1]];
      cbn [fst snd] in E1; subst log1; unfold ret; cbn [fst snd];
      unfold bind at 1;
      destruct (IH g1 w1 (log ++ c1)%list) as (c2 & E2 & L2);
      destruct (gather _ ready g1 (w1, (log ++ c1)%list)) as [[[rs|e'] g2] [w2 log2]];
      cbn [fst snd] in *; subst log2;
      exists (c1 ++ c2)%list; rewrite app_assoc, length_app;
      (split; [reflexivity | simpl; lia]).
Qed.

Lemma dag_round_calls max g w (log : record) :
  exists calls,
    snd (snd (dag_round (logged C) (_execute_step_bounded (logged C) max) g (w, log)))
      = (log ++ calls)%list /\
    length calls <= max * length (get_ready_steps g).
Proof.
  unfold dag_round. unfold bind at 1, get_graph at 1. cbn [fst snd].
  destruct (get_ready_steps g) as [|s ready] eqn:Er.
  - exists []. rewrite app_nil_r. split; [|simpl; lia].
    unfold bind, lift_outcome, ret. now destruct (has_failures g).
  - unfold bind at 1.
    pose proof (quiet_mark_all_running (s :: ready) g (w, log)) as Q1.
    destruct (mark_all_running (s :: ready) g (w, log)) as [[[[]|e] g1] [w1 log1]];
      cbn [fst snd] in Q1; subst log1.
    2:{ exists []. rewrite app_nil_r. split; [reflexivity | simpl; lia]. }
    unfold bind at 1.
    destruct (gather_calls max (s :: ready) g1 w1 log) as (calls & E & Hl).
    destruct (gather _ (s :: ready) g1 (w1, log)) as [[[rs|e] g2] [w2 log2]];
      cbn [fst snd] in E; subst log2; [|exists calls; split; [reflexivity | exact Hl]].
    unfold bind at 1.
    pose proof (quiet_process_results rs g2 (w2, (log ++ calls)%list)) as Q2.
    destruct (process_results (logged C) rs g2 (w2, (log ++ calls)%list))
      as [[[[]|e] g3] [w3 log3]]; cbn [fst snd] in Q2; subst log3;
      exists calls; (split; [reflexivity | exact Hl]).
Qed.

Lemma filter_count_le {A} (f h k : A -> bool) (l : list A) :
  (forall x, In x l -> f x = true -> k x = true /\ h x = false) ->
  (forall x, In x l -> h x = true -> k x = true) ->
  length (filter f l) + length (filter h l) <= length (filter k l).
Proof.
  induction l as [|x l IH]; intros H1 H2; [simpl; lia|].
  assert (IH' : length (filter f l) + length (filter h l) <= length (filter k l)).
  { apply IH; intros y Hy; [apply H1 | apply H2]; now right. }
  specialize (H1 x (or_introl eq_refl)). specialize (H2 x (or_introl eq_refl)).
  cbn [filter]. destruct (f x) eqn:Ef.
  - destruct (H1 eq_refl) as (-> & ->). simpl. lia.
  - destruct (h x) eqn:Eh.
    + rewrite (H2 eq_refl). simpl. lia.
    + destruct (k x); simpl; lia.
Qed.

Lemma ready_is_open g n : In n (get_ready_steps g) -> open_step g n = true.
Proof.
  intros Hr. apply ready_iff in Hr as (_ & _ & Hc & Hfl & _).
  unfold open_step. apply Bool.negb_true_iff. apply mem_str_not_In. simpl.
  intuition congruence.
Qed.

Lemma round_closes_steps max g g' (wl wl' : W * record) go_on :
  dag_round (logged C) (_execute_step_bounded (logged C) max) g wl = (Ok go_on, g', wl') ->
  length (get_ready_steps g) + length (open_steps g') <= length (open_steps g).
Proof.
  intros Hr.
  pose proof (dag_round_only_changes (logged C) max g wl) as Hoc. rewrite Hr in Hoc.
  unfold graph_of in Hoc. cbn [fst snd] in Hoc. destruct Hoc as (_ & Hk & Hst).
  unfold open_steps. rewrite Hk. unfold get_ready_steps at 1.
  apply filter_count_le.
  - intros n Hn Hf.
    assert (Hready : In n (get_ready_steps g)).
    { unfold get_ready_steps. apply filter_In. split; assumption. }
    pose proof (dag_round_settles (logged C) max g g' _ _ go_on n Hr Hready) as Ht.
    split; [now apply ready_is_open|].
    unfold open_step. apply Bool.negb_false_iff. now apply mem_str_In.
  - intros n Hn Ho.
    destruct (in_dec string_dec n (get_ready_steps g)) as [Hin|Hout].
    + pose proof (dag_round_settles (logged C) max g g' _ _ go_on n Hr Hin) as Ht.
      unfold open_step in Ho. apply Bool.negb_true_iff, mem_str_not_In in Ho. contradiction.
    + unfold open_step in *. now rewrite <- (status_node_status _ _ _ (Hst n Hout)).
Qed.

Lemma filter_none {A} (l : list A) : filter (fun _ => false) l = [].
Proof. induction l; auto. Qed.

Lemma ready_are_open g : length (get_ready_steps g) <= length (open_steps g).
Proof.
  unfold open_steps. unfold get_ready_steps at 1.
  match goal with
  | |- length (filter ?h ?l) <= _ =>
      pose proof (filter_count_le (fun _ => false) h (open_step g) l) as H
  end.
  rewrite filter_none in H. cbn [length Nat.add] in H. apply H; [intros; discriminate|].
  intros n Hn Hf. apply ready_is_open. unfold get_ready_steps. apply filter_In.
  split; assumption.
Qed.

Lemma dag_loop_calls max remaining :
  forall g w (log : record),
  exists calls,
    snd (snd (dag_loop (logged C) (_execute_step_bounded (logged C) max) remaining
                g (w, log))) = (log ++ calls)%list /\
    length calls <= max * length (open_steps g).
Proof.
  induction remaining as [|remaining IH]; intros g w log.
  - exists []. simpl. rewrite app_nil_r. split; [reflexivity | lia].
  - assert (Hnil : exists calls : record,
               log = (log ++ calls)%list /\ length calls <= max * length (open_steps g)).
    { exists []. rewrite app_nil_r. split; [reflexivity | simpl; lia]. }
    cbn [dag_loop]. unfold bind at 1, get_graph at 1. cbn [fst snd].
    unfold bind at 1, lift_outcome at 1.
    destruct (all_done g) as [[|]|e]; try exact Hnil.
    unfold bind at 1.
    destruct (dag_round_calls max g w log) as (c1 & E1 & L1).
    pose proof (ready_are_open g) as Hro.
    destruct (dag_round (logged C) (_execute_step_bounded (logged C) max) g (w, log))
      as [[[go_on|e] g1] [w1 log1]] eqn:Er; cbn [fst snd] in E1; subst log1.
    + pose proof (round_closes_steps max g g1 _ _ go_on Er) as Hclose.
      destruct go_on.
      * destruct (IH g1 w1 (log ++ c1)%list) as (c2 & E2 & L2).
        exists (c1 ++ c2)%list. rewrite app_assoc, length_app. split; [exact E2|]. nia.
      * exists c1. split; [reflexivity|]. nia.
    + exists c1. split; [reflexivity|]. nia.
Qed.
End WorkerCalls.

(** X24.  A bound on the worker calls of a whole run.  Every step is
    executed in at most one round and each execution calls the worker
    at most twenty times, so [_execute_dag] calls the worker at most
    twenty times for each step that was not yet completed or failed when
    it started, whatever the workers answer and whether the run returns
    or raises (the calls are those recorded by [logged]). *)
Theorem run_calls_bounded
        {W : Type} (C : collaborators W) (g : DiGraph) (w : W)
        (log : list (outcome run_result)) :
  exists calls,
    snd (snd (_execute_dag (logged C) g (w, log))) = (log ++ calls)%list /\
    length calls <= max_iterations_default * length (open_steps g) /\
    length (open_steps g) <= length (Dict.keys (nodes g)).
Proof.
  destruct (dag_loop_calls C max_iterations_default max_iterations_default g w log)
    as (calls & E & Hl).
  exists calls. split; [|split; [exact Hl|]].
  - unfold _execute_dag, _execute_step, bind.
    destruct (dag_loop _ _ _ g (w, log)) as [[[[]|e] g1] wl1]; cbn [fst snd] in *;
      [|exact E].
    unfold get_graph, lift_outcome. exact E.
  - unfold open_steps. induction (Dict.keys (nodes g)) as [|n l IH]; [simpl; lia|].
    cbn [filter]. destruct (open_step g n); simpl; lia.
Qed.

(** ** What the user can have chosen *)






